(** * irisdb: the node-tree engine of [irisdb/src/Node.ts]

    A shallow embedding of the [Node] class: path resolution and the handle
    cache ([get]), the write path ([put], [putValue], [putChildValues],
    [notifyChange]) and the four subscription primitives ([on], [once],
    [map], [open]).

    Conventions of the embedding.
    - A JavaScript object with mutable fields lives in a store and is
      referred to by an address; its immutable fields are carried by the
      handle.  Two handles denote the same object when they are equal.
    - A closure is a constructor holding the immutable variables it captures;
      the mutable variables it captures ([let] bindings and collections that
      are written after creation) live in an environment store.
    - Timestamps are integers ([Date.now()]); JSON numbers are integers.
    - Caller-supplied callbacks are opaque: invoking one records the call and
      either returns or throws.  Type guards are total functions on values.
    - Adapters are external.  What the engine asks of them is recorded: each
      [set] call is logged and yields a promise, each [get]/[list] call
      registers a listener.  An adapter notifies a listener, and settles a
      promise, as separate steps of the environment. *)

From stdpp Require Import gmap strings list fin_maps.
From Stdlib Require Import ZArith Lia Ascii.

Set Warnings "-register-all".

(** ** Values *)

Definition Timestamp := Z.

(** Runtime values: [JsonValue | undefined]. *)
Inductive JsonValue :=
| JUndefined
| JNull
| JBool (b : bool)
| JNumber (n : Z)
| JString (s : string)
| JArray (items : list JsonValue)
| JObject (fields : list (string * JsonValue)).

(** [export const DIRECTORY_VALUE = {};] *)
Definition DIRECTORY_VALUE : JsonValue := JObject [].

Definition typeof_object (value : JsonValue) : bool :=
  match value with
  | JNull | JArray _ | JObject _ => true
  | _ => false
  end.

Definition is_null (value : JsonValue) : bool :=
  match value with JNull => true | _ => false end.

Definition is_undefined (value : JsonValue) : bool :=
  match value with JUndefined => true | _ => false end.

Definition Array_isArray (value : JsonValue) : bool :=
  match value with JArray _ => true | _ => false end.

(** [Object.keys(value).length], for the values on which it is evaluated. *)
Definition Object_keys_length (value : JsonValue) : nat :=
  match value with
  | JObject fields => length fields
  | JArray items => length items
  | _ => 0
  end.

(** [Object.keys(value)] of a plain object, in property order. *)
Definition Object_keys (value : JsonValue) : list string :=
  match value with
  | JObject fields => fields.*1
  | _ => []
  end.

(** JavaScript truthiness. *)
Definition truthy (value : JsonValue) : bool :=
  match value with
  | JUndefined | JNull => false
  | JBool b => b
  | JNumber n => negb (n =? 0)%Z
  | JString s => negb (String.eqb s "")
  | JArray _ | JObject _ => true
  end.

(** [isDirectory]:
    typeof value === 'object' && value !== null &&
    Object.keys(value).length === 0 && !Array.isArray(value) *)
Definition isDirectory (value : JsonValue) : bool :=
  typeof_object value
  && negb (is_null value)
  && (Object_keys_length value =? 0)
  && negb (Array_isArray value).

(** The test at the head of [put]:
    typeof value === 'object' && value !== null &&
    !Array.isArray(value) && Object.keys(value).length *)
Definition isNonEmptyObject (value : JsonValue) : bool :=
  typeof_object value
  && negb (is_null value)
  && negb (Array_isArray value)
  && negb (Object_keys_length value =? 0).

(** ** Paths *)

Module Path.

Definition slash : Ascii.ascii := "/"%char.

(** [s.split('/')]: never empty, [''.split('/')] is [['']]. *)
Fixpoint split (s : string) : list string :=
  match s with
  | EmptyString => [EmptyString]
  | String c rest =>
      if Ascii.eqb c slash then EmptyString :: split rest
      else match split rest with
           | seg :: segs => String c seg :: segs
           | [] => [String c EmptyString]
           end
  end.

(** [segs.join('/')] *)
Fixpoint join (segs : list string) : string :=
  match segs with
  | [] => EmptyString
  | [seg] => seg
  | seg :: rest => seg +:+ String slash (join rest)
  end.

(** [segs.slice(1)] *)
Definition slice1 (segs : list string) : list string := tail segs.

(** [path.split('/').pop()!] *)
Definition pop (segs : list string) : string := List.last segs EmptyString.

(** [`${id}/${seg}`] *)
Definition child_id (id seg : string) : string := id +:+ String slash seg.

Fixpoint has_slash (s : string) : bool :=
  match s with
  | EmptyString => false
  | String c rest => Ascii.eqb c slash || has_slash rest
  end.

End Path.

(** ** Handles, closures, stores *)

(** A [Node] object.  [id], [parent] and [adapters] are assigned once in the
    constructor and carried by the handle; [addr] is the identity of the
    object and the address of its mutable fields. *)
Inductive Node := mkNode {
  addr : nat;
  id : string;
  adapters : list nat;
  parent : option Node
}.

(** The [unsubscribe] closure of a [map] call: the node, the subscription
    identifier and the environment of the call. *)
Record MapHandle := mkMapHandle {
  mh_node : Node;
  mh_id : nat;
  mh_env : nat
}.

(** The closures of type [Unsubscribe]. *)
Inductive Unsubscribe :=
| UnNoop                     (* [() => {}] *)
| UnAdapter (l : nat)        (* returned by [adapter.get] and [adapter.list] *)
| UnOn (this : Node) (uniqueId e recursion : nat)
                             (* [unsubscribeAll] of [on] *)
| UnMap (recursion : nat) (h : MapHandle)
                             (* [unsubscribe] of [map], and the closure of
                                the same body that [cb] passes on *)
| UnPut (parent : option Node) (id : nat).
                             (* [() => { this.parent?.map_subscriptions.delete(id) }] *)

Definition TypeGuard := JsonValue → JsonValue.

(** The closures of type [Callback]. *)
Inductive Callback :=
| UserCallback (k : nat) (throws : bool)
| OnLocalCallback (e : nat) (this : Node) (callback : Callback)
    (returnIfUndefined : bool) (recursion : nat) (typeGuard : TypeGuard)
                             (* [localCallback] of [on] *)
| OpenCallback (e : nat) (this : Node) (callback : Callback)
    (typeGuard : TypeGuard)  (* the arrow function [open] hands to [map] *)
| MapTypedCallback (callback : Callback) (typeGuard : TypeGuard)
                             (* [typedCallback] of [map] *)
| MapListCallback (e : nat) (this : Node) (id : nat) (callback : Callback)
    (recursion : nat) (typeGuard : TypeGuard)
                             (* the arrow function [map] hands to [adapter.list],
                                which calls [cb] *)
| OnceCallback (e : nat) (callback : option Callback).
                             (* [cb] of [once] *)

Record Subscription := mkSubscription {
  callback : Callback;
  recursion : nat
}.

(** The mutable fields of a [Node]. *)
Record NodeCell := mkNodeCell {
  children : gmap string Node;
  on_subscriptions : list (nat * Subscription);
  map_subscriptions : list (nat * Subscription);
  counter : nat
}.

(** [let latestValue], [let openUnsubscribe], [const adapterUnsubscribes]. *)
Record OnEnv := mkOnEnv {
  latestValue : option (JsonValue * Timestamp);
  openUnsubscribe : option MapHandle;
  adapterUnsubscribes : list nat
}.

(** [latestMap], [let adapterSubs], [openUnsubs]. *)
Record MapEnv := mkMapEnv {
  latestMap : gmap string (JsonValue * Timestamp);
  adapterSubs : list nat;
  openUnsubs : list (string * MapHandle)
}.

(** [aggregated], [let latestTime]. *)
Record OpenEnv := mkOpenEnv {
  aggregated : list (string * JsonValue);
  latestTime : option Timestamp
}.

(** Modelled from the spec: the adapters ([./adapters], [./types.ts]) are
    not part of the sources; a listener is what [get(path, onChange)] or
    [list(path, onChildChange)] registers with an adapter, and the
    unsubscribe function the adapter returns removes it. *)
Record Listener := mkListener {
  l_adapter : nat;
  l_list : bool;
  l_path : string;
  l_callback : Callback
}.

(** What the engine does to the outside. *)
Inductive Event :=
| AdapterSet (a : nat) (path : string) (value : JsonValue)
    (updatedAt : Timestamp) (expiresAt : option Timestamp) (p : nat)
| Call (k : nat) (value : JsonValue) (path : string)
    (updatedAt : option Timestamp) (unsubscribe : Unsubscribe)
| Resolve (e : nat) (value : JsonValue).

Record State := mkState {
  heap : gmap nat NodeCell;
  next_addr : nat;
  on_envs : gmap nat OnEnv;
  map_envs : gmap nat MapEnv;
  open_envs : gmap nat OpenEnv;
  once_envs : gmap nat bool;          (* [let resolved] of each [once] call *)
  next_env : nat;
  listeners : gmap nat Listener;
  next_listener : nat;
  settled : gmap nat bool;            (* promises of [adapter.set]: fulfilled or rejected *)
  next_promise : nat;
  log : list Event
}.

Definition empty_cell : NodeCell := mkNodeCell ∅ [] [] 0.

Definition set_heap (f : gmap nat NodeCell → gmap nat NodeCell) (st : State) : State :=
  mkState (f (heap st)) (next_addr st) (on_envs st) (map_envs st) (open_envs st)
    (once_envs st) (next_env st) (listeners st) (next_listener st) (settled st)
    (next_promise st) (log st).

Definition set_next_addr (n : nat) (st : State) : State :=
  mkState (heap st) n (on_envs st) (map_envs st) (open_envs st)
    (once_envs st) (next_env st) (listeners st) (next_listener st) (settled st)
    (next_promise st) (log st).

Definition set_on_envs (f : gmap nat OnEnv → gmap nat OnEnv) (st : State) : State :=
  mkState (heap st) (next_addr st) (f (on_envs st)) (map_envs st) (open_envs st)
    (once_envs st) (next_env st) (listeners st) (next_listener st) (settled st)
    (next_promise st) (log st).

Definition set_map_envs (f : gmap nat MapEnv → gmap nat MapEnv) (st : State) : State :=
  mkState (heap st) (next_addr st) (on_envs st) (f (map_envs st)) (open_envs st)
    (once_envs st) (next_env st) (listeners st) (next_listener st) (settled st)
    (next_promise st) (log st).

Definition set_open_envs (f : gmap nat OpenEnv → gmap nat OpenEnv) (st : State) : State :=
  mkState (heap st) (next_addr st) (on_envs st) (map_envs st) (f (open_envs st))
    (once_envs st) (next_env st) (listeners st) (next_listener st) (settled st)
    (next_promise st) (log st).

Definition set_once_envs (f : gmap nat bool → gmap nat bool) (st : State) : State :=
  mkState (heap st) (next_addr st) (on_envs st) (map_envs st) (open_envs st)
    (f (once_envs st)) (next_env st) (listeners st) (next_listener st) (settled st)
    (next_promise st) (log st).

Definition set_next_env (n : nat) (st : State) : State :=
  mkState (heap st) (next_addr st) (on_envs st) (map_envs st) (open_envs st)
    (once_envs st) n (listeners st) (next_listener st) (settled st)
    (next_promise st) (log st).

Definition set_listeners (f : gmap nat Listener → gmap nat Listener) (st : State) : State :=
  mkState (heap st) (next_addr st) (on_envs st) (map_envs st) (open_envs st)
    (once_envs st) (next_env st) (f (listeners st)) (next_listener st) (settled st)
    (next_promise st) (log st).

Definition set_next_listener (n : nat) (st : State) : State :=
  mkState (heap st) (next_addr st) (on_envs st) (map_envs st) (open_envs st)
    (once_envs st) (next_env st) (listeners st) n (settled st)
    (next_promise st) (log st).

Definition set_settled (f : gmap nat bool → gmap nat bool) (st : State) : State :=
  mkState (heap st) (next_addr st) (on_envs st) (map_envs st) (open_envs st)
    (once_envs st) (next_env st) (listeners st) (next_listener st) (f (settled st))
    (next_promise st) (log st).

Definition set_next_promise (n : nat) (st : State) : State :=
  mkState (heap st) (next_addr st) (on_envs st) (map_envs st) (open_envs st)
    (once_envs st) (next_env st) (listeners st) (next_listener st) (settled st)
    n (log st).

Definition emit (ev : Event) (st : State) : State :=
  mkState (heap st) (next_addr st) (on_envs st) (map_envs st) (open_envs st)
    (once_envs st) (next_env st) (listeners st) (next_listener st) (settled st)
    (next_promise st) (log st ++ [ev]).

(** The mutable fields of [n]. *)
Definition cell (n : Node) (st : State) : NodeCell :=
  default empty_cell (heap st !! addr n).

Definition set_cell (n : Node) (f : NodeCell → NodeCell) (st : State) : State :=
  set_heap (alter f (addr n)) st.

Definition with_children (f : gmap string Node → gmap string Node) (c : NodeCell) : NodeCell :=
  mkNodeCell (f (children c)) (on_subscriptions c) (map_subscriptions c) (counter c).

Definition with_on_subscriptions
    (f : list (nat * Subscription) → list (nat * Subscription)) (c : NodeCell) : NodeCell :=
  mkNodeCell (children c) (f (on_subscriptions c)) (map_subscriptions c) (counter c).

Definition with_map_subscriptions
    (f : list (nat * Subscription) → list (nat * Subscription)) (c : NodeCell) : NodeCell :=
  mkNodeCell (children c) (on_subscriptions c) (f (map_subscriptions c)) (counter c).

Definition with_counter (k : nat) (c : NodeCell) : NodeCell :=
  mkNodeCell (children c) (on_subscriptions c) (map_subscriptions c) k.

(** [Map.prototype.set] and [delete] on a [Map<number, Subscription>], which
    iterates in insertion order. *)
Fixpoint table_set (k : nat) (s : Subscription) (t : list (nat * Subscription))
    : list (nat * Subscription) :=
  match t with
  | [] => [(k, s)]
  | (k', s') :: rest =>
      if decide (k' = k) then (k, s) :: rest else (k', s') :: table_set k s rest
  end.

Fixpoint table_get (k : nat) (t : list (nat * Subscription)) : option Subscription :=
  match t with
  | [] => None
  | (k', s) :: rest => if decide (k' = k) then Some s else table_get k rest
  end.

Definition table_delete (k : nat) (t : list (nat * Subscription))
    : list (nat * Subscription) :=
  filter (λ entry, entry.1 ≠ k) t.

(** ** Computations

    Code that cannot throw is a function [State → State * A]; code that
    calls back into subscribers may throw and is a computation [M A]. *)

Inductive Completion (A : Type) :=
| Normal (a : A)
| Thrown.
Arguments Normal {A} a.
Arguments Thrown {A}.

Definition M (A : Type) : Type := State → State * Completion A.

Definition ret {A} (a : A) : M A := λ st, (st, Normal a).

Definition bind {A B} (c : M A) (k : A → M B) : M B :=
  λ st, match c st with
        | (st', Normal a) => k a st'
        | (st', Thrown) => (st', Thrown)
        end.

Definition throw {A} : M A := λ st, (st, Thrown).

Definition modify (f : State → State) : M unit := λ st, (f st, Normal tt).

Definition gets {A} (f : State → A) : M A := λ st, (st, Normal (f st)).

Definition lift {A} (f : State → State * A) : M A :=
  λ st, let '(st', a) := f st in (st', Normal a).

Notation "x <~ c ;; k" := (bind c (λ x, k))
  (at level 100, c at next level, right associativity).
Notation "c ;;; k" := (bind c (λ _, k))
  (at level 100, right associativity).

(** [xs.forEach(f)] / [for (const x of xs) f(x)]: [f] on each element of the
    list in turn, up to the first call that throws. *)
Fixpoint for_each {A} (f : A → M unit) (xs : list A) : M unit :=
  match xs with
  | [] => ret tt
  | x :: rest => f x ;;; for_each f rest
  end.

(** [xs.map(f)] for an [f] that does not throw. *)
Fixpoint map_s {A B} (f : A → State → State * B) (xs : list A) (st : State)
    : State * list B :=
  match xs with
  | [] => (st, [])
  | x :: rest =>
      let '(st1, y) := f x st in
      let '(st2, ys) := map_s f rest st1 in
      (st2, y :: ys)
  end.

(** ** [Node.get] *)

(** The constructor call [new Node({ id, parent: this })] of [get]: the
    adapters are the parent's. *)
Definition new_child (this : Node) (seg : string) (st : State) : State * Node :=
  let node := mkNode (next_addr st) (Path.child_id (id this) seg) (adapters this) (Some this) in
  (set_next_addr (S (next_addr st)) (set_heap (λ h, <[addr node := empty_cell]> h) st),
   node).

(** One round of [get]: the body up to the test on [splitKey.length]. *)
Definition get_child (this : Node) (seg : string) (st : State) : State * Node :=
  match children (cell this st) !! seg with
  | Some node => (st, node)
  | None =>
      let '(st1, node) := new_child this seg st in
      (set_cell this (with_children (λ m, <[seg := node]> m)) st1, node)
  end.

(** [get] along the segments of the key ([split] is never empty). *)
Fixpoint get_segments (this : Node) (splitKey : list string) (st : State)
    : State * Node :=
  match splitKey with
  | [] => (st, this)
  | seg :: rest =>
      let '(st1, node) := get_child this seg st in
      match rest with
      | [] => (st1, node)
      | _ :: _ => get_segments node rest st1
      end
  end.

Definition get (this : Node) (key : string) : State → State * Node :=
  get_segments this (Path.split key).

(** ** The adapter boundary *)

(** [adapter.set(path, { value, updatedAt, expiresAt })]: the call is
    logged and returns a fresh promise. *)
Definition adapter_set (path : string) (value : JsonValue) (updatedAt : Timestamp)
    (expiresAt : option Timestamp) (a : nat) (st : State) : State * nat :=
  let p := next_promise st in
  (set_next_promise (S p) (emit (AdapterSet a path value updatedAt expiresAt p) st), p).

Definition register (l : Listener) (st : State) : State * nat :=
  let k := next_listener st in
  (set_next_listener (S k) (set_listeners (λ m, <[k := l]> m) st), k).

(** [adapter.get(path, callback)] *)
Definition adapter_get (path : string) (cb : Callback) (a : nat) : State → State * nat :=
  register (mkListener a false path cb).

(** [adapter.list(path, callback)] *)
Definition adapter_list (path : string) (cb : Callback) (a : nat) : State → State * nat :=
  register (mkListener a true path cb).

(** The unsubscribe function an adapter returned for listener [l]. *)
Definition adapter_unsubscribe (l : nat) : State → State :=
  set_listeners (delete l).

(** ** Environments of the closures *)

Definition on_env (e : nat) (st : State) : OnEnv :=
  default (mkOnEnv None None []) (on_envs st !! e).

Definition map_env (e : nat) (st : State) : MapEnv :=
  default (mkMapEnv ∅ [] []) (map_envs st !! e).

Definition open_env (e : nat) (st : State) : OpenEnv :=
  default (mkOpenEnv [] None) (open_envs st !! e).

Definition resolved (e : nat) (st : State) : bool :=
  default false (once_envs st !! e).

Definition fresh_env (st : State) : State * nat :=
  (set_next_env (S (next_env st)) st, next_env st).

(** [this.counter++] *)
Definition next_counter (this : Node) (st : State) : State * nat :=
  let k := counter (cell this st) in
  (set_cell this (with_counter (S k)) st, k).

(** [obj[key] = v] on a plain object: an own property keeps its place, a new
    one goes last. *)
Fixpoint property_set {A} (key : string) (v : A) (obj : list (string * A))
    : list (string * A) :=
  match obj with
  | [] => [(key, v)]
  | (k, w) :: rest =>
      if decide (k = key) then (key, v) :: rest else (k, w) :: property_set key v rest
  end.

(** [obj[key]] *)
Fixpoint property_get {A} (key : string) (obj : list (string * A)) : option A :=
  match obj with
  | [] => None
  | (k, w) :: rest => if decide (k = key) then Some w else property_get key rest
  end.

(** ** [Node.map] and [Node.open] *)

(** [map]: the subscription is entered in [map_subscriptions] under a fresh
    identifier, and a listener is registered with every adapter.  The
    result is the [unsubscribe] closure. *)
Definition map_handle (this : Node) (callback : Callback) (recursion : nat)
    (typeGuard : TypeGuard) (st : State) : State * MapHandle :=
  let '(st1, sid) := next_counter this st in
  let typedCallback := MapTypedCallback callback typeGuard in
  let st2 := set_cell this
               (with_map_subscriptions (table_set sid (mkSubscription typedCallback recursion)))
               st1 in
  let '(st3, e) := fresh_env st2 in
  let st4 := set_map_envs (λ m, <[e := mkMapEnv ∅ [] []]> m) st3 in
  let '(st5, subs) :=
    map_s (adapter_list (id this) (MapListCallback e this sid callback recursion typeGuard))
          (adapters this) st4 in
  (set_map_envs (λ m, <[e := mkMapEnv ∅ subs []]> m) st5, mkMapHandle this sid e).

Definition map (this : Node) (callback : Callback) (recursion : nat)
    (typeGuard : TypeGuard) (st : State) : State * Unsubscribe :=
  let '(st', h) := map_handle this callback recursion typeGuard st in
  (st', UnMap recursion h).

(** [open]: a [map] whose callback aggregates the children. *)
Definition open_handle (this : Node) (callback : Callback) (recursion : nat)
    (typeGuard : TypeGuard) (st : State) : State * MapHandle :=
  let '(st1, e) := fresh_env st in
  let st2 := set_open_envs (λ m, <[e := mkOpenEnv [] None]> m) st1 in
  map_handle this (OpenCallback e this callback typeGuard) recursion (λ value, value) st2.

Definition open (this : Node) (callback : Callback) (recursion : nat)
    (typeGuard : TypeGuard) (st : State) : State * Unsubscribe :=
  let '(st', h) := open_handle this callback recursion typeGuard st in
  (st', UnMap recursion h).

(** ** The unsubscribe closures *)

(** The body of [unsubscribe] in [map]:
      this.map_subscriptions.delete(id);
      unsubscribeFromAdapters();
      Object.values(openUnsubs).forEach((unsub) => unsub());
    [openUnsubs] is only written under [recursion > 0], with handles of
    [open] calls of budget [recursion - 1]. *)
Fixpoint unsubscribe_map (recursion : nat) (h : MapHandle) (st : State) : State :=
  let st1 := set_cell (mh_node h) (with_map_subscriptions (table_delete (mh_id h))) st in
  let st2 := foldl (λ s l, adapter_unsubscribe l s) st1 (adapterSubs (map_env (mh_env h) st1)) in
  match recursion with
  | 0 => st2
  | S r => foldl (λ s entry, unsubscribe_map r entry.2 s) st2
                 (openUnsubs (map_env (mh_env h) st2))
  end.

(** The body of [unsubscribeAll] in [on]:
      this.on_subscriptions.delete(uniqueId);
      adapterUnsubscribes.forEach((unsub) => unsub());
      openUnsubscribe?.(); *)
Definition unsubscribe_on (this : Node) (uniqueId e recursion : nat) (st : State) : State :=
  let st1 := set_cell this (with_on_subscriptions (table_delete uniqueId)) st in
  let st2 := foldl (λ s l, adapter_unsubscribe l s) st1 (adapterUnsubscribes (on_env e st1)) in
  match openUnsubscribe (on_env e st2) with
  | Some h => unsubscribe_map (recursion - 1) h st2
  | None => st2
  end.

(** Calling a closure of type [Unsubscribe]. *)
Definition run_unsubscribe (u : Unsubscribe) (st : State) : State :=
  match u with
  | UnNoop => st
  | UnAdapter l => adapter_unsubscribe l st
  | UnOn this uniqueId e recursion => unsubscribe_on this uniqueId e recursion st
  | UnMap recursion h => unsubscribe_map recursion h st
  | UnPut (Some p) sid => set_cell p (with_map_subscriptions (table_delete sid)) st
  | UnPut None _ => st
  end.

(** ** Calling a closure of type [Callback] *)

Definition set_latestValue (e : nat) (v : option (JsonValue * Timestamp)) (st : State) : State :=
  set_on_envs (λ m, <[e := mkOnEnv v (openUnsubscribe (on_env e st))
                                  (adapterUnsubscribes (on_env e st))]> m) st.

Definition set_openUnsubscribe (e : nat) (h : option MapHandle) (st : State) : State :=
  set_on_envs (λ m, <[e := mkOnEnv (latestValue (on_env e st)) h
                                  (adapterUnsubscribes (on_env e st))]> m) st.

Definition set_adapterUnsubscribes (e : nat) (ls : list nat) (st : State) : State :=
  set_on_envs (λ m, <[e := mkOnEnv (latestValue (on_env e st))
                                  (openUnsubscribe (on_env e st)) ls]> m) st.

Definition set_latestMap (e : nat) (path : string) (v : JsonValue * Timestamp) (st : State) : State :=
  set_map_envs (λ m, <[e := mkMapEnv (<[path := v]> (latestMap (map_env e st)))
                                   (adapterSubs (map_env e st))
                                   (openUnsubs (map_env e st))]> m) st.

Definition set_openUnsubs (e : nat) (childName : string) (h : MapHandle) (st : State) : State :=
  set_map_envs (λ m, <[e := mkMapEnv (latestMap (map_env e st))
                                   (adapterSubs (map_env e st))
                                   (property_set childName h (openUnsubs (map_env e st)))]> m) st.

(** [latestValue !== null && updatedAt !== undefined && latestValue.updatedAt >= updatedAt] *)
Definition olderThanLatest (latest : option (JsonValue * Timestamp))
    (updatedAt : option Timestamp) : bool :=
  match latest, updatedAt with
  | Some (_, t), Some u => (u <=? t)%Z
  | _, _ => false
  end.

(** [!latestTime || latestTime < updatedAt] *)
Definition advances (latestTime : option Timestamp) (updatedAt : Timestamp) : bool :=
  match latestTime with
  | None => true
  | Some t => (t =? 0)%Z || (t <? updatedAt)%Z
  end.

Fixpoint invoke (cb : Callback) (value : JsonValue) (path : string)
    (updatedAt : option Timestamp) (unsubscribe : Unsubscribe) {struct cb} : M unit :=
  match cb with
  | UserCallback k throws =>
      modify (emit (Call k value path updatedAt unsubscribe)) ;;;
      if throws then throw else ret tt
  | OnLocalCallback e this callback returnIfUndefined recursion typeGuard =>
      latest <~ gets (λ st, latestValue (on_env e st)) ;;
      let noReturnUndefined := negb returnIfUndefined && is_undefined value in
      if olderThanLatest latest updatedAt || noReturnUndefined then ret tt
      else
        let returnUndefined :=
          negb (bool_decide (is_Some latest)) && returnIfUndefined && is_undefined value in
        if returnUndefined then invoke callback value path updatedAt unsubscribe
        else
          match updatedAt with
          | Some u =>
              if negb (is_undefined value)
              then modify (set_latestValue e (Some (value, u)))
              else ret tt
          | None => ret tt
          end ;;;
          opened <~ gets (λ st, openUnsubscribe (on_env e st)) ;;
          (if isDirectory value && (0 <? recursion) && negb (bool_decide (is_Some opened))
           then h <~ lift (open_handle this callback (recursion - 1) typeGuard) ;;
                modify (set_openUnsubscribe e (Some h))
           else ret tt) ;;;
          if negb (isDirectory value) || (recursion =? 0)
          then invoke callback (typeGuard value) path updatedAt unsubscribe
          else ret tt
  | OpenCallback e this callback typeGuard =>
      env <~ gets (open_env e) ;;
      let latestTime' :=
        match updatedAt with
        | Some u => if advances (latestTime env) u then Some u else latestTime env
        | None => latestTime env
        end in
      let childName := Path.pop (Path.split path) in
      let aggregated' := property_set childName value (aggregated env) in
      modify (set_open_envs (λ m, <[e := mkOpenEnv aggregated' latestTime']> m)) ;;;
      invoke callback (typeGuard (JObject aggregated')) (id this) latestTime' UnNoop
  | MapTypedCallback callback typeGuard =>
      invoke callback (typeGuard value) path updatedAt unsubscribe
  | MapListCallback e this sid callback recursion typeGuard =>
      let value := typeGuard value in
      latest <~ gets (λ st, latestMap (map_env e st) !! path) ;;
      if olderThanLatest latest updatedAt then ret tt
      else
        match updatedAt with
        | Some u => modify (set_latestMap e path (value, u))
        | None => ret tt
        end ;;;
        let childName := Path.pop (Path.split path) in
        if (0 <? recursion) && truthy value && isDirectory value
        then
          known <~ gets (λ st, property_get childName (openUnsubs (map_env e st))) ;;
          match known with
          | Some _ => ret tt
          | None =>
              child <~ lift (get this childName) ;;
              h <~ lift (open_handle child callback (recursion - 1) (λ value, value)) ;;
              modify (set_openUnsubs e childName h)
          end
        else
          invoke callback value path updatedAt (UnMap recursion (mkMapHandle this sid e))
  | OnceCallback e callback =>
      (* [cb] names its parameters (value, updatedAt, path, unsub); they are
         passed on by position *)
      done <~ gets (resolved e) ;;
      if done then ret tt
      else
        modify (set_once_envs (λ m, <[e := true]> m)) ;;;
        modify (emit (Resolve e value)) ;;;
        match callback with
        | Some c => invoke c value path updatedAt UnNoop
        | None => ret tt
        end ;;;
        modify (run_unsubscribe unsubscribe)
  end.

(** ** [Node.on] and [Node.once] *)

Definition on (this : Node) (callback : Callback) (returnIfUndefined : bool)
    (recursion : nat) (typeGuard : TypeGuard) (st : State) : State * Unsubscribe :=
  let '(st1, e) := fresh_env st in
  let st2 := set_on_envs (λ m, <[e := mkOnEnv None None []]> m) st1 in
  let '(st3, uniqueId) := next_counter this st2 in
  let localCallback :=
    OnLocalCallback e this callback returnIfUndefined recursion typeGuard in
  let st4 := set_cell this
               (with_on_subscriptions (table_set uniqueId (mkSubscription localCallback recursion)))
               st3 in
  let '(st5, unsubs) := map_s (adapter_get (id this) localCallback) (adapters this) st4 in
  (set_adapterUnsubscribes e unsubs st5, UnOn this uniqueId e recursion).

(** [once]: the promise is identified by the environment of the call; the
    value returned by [this.on] is dropped. *)
Definition once (this : Node) (callback : option Callback) (returnIfUndefined : bool)
    (recursion : nat) (typeGuard : TypeGuard) (st : State) : State * nat :=
  let '(st1, e) := fresh_env st in
  let st2 := set_once_envs (λ m, <[e := false]> m) st1 in
  let '(st3, _) := on this (OnceCallback e callback) returnIfUndefined recursion typeGuard st2 in
  (st3, e).

(** ** The write path *)

(** The body of the [forEach] in [notifyChange], for the entry of key [sid].
    A [Map] is iterated live: the entry is looked up when its turn comes, and
    an entry deleted in the meantime is skipped. *)
Definition notify_subscriber (this : Node) (value : JsonValue)
    (updatedAt : option Timestamp) (sid : nat) : M unit :=
  entry <~ gets (λ st, table_get sid (on_subscriptions (cell this st))) ;;
  match entry with
  | Some s =>
      if (0 <? recursion s) && isDirectory value then ret tt
      else invoke (callback s) value (id this) updatedAt UnNoop
  | None => ret tt
  end.

(** [notifyChange]: the entries of [on_subscriptions], in insertion order.
    (No closure of the engine adds an entry to an [on_subscriptions] table.) *)
Definition notifyChange (this : Node) (value : JsonValue) (updatedAt : option Timestamp)
    : M unit :=
  subs <~ gets (λ st, (on_subscriptions (cell this st)).*1) ;;
  for_each (notify_subscriber this value updatedAt) subs.

(** [putValue], up to its [await]: the promises it then awaits. *)
Definition putValue (this : Node) (value : JsonValue) (updatedAt : Timestamp)
    (expiresAt : option Timestamp) : M (list nat) :=
  (if negb (isDirectory value)
   then modify (set_cell this (with_children (λ _, ∅)))
   else ret tt) ;;;
  promises <~ lift (map_s (adapter_set (id this) value updatedAt expiresAt) (adapters this)) ;;
  notifyChange this value (Some updatedAt) ;;;
  ret promises.

(** A call of the async function [put] in flight. *)
Inductive PutTask :=
| Fulfilled
| Rejected
| AwaitLocal (this : Node) (value : JsonValue) (updatedAt : Timestamp)
    (promises : list nat) (childPromises : list PutTask)
             (* at [await this.putChildValues(...)] or [await this.putValue(...)] *)
| AwaitParent (this : Node) (value : JsonValue) (updatedAt : Timestamp)
    (parentPut : PutTask).
             (* at [await this.parent.put(DIRECTORY_VALUE, updatedAt)] *)

(** [put], up to its first [await].  In the branch of [putChildValues] the
    directory marker is handed to the adapters, then [put] is called on
    [this.get(key)] for each key in turn, each call running up to its own
    first [await]. *)
Fixpoint put (value : JsonValue) (this : Node) (updatedAt : Timestamp)
    (expiresAt : option Timestamp) (st : State) {struct value} : State * PutTask :=
  if isNonEmptyObject value then
    let '(st1, promises) :=
      map_s (adapter_set (id this) DIRECTORY_VALUE updatedAt expiresAt) (adapters this) st in
    let '(st2, childPromises) :=
      match value with
      | JObject fields =>
          (fix children_put (fields : list (string * JsonValue)) (st : State)
             : State * list PutTask :=
             match fields with
             | [] => (st, [])
             | (key, v) :: rest =>
                 let '(sta, child) := get this key st in
                 let '(stb, task) := put v child updatedAt None sta in
                 let '(stc, tasks) := children_put rest stb in
                 (stc, task :: tasks)
             end) fields st1
      | _ => (st1, [])
      end in
    (st2, AwaitLocal this value updatedAt promises childPromises)
  else
    match putValue this value updatedAt expiresAt st with
    | (st1, Normal promises) => (st1, AwaitLocal this value updatedAt promises [])
    | (st1, Thrown) => (st1, Rejected)
    end.

(** [children.map((key) => this.get(key).put(value[key], updatedAt))], over
    the properties of the object. *)
Fixpoint put_children (this : Node) (fields : list (string * JsonValue))
    (updatedAt : Timestamp) (st : State) : State * list PutTask :=
  match fields with
  | [] => (st, [])
  | (key, v) :: rest =>
      let '(sta, child) := get this key st in
      let '(stb, task) := put v child updatedAt None sta in
      let '(stc, tasks) := put_children this rest updatedAt stb in
      (stc, task :: tasks)
  end.

(** [putChildValues], up to its [await]: the promises of the adapters and
    the promises of the children. *)
Definition putChildValues (this : Node) (fields : list (string * JsonValue))
    (updatedAt : Timestamp) (expiresAt : option Timestamp) (st : State)
    : State * (list nat * list PutTask) :=
  let '(st1, promises) :=
    map_s (adapter_set (id this) DIRECTORY_VALUE updatedAt expiresAt) (adapters this) st in
  let '(st2, childPromises) := put_children this fields updatedAt st1 in
  (st2, (promises, childPromises)).

(** [put] after the local write has settled: the call of
    [this.parent.put(DIRECTORY_VALUE, updatedAt)], up to its first [await]. *)
Definition put_after_local (this : Node) (value : JsonValue) (updatedAt : Timestamp)
    (st : State) : State * PutTask :=
  match parent this with
  | Some p =>
      let '(st1, task) := put DIRECTORY_VALUE p updatedAt None st in
      (st1, AwaitParent this value updatedAt task)
  | None => (st, Fulfilled)
  end.

(** The body of the loop over [this.parent.map_subscriptions] in [put], for
    the entry of key [sid], looked up when its turn comes. *)
Definition notify_map_subscriber (this : Node) (value : JsonValue)
    (updatedAt : Timestamp) (sid : nat) : M unit :=
  match parent this with
  | None => ret tt
  | Some p =>
      entry <~ gets (λ st, table_get sid (map_subscriptions (cell p st))) ;;
      match entry with
      | Some s =>
          if negb (isDirectory value) || (recursion s =? 0)
          then invoke (callback s) value (id this) (Some updatedAt)
                 (UnPut (parent this) sid)
          else ret tt
      | None => ret tt
      end
  end.

(** [put] after the parent's [put] has been fulfilled: the child cache of the
    parent, then the loop over the parent's [map_subscriptions], in
    insertion order. *)
Definition put_after_parent (this : Node) (value : JsonValue) (updatedAt : Timestamp)
    (st : State) : State * PutTask :=
  match parent this with
  | None => (st, Fulfilled)
  | Some p =>
      let childName := Path.pop (Path.split (id this)) in
      let st1 :=
        match children (cell p st) !! childName with
        | Some _ => st
        | None => set_cell p (with_children (λ m, <[childName := this]> m)) st
        end in
      match for_each (notify_map_subscriber this value updatedAt)
                     (map_subscriptions (cell p st1)).*1 st1 with
      | (st2, Normal _) => (st2, Fulfilled)
      | (st2, Thrown) => (st2, Rejected)
      end
  end.

(** ** Scheduling the continuations of [put] *)

Definition is_fulfilled (t : PutTask) : bool :=
  match t with Fulfilled => true | _ => false end.

Definition is_rejected (t : PutTask) : bool :=
  match t with Rejected => true | _ => false end.

(** [await Promise.all([...promises, ...childPromises])]: rejected as soon as
    one of them is, fulfilled once all of them are, pending otherwise. *)
Definition all_settled (st : State) (promises : list nat) (childPromises : list PutTask)
    : option bool :=
  if existsb (λ p, bool_decide (settled st !! p = Some false)) promises
     || existsb is_rejected childPromises
  then Some false
  else if forallb (λ p, bool_decide (settled st !! p = Some true)) promises
          && forallb is_fulfilled childPromises
  then Some true
  else None.

(** Run the continuation of the [await] at position [pos] of a task, if the
    promise it awaits has settled.  A position descends through
    [childPromises] by index and through [parentPut]. *)
Fixpoint resume (pos : list nat) (task : PutTask) (st : State) {struct task}
    : State * PutTask :=
  match task with
  | Fulfilled | Rejected => (st, task)
  | AwaitLocal this value updatedAt promises childPromises =>
      match pos with
      | [] =>
          match all_settled st promises childPromises with
          | Some true => put_after_local this value updatedAt st
          | Some false => (st, Rejected)
          | None => (st, task)
          end
      | i :: pos' =>
          let '(st1, childPromises') :=
            (fix at_child (i : nat) (tasks : list PutTask) {struct tasks}
               : State * list PutTask :=
               match tasks, i with
               | [], _ => (st, [])
               | t :: rest, 0 =>
                   let '(st1, t') := resume pos' t st in (st1, t' :: rest)
               | t :: rest, S j =>
                   let '(st1, rest') := at_child j rest in (st1, t :: rest')
               end) i childPromises in
          (st1, AwaitLocal this value updatedAt promises childPromises')
      end
  | AwaitParent this value updatedAt parentPut =>
      match pos with
      | [] =>
          match parentPut with
          | Fulfilled => put_after_parent this value updatedAt st
          | Rejected => (st, Rejected)
          | _ => (st, task)
          end
      | _ :: pos' =>
          let '(st1, parentPut') := resume pos' parentPut st in
          (st1, AwaitParent this value updatedAt parentPut')
      end
  end.

(** ** The engine and its environment, step by step *)

Record Config := mkConfig {
  state : State;
  puts : list PutTask      (* the calls of [put] made from outside *)
}.

Inductive Input :=
| CallGet (this : Node) (key : string)
| CallPut (this : Node) (value : JsonValue) (updatedAt : Timestamp)
    (expiresAt : option Timestamp)
| CallOn (this : Node) (k : nat) (throws : bool) (returnIfUndefined : bool)
    (recursion : nat) (typeGuard : TypeGuard)
| CallOnce (this : Node) (callback : option (nat * bool)) (returnIfUndefined : bool)
    (recursion : nat) (typeGuard : TypeGuard)
| CallMap (this : Node) (k : nat) (throws : bool) (recursion : nat) (typeGuard : TypeGuard)
| CallOpen (this : Node) (k : nat) (throws : bool) (recursion : nat) (typeGuard : TypeGuard)
| CallUnsubscribe (u : Unsubscribe)
| Notify (l : nat) (value : JsonValue) (path : string) (updatedAt : option Timestamp)
                             (* an adapter calls the callback of listener [l] *)
| Settle (p : nat) (ok : bool)
                             (* an adapter settles the promise of a [set] *)
| Resume (i : nat) (pos : list nat).
                             (* the scheduler runs a continuation of the
                                [i]-th call of [put] *)

Definition step (inp : Input) (c : Config) : Config :=
  match inp with
  | CallGet this key => mkConfig (get this key (state c)).1 (puts c)
  | CallPut this value updatedAt expiresAt =>
      let '(st, task) := put value this updatedAt expiresAt (state c) in
      mkConfig st (puts c ++ [task])
  | CallOn this k throws returnIfUndefined recursion typeGuard =>
      mkConfig (on this (UserCallback k throws) returnIfUndefined recursion typeGuard (state c)).1
               (puts c)
  | CallOnce this callback returnIfUndefined recursion typeGuard =>
      mkConfig (once this ((λ kt, UserCallback kt.1 kt.2) <$> callback) returnIfUndefined
                  recursion typeGuard (state c)).1
               (puts c)
  | CallMap this k throws recursion typeGuard =>
      mkConfig (map this (UserCallback k throws) recursion typeGuard (state c)).1 (puts c)
  | CallOpen this k throws recursion typeGuard =>
      mkConfig (open this (UserCallback k throws) recursion typeGuard (state c)).1 (puts c)
  | CallUnsubscribe u => mkConfig (run_unsubscribe u (state c)) (puts c)
  | Notify l value path updatedAt =>
      match listeners (state c) !! l with
      | Some lst =>
          mkConfig (invoke (l_callback lst) value path updatedAt (UnAdapter l) (state c)).1
                   (puts c)
      | None => c
      end
  | Settle p ok =>
      match settled (state c) !! p with
      | Some _ => c
      | None => mkConfig (set_settled (λ m, <[p := ok]> m) (state c)) (puts c)
      end
  | Resume i pos =>
      match puts c !! i with
      | Some task =>
          let '(st, task') := resume pos task (state c) in
          mkConfig st (<[i := task']> (puts c))
      | None => c
      end
  end.

Definition run (inputs : list Input) (c : Config) : Config :=
  foldl (λ c inp, step inp c) c inputs.

(** A tree root created by [new Node({ adapters })], in an otherwise empty
    world. *)
Definition root (adapters : list nat) : Node := mkNode 0 "" adapters None.

Definition initial_state : State :=
  mkState {[ 0 := empty_cell ]} 1 ∅ ∅ ∅ ∅ 0 ∅ 0 ∅ 0 [].

Definition initial : Config := mkConfig initial_state [].


(** ** The steps of [localCallback] *)

(** The state after the assignment to [latestValue]. *)
Definition record_latest (e : nat) (value : JsonValue) (updatedAt : option Timestamp)
    (st : State) : State :=
  match updatedAt with
  | Some u => if negb (is_undefined value) then set_latestValue e (Some (value, u)) st else st
  | None => st
  end.

(** The state after the conditional call of [this.open]. *)
Definition open_once (e : nat) (this : Node) (callback : Callback) (recursion : nat)
    (typeGuard : TypeGuard) (value : JsonValue) (st : State) : State :=
  if isDirectory value && (0 <? recursion)
     && negb (bool_decide (is_Some (openUnsubscribe (on_env e st))))
  then let '(st1, h) := open_handle this callback (recursion - 1) typeGuard st in
       set_openUnsubscribe e (Some h) st1
  else st.

(** The first test of [localCallback]: the notification is dropped. *)
Definition dropped (latest : option (JsonValue * Timestamp)) (returnIfUndefined : bool)
    (value : JsonValue) (updatedAt : option Timestamp) : bool :=
  olderThanLatest latest updatedAt || (negb returnIfUndefined && is_undefined value).

(** Descending to the [i]-th child of a task. *)
Definition resume_child (resume_at : PutTask → State → State * PutTask)
    (i : nat) (tasks : list PutTask) (st : State) : State * list PutTask :=
  match tasks !! i with
  | Some t => let '(st1, t') := resume_at t st in (st1, <[i := t']> tasks)
  | None => (st, tasks)
  end.

(** The inputs other than calls of [put], and the user callbacks they bring. *)
Definition input_callbacks (inp : Input) : list nat :=
  match inp with
  | CallOn _ k _ _ _ _ | CallMap _ k _ _ _ | CallOpen _ k _ _ _ => [k]
  | CallOnce _ (Some (k, _)) _ _ _ => [k]
  | _ => []
  end.

(** ** Last write wins *)

(** The environments of [on] are untouched, and no environment is given up. *)
Definition on_frame (st st' : State) : Prop :=
  on_envs st' = on_envs st ∧ next_env st ≤ next_env st'.

(** The [on] call of environment [e] has recorded a latest value, with a
    timestamp of [t] or later. *)
Definition latest_at_least (e : nat) (t : Timestamp) (st : State) : Prop :=
  e < next_env st
  ∧ ∃ lv t', latestValue (on_env e st) = Some (lv, t') ∧ (t ≤ t')%Z.

(** The log is untouched. *)
Definition same_log (st st' : State) : Prop := log st' = log st.

(** ** Propagation to the ancestors *)

(** The log only grows, and promises are not reused. *)
Definition log_extends (st st' : State) : Prop :=
  log st `prefix_of` log st' ∧ next_promise st ≤ next_promise st'.

(** The parent, the parent's parent, and so on up to the root. *)
Fixpoint ancestors (n : Node) : list Node :=
  match n with
  | mkNode _ _ _ (Some p) => p :: ancestors p
  | mkNode _ _ _ None => []
  end.

(** Every adapter of [q] has been handed the directory marker for the path
    of [q] with timestamp [t], by a [set] whose promise is [N] or later. *)
Definition marked (N : nat) (L : list Event) (q : Node) (t : Timestamp) : Prop :=
  ∀ a, a ∈ adapters q →
    ∃ pr, N ≤ pr ∧ AdapterSet a (id q) DIRECTORY_VALUE t None pr ∈ L.

(** How far a call of [put] on [this] with timestamp [t] has gone up: while
    it awaits its parent's [put] the parent is marked, and once it is
    fulfilled all its ancestors are. *)
Fixpoint tracks (N : nat) (L : list Event) (task : PutTask) (this : Node) (t : Timestamp)
    : Prop :=
  match task with
  | Rejected => True
  | Fulfilled => Forall (λ q, marked N L q t) (ancestors this)
  | AwaitLocal n _ t' _ _ => n = this ∧ t' = t
  | AwaitParent n _ t' parentPut =>
      n = this ∧ t' = t
      ∧ ∃ p, parent this = Some p ∧ marked N L p t ∧ tracks N L parentPut p t
  end.

(** Modelled from the spec: the adapters are not part of the sources; by
    section 4.2, [set(path, versionedValue)] records the value at [path].
    [stored] is the entry of adapter [a] for [path] when each [set] replaces
    the entry; [newest] is the entry when the adapter keeps, of the values it
    was handed, the one with the highest [updatedAt]. *)
Fixpoint stored (evs : list Event) (a : nat) (path : string)
    : option (JsonValue * Timestamp) :=
  match evs with
  | [] => None
  | ev :: rest =>
      match stored rest a path with
      | Some entry => Some entry
      | None =>
          match ev with
          | AdapterSet a' p v t _ _ =>
              if bool_decide (a' = a ∧ p = path) then Some (v, t) else None
          | _ => None
          end
      end
  end.

Fixpoint newest (evs : list Event) (a : nat) (path : string)
    (entry : option (JsonValue * Timestamp)) : option (JsonValue * Timestamp) :=
  match evs with
  | [] => entry
  | AdapterSet a' p v t _ _ :: rest =>
      if bool_decide (a' = a ∧ p = path)
      then match entry with
           | Some (_, t0) => if (t0 <? t)%Z then newest rest a path (Some (v, t))
                             else newest rest a path entry
           | None => newest rest a path (Some (v, t))
           end
      else newest rest a path entry
  | _ :: rest => newest rest a path entry
  end.

(** ** Leaf writes *)

(** The callbacks a caller can hand to [on], directly or through [once]. *)
Definition plain_callback (cb : Callback) : Prop :=
  match cb with
  | UserCallback _ _ => True
  | OnceCallback _ None => True
  | OnceCallback _ (Some (UserCallback _ _)) => True
  | _ => False
  end.

(** The closures [on] enters in [on_subscriptions]. *)
Definition on_created (cb : Callback) : Prop :=
  match cb with
  | OnLocalCallback _ _ callback _ _ _ => plain_callback callback
  | _ => False
  end.

(** The child caches and the tables of [on] are untouched. *)
Definition children_frame (st st' : State) : Prop :=
  ∀ n, children (cell n st') = children (cell n st)
       ∧ on_subscriptions (cell n st') = on_subscriptions (cell n st).

(** An event that is not a [set], or is a [set] for [path]. *)
Definition at_path (path : string) (ev : Event) : Prop :=
  match ev with
  | AdapterSet _ p _ _ _ _ => p = path
  | _ => True
  end.

(** The log has grown by events that are no [set] for another path. *)
Definition writes_at (path : string) (st st' : State) : Prop :=
  ∃ l, log st' = log st ++ l ∧ Forall (at_path path) l.

(** ** Tearing a subscription down *)

(** Where the engine keeps a closure it may call later: an entry of
    [on_subscriptions] or of [map_subscriptions] of the object at an address,
    or a listener of an adapter. *)
Inductive Place :=
| OnSub (a sid : nat)
| MapSub (a sid : nat)
| Lis (l : nat).

#[global] Instance Place_eq_dec : EqDecision Place.
Proof. solve_decision. Defined.

Definition registered (st : State) (pl : Place) : option Callback :=
  match pl with
  | OnSub a sid => c ← heap st !! a; callback <$> table_get sid (on_subscriptions c)
  | MapSub a sid => c ← heap st !! a; callback <$> table_get sid (map_subscriptions c)
  | Lis l => l_callback <$> listeners st !! l
  end.

(** The closure calls, or wraps a closure that calls, the user's function [k]. *)
Fixpoint mentions (k : nat) (cb : Callback) : bool :=
  match cb with
  | UserCallback k' _ => bool_decide (k' = k)
  | OnLocalCallback _ _ c _ _ _ | OpenCallback _ _ c _ | MapTypedCallback c _
  | MapListCallback _ _ _ c _ _ => mentions k c
  | OnceCallback _ (Some c) => mentions k c
  | OnceCallback _ None => false
  end.

(** The environments a closure, and the closures it wraps, refer to. *)
Fixpoint envs (cb : Callback) : list nat :=
  match cb with
  | UserCallback _ _ => []
  | OnLocalCallback e _ c _ _ _ | OpenCallback e _ c _ | MapListCallback e _ _ c _ _ =>
      e :: envs c
  | MapTypedCallback c _ => envs c
  | OnceCallback e (Some c) => e :: envs c
  | OnceCallback e None => [e]
  end.

(** The callback a nested [open] hands down: the user's function [k] under
    the arrow functions of [open]. *)
Fixpoint inner (k : nat) (cb : Callback) : Prop :=
  match cb with
  | UserCallback k' _ => k' = k
  | OpenCallback _ _ c _ => inner k c
  | _ => False
  end.

(** The [map] subscriptions that [unsubscribe] of [map] reaches from [h]
    through [openUnsubs], each with its recursion budget. *)
Fixpoint nested (recursion : nat) (h : MapHandle) (st : State) : list (nat * MapHandle) :=
  (recursion, h) ::
  match recursion with
  | 0 => []
  | S r => openUnsubs (map_env (mh_env h) st) ≫= λ entry, nested r entry.2 st
  end.

(** The [map] subscriptions an unsubscribe function reaches. *)
Definition tree_of (u : Unsubscribe) (st : State) : list (nat * MapHandle) :=
  match u with
  | UnOn _ _ e recursion =>
      match openUnsubscribe (on_env e st) with
      | Some h => nested (recursion - 1) h st
      | None => []
      end
  | UnMap recursion h => nested recursion h st
  | _ => []
  end.

(** The environments it reads on the way. *)
Definition tree_envs (u : Unsubscribe) (st : State) : list nat :=
  match u with UnOn _ _ e _ => [e] | _ => [] end ++ ((λ rh, mh_env rh.2) <$> tree_of u st).

(** A closure that has nothing to do with the subscription of [k]: it does
    not lead to [k], and its environments are allocated and are none of
    [T]. *)
Definition foreign (k : nat) (T : list nat) (N : nat) (cb : Callback) : Prop :=
  mentions k cb = false ∧ ∀ e, e ∈ envs cb → e < N ∧ e ∉ T.

(** A closure of the subscription of [k] with unsubscribe function [u], at a
    place that [u] clears. *)
Definition covered (k : nat) (u : Unsubscribe) (st : State) (pl : Place) (cb : Callback)
    : Prop :=
  (∃ this uid e r throws riu tg,
     u = UnOn this uid e r
     ∧ cb = OnLocalCallback e this (UserCallback k throws) riu r tg
     ∧ (pl = OnSub (addr this) uid
        ∨ ∃ l, pl = Lis l ∧ l ∈ adapterUnsubscribes (on_env e st)))
  ∨ (∃ r h c tg,
     (r, h) ∈ tree_of u st ∧ inner k c
     ∧ ((pl = MapSub (addr (mh_node h)) (mh_id h) ∧ cb = MapTypedCallback c tg)
        ∨ ∃ l, pl = Lis l ∧ l ∈ adapterSubs (map_env (mh_env h) st)
               ∧ cb = MapListCallback (mh_env h) (mh_node h) (mh_id h) c r tg)).

(** The invariant of a subscription: every closure the engine keeps is
    foreign to it or is one of its own, at a place its unsubscribe function
    clears; and its environments are allocated. *)
Record teardown_inv (k : nat) (u : Unsubscribe) (st : State) : Prop := mk_teardown_inv {
  ti_closures : ∀ pl cb, registered st pl = Some cb →
    foreign k (tree_envs u st) (next_env st) cb ∨ covered k u st pl cb;
  ti_envs : ∀ e, e ∈ tree_envs u st → e < next_env st
}.

(** The calls of the user's function [k] in a log. *)
Definition is_call (k : nat) (ev : Event) : bool :=
  match ev with
  | Call k' _ _ _ _ => bool_decide (k' = k)
  | _ => false
  end.

Definition calls (k : nat) (evs : list Event) : list Event := List.filter (is_call k) evs.

(** A step that leaves the environments [T] alone, registers only closures
    foreign to [k] and [T], and does not call [k]. *)
Definition apart (k : nat) (T : list nat) (st st' : State) : Prop :=
  next_env st ≤ next_env st'
  ∧ (∀ e, e ∈ T → on_env e st' = on_env e st ∧ map_env e st' = map_env e st)
  ∧ (∀ pl cb, registered st' pl = Some cb →
       registered st pl = Some cb ∨ foreign k T (next_env st') cb)
  ∧ calls k (log st') = calls k (log st).

(** The places of a [map] subscription are empty. *)
Definition absent (h : MapHandle) (st : State) : Prop :=
  registered st (MapSub (addr (mh_node h)) (mh_id h)) = None
  ∧ ∀ l, l ∈ adapterSubs (map_env (mh_env h) st) → registered st (Lis l) = None.

(** Everything an unsubscribe function clears is gone. *)
Definition torn (u : Unsubscribe) (st : State) : Prop :=
  match u with
  | UnNoop | UnPut None _ => True
  | UnAdapter l => registered st (Lis l) = None
  | UnPut (Some p) sid => registered st (MapSub (addr p) sid) = None
  | UnOn this uid e _ =>
      registered st (OnSub (addr this) uid) = None
      ∧ (∀ l, l ∈ adapterUnsubscribes (on_env e st) → registered st (Lis l) = None)
      ∧ ∀ rh, rh ∈ tree_of u st → absent rh.2 st
  | UnMap _ _ => ∀ rh, rh ∈ tree_of u st → absent rh.2 st
  end.

(** The subscribing calls, and the unsubscribe function they return. *)
Definition subscribes (inp : Input) (k : nat) : Prop :=
  match inp with
  | CallOn _ k' _ _ _ _ | CallMap _ k' _ _ _ => k' = k
  | _ => False
  end.

Definition returned (inp : Input) (st : State) : Unsubscribe :=
  match inp with
  | CallOn this k throws returnIfUndefined recursion typeGuard =>
      (on this (UserCallback k throws) returnIfUndefined recursion typeGuard st).2
  | CallMap this k throws recursion typeGuard =>
      (map this (UserCallback k throws) recursion typeGuard st).2
  | _ => UnNoop
  end.

(** A step that registers nothing: what is kept afterwards was kept before,
    the environments are as they were, and no user function is called. *)
Definition quiet (st st' : State) : Prop :=
  on_envs st' = on_envs st ∧ map_envs st' = map_envs st ∧ next_env st' = next_env st
  ∧ (∀ k, calls k (log st') = calls k (log st))
  ∧ ∀ pl cb, registered st' pl = Some cb → registered st pl = Some cb.

(** A step in which the engine keeps the same closures and environments. *)
Definition still (st st' : State) : Prop :=
  heap st' = heap st ∧ listeners st' = listeners st ∧ on_envs st' = on_envs st
  ∧ map_envs st' = map_envs st ∧ next_env st' = next_env st.

(** The invariant of a subscription, and, once nothing is left of it, the
    calls of [k] made so far. *)
Definition subscription_inv (k : nat) (u : Unsubscribe) (L : list Event) (st : State) : Prop :=
  teardown_inv k u st ∧ (u = UnNoop → calls k (log st) = L).

(** ** Well-formed stores *)

(** The object behind a handle has been allocated. *)
Definition live (n : Node) (st : State) : Prop := is_Some (heap st !! addr n).

(** Addresses in use lie below the allocation pointer, and the handles held
    in child caches are allocated. *)
Record heap_wf (st : State) : Prop := mk_heap_wf {
  wf_bound : ∀ a c, heap st !! a = Some c → a < next_addr st;
  wf_children : ∀ a c seg n,
    heap st !! a = Some c → children c !! seg = Some n → live n st
}.

(** Following the child caches from [this] along [segs] leads to [n]. *)
Fixpoint resolves (st : State) (this : Node) (segs : list string) (n : Node) : Prop :=
  match segs with
  | [] => n = this
  | seg :: rest =>
      ∃ c, children (cell this st) !! seg = Some c ∧ resolves st c rest n
  end.

(** Every cached handle and every allocated object of [st] is still there in
    [st1]. *)
Definition cache_le (st st1 : State) : Prop :=
  (∀ x seg n, children (cell x st) !! seg = Some n → children (cell x st1) !! seg = Some n)
  ∧ (∀ x, live x st → live x st1).

(** A step that keeps the store well formed and the child caches filled. *)
Definition cache_frame (st st' : State) : Prop :=
  heap_wf st → heap_wf st' ∧ cache_le st st'.


(** ** What [get] leaves alone *)

(** Nothing but the store of objects has changed: the log, the listeners,
    the promises and the environments are as they were, and so are the
    subscription tables and the counter of every object. *)
Definition cache_only (st st' : State) : Prop :=
  log st' = log st ∧ listeners st' = listeners st ∧ next_listener st' = next_listener st
  ∧ settled st' = settled st ∧ next_promise st' = next_promise st
  ∧ on_envs st' = on_envs st ∧ map_envs st' = map_envs st ∧ open_envs st' = open_envs st
  ∧ once_envs st' = once_envs st ∧ next_env st' = next_env st
  ∧ ∀ x, on_subscriptions (cell x st') = on_subscriptions (cell x st)
         ∧ map_subscriptions (cell x st') = map_subscriptions (cell x st)
         ∧ counter (cell x st') = counter (cell x st).

(** ** What a write hands to the adapters *)

(** The [set] calls of one round over the adapters, in the order of the
    adapters, each with the promise it returns. *)
Definition set_events (path : string) (value : JsonValue) (updatedAt : Timestamp)
    (expiresAt : option Timestamp) (ads : list nat) (p : nat) : list Event :=
  zip_with (λ a i, AdapterSet a path value updatedAt expiresAt i) ads (seq p (length ads)).

(** Nothing but the log and the promise counter has changed. *)
Definition log_only (st st' : State) : Prop :=
  heap st' = heap st ∧ next_addr st' = next_addr st
  ∧ listeners st' = listeners st ∧ next_listener st' = next_listener st
  ∧ settled st' = settled st
  ∧ on_envs st' = on_envs st ∧ map_envs st' = map_envs st ∧ open_envs st' = open_envs st
  ∧ once_envs st' = once_envs st ∧ next_env st' = next_env st.

(** ** Identifiers and environments over time *)

(** [sid] is the key of an entry of [on_subscriptions] or of
    [map_subscriptions]. *)
Definition is_key (sid : nat) (c : NodeCell) : Prop :=
  is_Some (table_get sid (on_subscriptions c)) ∨ is_Some (table_get sid (map_subscriptions c)).

(** The keys of the subscription tables of an object lie below its counter,
    and the listeners in use below the next listener. *)
Definition ids_fresh (st : State) : Prop :=
  (∀ a c sid, heap st !! a = Some c → is_key sid c → sid < counter c)
  ∧ ∀ l, is_Some (listeners st !! l) → l < next_listener st.

(** A step that keeps the identifiers in order. *)
Definition ids_kept (st st' : State) : Prop := ids_fresh st → ids_fresh st'.

(** What the closures of [map] and [open] have recorded is not taken back:
    the timestamp [latestMap] holds for a path does not decrease, a child
    name stays in [openUnsubs], and a child name stays in [aggregated]. *)
Definition env_grows (st st' : State) : Prop :=
  next_env st ≤ next_env st'
  ∧ ∀ e, e < next_env st →
      (∀ path v (t : Timestamp), latestMap (map_env e st) !! path = Some (v, t) →
         ∃ v' (t' : Timestamp), latestMap (map_env e st') !! path = Some (v', t') ∧ (t ≤ t')%Z)
      ∧ (∀ name, is_Some (property_get name (openUnsubs (map_env e st))) →
           is_Some (property_get name (openUnsubs (map_env e st'))))
      ∧ (∀ name, is_Some (property_get name (aggregated (open_env e st))) →
           is_Some (property_get name (aggregated (open_env e st')))).

(** * Induction over values and tasks *)

Section NestedInduction.

Variable P : JsonValue → Prop.
Hypothesis P_undefined : P JUndefined.
Hypothesis P_null : P JNull.
Hypothesis P_bool : ∀ b, P (JBool b).
Hypothesis P_number : ∀ n, P (JNumber n).
Hypothesis P_string : ∀ s, P (JString s).
Hypothesis P_array : ∀ items, Forall P items → P (JArray items).
Hypothesis P_object : ∀ fields, Forall (λ kv, P kv.2) fields → P (JObject fields).

Fixpoint JsonValue_nested_ind (v : JsonValue) : P v :=
  match v with
  | JUndefined => P_undefined
  | JNull => P_null
  | JBool b => P_bool b
  | JNumber n => P_number n
  | JString s => P_string s
  | JArray items =>
      P_array items
        ((fix go (l : list JsonValue) : Forall P l :=
            match l with
            | [] => Forall_nil_2 P
            | x :: rest => Forall_cons_2 P x rest (JsonValue_nested_ind x) (go rest)
            end) items)
  | JObject fields =>
      P_object fields
        ((fix go (l : list (string * JsonValue)) : Forall (λ kv, P kv.2) l :=
            match l with
            | [] => Forall_nil_2 _
            | kv :: rest =>
                Forall_cons_2 (λ kv, P kv.2) kv rest (JsonValue_nested_ind kv.2) (go rest)
            end) fields)
  end.

End NestedInduction.

Section TaskInduction.

Variable P : PutTask → Prop.
Hypothesis P_fulfilled : P Fulfilled.
Hypothesis P_rejected : P Rejected.
Hypothesis P_local : ∀ this value updatedAt promises childPromises,
  Forall P childPromises → P (AwaitLocal this value updatedAt promises childPromises).
Hypothesis P_parent : ∀ this value updatedAt parentPut,
  P parentPut → P (AwaitParent this value updatedAt parentPut).

Fixpoint PutTask_nested_ind (t : PutTask) : P t :=
  match t with
  | Fulfilled => P_fulfilled
  | Rejected => P_rejected
  | AwaitLocal this value updatedAt promises childPromises =>
      P_local this value updatedAt promises childPromises
        ((fix go (l : list PutTask) : Forall P l :=
            match l with
            | [] => Forall_nil_2 P
            | x :: rest => Forall_cons_2 P x rest (PutTask_nested_ind x) (go rest)
            end) childPromises)
  | AwaitParent this value updatedAt parentPut =>
      P_parent this value updatedAt parentPut (PutTask_nested_ind parentPut)
  end.

End TaskInduction.

Section CallbackInduction.

Variable P : Callback → Prop.
Hypothesis P_user : ∀ k throws, P (UserCallback k throws).
Hypothesis P_on : ∀ e this callback returnIfUndefined recursion typeGuard,
  P callback → P (OnLocalCallback e this callback returnIfUndefined recursion typeGuard).
Hypothesis P_open : ∀ e this callback typeGuard,
  P callback → P (OpenCallback e this callback typeGuard).
Hypothesis P_typed : ∀ callback typeGuard,
  P callback → P (MapTypedCallback callback typeGuard).
Hypothesis P_list : ∀ e this sid callback recursion typeGuard,
  P callback → P (MapListCallback e this sid callback recursion typeGuard).
Hypothesis P_once_some : ∀ e callback, P callback → P (OnceCallback e (Some callback)).
Hypothesis P_once_none : ∀ e, P (OnceCallback e None).

Fixpoint Callback_nested_ind (cb : Callback) : P cb :=
  match cb with
  | UserCallback k throws => P_user k throws
  | OnLocalCallback e this callback returnIfUndefined recursion typeGuard =>
      P_on e this callback returnIfUndefined recursion typeGuard
        (Callback_nested_ind callback)
  | OpenCallback e this callback typeGuard =>
      P_open e this callback typeGuard (Callback_nested_ind callback)
  | MapTypedCallback callback typeGuard =>
      P_typed callback typeGuard (Callback_nested_ind callback)
  | MapListCallback e this sid callback recursion typeGuard =>
      P_list e this sid callback recursion typeGuard (Callback_nested_ind callback)
  | OnceCallback e (Some callback) => P_once_some e callback (Callback_nested_ind callback)
  | OnceCallback e None => P_once_none e
  end.

End CallbackInduction.

(** * The equations of [put] and [resume] *)

Section PutEquations.

(** [putValue], step by step: the child cache is cleared first, then the
    value is handed to the adapters, then the subscribers are notified. *)
Lemma putValue_unfold this value updatedAt expiresAt st :
  putValue this value updatedAt expiresAt st =
  let st0 := if negb (isDirectory value)
             then set_cell this (with_children (λ _, ∅)) st else st in
  let '(st1, promises) :=
    map_s (adapter_set (id this) value updatedAt expiresAt) (adapters this) st0 in
  match notifyChange this value (Some updatedAt) st1 with
  | (st2, Normal _) => (st2, Normal promises)
  | (st2, Thrown) => (st2, Thrown)
  end.
Proof.
  unfold putValue, bind, lift, modify, ret. cbv zeta.
  destruct (negb (isDirectory value));
    destruct (map_s _ (adapters this) _) as [st1 promises];
    by destruct (notifyChange this value (Some updatedAt) st1) as [st2 [[]|]].
Qed.

(** [put], as the source has it: [putChildValues] for a non-empty plain
    object, [putValue] otherwise. *)
Lemma put_unfold value this updatedAt expiresAt st :
  put value this updatedAt expiresAt st =
  if isNonEmptyObject value then
    let '(st1, (promises, childPromises)) :=
      putChildValues this (match value with JObject fields => fields | _ => [] end)
        updatedAt expiresAt st in
    (st1, AwaitLocal this value updatedAt promises childPromises)
  else
    match putValue this value updatedAt expiresAt st with
    | (st1, Normal promises) => (st1, AwaitLocal this value updatedAt promises [])
    | (st1, Thrown) => (st1, Rejected)
    end.
Proof.
  destruct value; try reflexivity.
  cbn [put]. destruct (isNonEmptyObject (JObject fields)); [|done].
  unfold putChildValues.
  destruct (map_s _ (adapters this) st) as [st1 promises].
  assert (Hchildren : ∀ fs s,
    (fix children_put (fields0 : list (string * JsonValue)) (st0 : State) {struct fields0}
       : State * list PutTask :=
       match fields0 with
       | [] => (st0, [])
       | (key, v) :: rest =>
           let '(sta, child) := get this key st0 in
           let '(stb, task) := put v child updatedAt None sta in
           let '(stc, tasks) := children_put rest stb in (stc, task :: tasks)
       end) fs s = put_children this fs updatedAt s).
  { induction fs as [|[key v] fs IH]; intros s; [done|].
    cbn [put_children]. destruct (get this key s) as [sta child].
    destruct (put v child updatedAt None sta) as [stb task]. by rewrite IH. }
  rewrite Hchildren. by destruct (put_children this fields updatedAt st1).
Qed.

Lemma resume_unfold pos task st :
  resume pos task st =
  match task with
  | Fulfilled | Rejected => (st, task)
  | AwaitLocal this value updatedAt promises childPromises =>
      match pos with
      | [] =>
          match all_settled st promises childPromises with
          | Some true => put_after_local this value updatedAt st
          | Some false => (st, Rejected)
          | None => (st, task)
          end
      | i :: pos' =>
          let '(st1, childPromises') := resume_child (resume pos') i childPromises st in
          (st1, AwaitLocal this value updatedAt promises childPromises')
      end
  | AwaitParent this value updatedAt parentPut =>
      match pos with
      | [] =>
          match parentPut with
          | Fulfilled => put_after_parent this value updatedAt st
          | Rejected => (st, Rejected)
          | _ => (st, task)
          end
      | _ :: pos' =>
          let '(st1, parentPut') := resume pos' parentPut st in
          (st1, AwaitParent this value updatedAt parentPut')
      end
  end.
Proof.
  destruct task as [| |this value updatedAt promises childPromises|]; try reflexivity.
  destruct pos as [|i pos']; [reflexivity|]. cbn [resume].
    assert (Hchild : ∀ tasks j,
      (fix at_child (i0 : nat) (tasks0 : list PutTask) {struct tasks0}
         : State * list PutTask :=
         match tasks0 with
         | [] => (st, [])
         | t :: rest =>
             match i0 with
             | 0 => let '(st1, t') := resume pos' t st in (st1, t' :: rest)
             | S j => let '(st1, rest') := at_child j rest in (st1, t :: rest')
             end
         end) j tasks = resume_child (resume pos') j tasks st).
    { induction tasks as [|t rest IH]; intros j; [by destruct j|].
      destruct j as [|j]; unfold resume_child; simpl.
      - by destruct (resume pos' t st).
      - rewrite IH. unfold resume_child. destruct (rest !! j); [|done].
        by destruct (resume pos' p st). }
    by rewrite Hchild.
Qed.

End PutEquations.

(** * Path resolution and the handle cache *)

Section PathFacts.

Lemma split_nonempty s : Path.split s ≠ [].
Proof.
  destruct s as [|c s]; simpl; [done|].
  destruct (Ascii.eqb c Path.slash); [done|].
  by destruct (Path.split s).
Qed.

(** Splitting [k1/k2] splits both parts. *)
Lemma split_app k1 k2 :
  Path.split (k1 +:+ String Path.slash k2) = Path.split k1 ++ Path.split k2.
Proof.
  induction k1 as [|c k1 IH]; simpl.
  - done.
  - destruct (Ascii.eqb c Path.slash); [by rewrite IH|].
    rewrite IH. pose proof (split_nonempty k1) as Hne.
    by destruct (Path.split k1).
Qed.

Lemma get_segments_cons this seg rest st :
  get_segments this (seg :: rest) st =
  let '(st1, node) := get_child this seg st in get_segments node rest st1.
Proof. simpl. destruct (get_child this seg st) as [st1 node]. by destruct rest. Qed.


(** The body of [get], as the source has it: resolve the first segment,
    then call [get] on the node with the remaining segments joined. *)
Lemma split_join segs :
  segs ≠ [] → Forall (λ s, Path.has_slash s = false) segs →
  Path.split (Path.join segs) = segs.
Proof.
  assert (Hseg : ∀ s, Path.has_slash s = false → Path.split s = [s]).
  { induction s as [|c s IH]; simpl; [done|].
    intros [Hc Hs]%orb_false_elim. rewrite Hc, (IH Hs). done. }
  induction segs as [|s segs IH]; [done|]. intros _ Hall.
  apply Forall_cons in Hall as [Hs Hall].
  destruct segs as [|s' segs]; [by apply Hseg|].
  change (Path.join (s :: s' :: segs)) with (s +:+ String Path.slash (Path.join (s' :: segs))).
  rewrite split_app, (Hseg s Hs), IH; done.
Qed.

Lemma split_no_slash s : Forall (λ seg, Path.has_slash seg = false) (Path.split s).
Proof.
  induction s as [|c s IH]; simpl; [by repeat constructor|].
  destruct (Ascii.eqb c Path.slash) eqn:Hc; [by constructor|].
  destruct (Path.split s) as [|seg segs]; [by repeat constructor; simpl; rewrite Hc|].
  apply Forall_cons in IH as [Hs Hall]. constructor; [|done]. simpl. by rewrite Hc, Hs.
Qed.

Lemma get_unfold this key st :
  get this key st =
  let splitKey := Path.split key in
  let '(st1, node) := get_child this (hd EmptyString splitKey) st in
  if decide (1 < length splitKey)
  then get node (Path.join (Path.slice1 splitKey)) st1
  else (st1, node).
Proof.
  unfold get. pose proof (split_nonempty key) as Hne. pose proof (split_no_slash key) as Hall.
  destruct (Path.split key) as [|seg rest]; [done|]. cbn [hd Path.slice1 tail].
  simpl. destruct (get_child this seg st) as [st1 node].
  destruct rest as [|seg' rest]; [done|].
  apply Forall_cons in Hall as [_ Hall].
  rewrite decide_True by (simpl; lia). by rewrite split_join.
Qed.

End PathFacts.

Section HandleCache.

Lemma cell_lookup n st c : heap st !! addr n = Some c → cell n st = c.
Proof. unfold cell. by intros ->. Qed.

Lemma cache_le_refl st : cache_le st st.
Proof. by split. Qed.

Lemma cache_le_trans st1 st2 st3 : cache_le st1 st2 → cache_le st2 st3 → cache_le st1 st3.
Proof. intros [H1 L1] [H2 L2]. split; eauto. Qed.

Lemma get_child_hit this seg st c :
  children (cell this st) !! seg = Some c → get_child this seg st = (st, c).
Proof. unfold get_child. by intros ->. Qed.

(** One round of [get] leaves the handle in the cache of [this], and keeps
    what was cached before. *)
Lemma get_child_cached this seg st st1 c :
  heap_wf st → live this st → get_child this seg st = (st1, c) →
  children (cell this st1) !! seg = Some c
  ∧ heap_wf st1 ∧ live c st1 ∧ cache_le st st1.
Proof.
  intros Hwf [c0 Hc0] Hget. unfold get_child in Hget.
  destruct (children (cell this st) !! seg) as [node|] eqn:Hlook.
  - injection Hget as <- <-. split; [done|]. split; [done|].
    split; [|apply cache_le_refl].
    rewrite (cell_lookup _ _ _ Hc0) in Hlook. by eapply wf_children.
  - simpl in Hget. injection Hget as <- <-.
    pose proof (wf_bound _ Hwf _ _ Hc0) as Hlt.
    set (node := mkNode (next_addr st) (Path.child_id (id this) seg) (adapters this) (Some this)).
    assert (Hheap : ∀ a, heap (set_cell this (with_children (λ m, <[seg := node]> m))
               (set_next_addr (S (next_addr st))
                 (set_heap (λ h, <[addr node := empty_cell]> h) st))) !! a
            = if decide (a = addr this)
              then Some (with_children (λ m, <[seg := node]> m) c0)
              else if decide (a = next_addr st) then Some empty_cell else heap st !! a).
    { intros a. simpl. destruct (decide (a = addr this)) as [->|Hne].
      - rewrite lookup_alter_eq, lookup_insert_ne by lia. by rewrite Hc0.
      - rewrite lookup_alter_ne by done.
        destruct (decide (a = next_addr st)) as [->|Hne'].
        + by rewrite lookup_insert_eq.
        + by rewrite lookup_insert_ne. }
    assert (Hlive : ∀ x, live x st → live x (set_cell this (with_children (λ m, <[seg := node]> m))
               (set_next_addr (S (next_addr st))
                 (set_heap (λ h, <[addr node := empty_cell]> h) st)))).
    { intros x [cx Hx]. unfold live. rewrite Hheap.
      destruct (decide (addr x = addr this)); [done|].
      destruct (decide (addr x = next_addr st)); [done|]. by rewrite Hx. }
    assert (Hnode : live node (set_cell this (with_children (λ m, <[seg := node]> m))
               (set_next_addr (S (next_addr st))
                 (set_heap (λ h, <[addr node := empty_cell]> h) st)))).
    { unfold live. rewrite Hheap. simpl.
      destruct (decide (next_addr st = addr this)); [done|].
      by rewrite decide_True. }
    split; [|split; [|split; [done|]]].
    + unfold cell. rewrite Hheap, decide_True by done. simpl. apply lookup_insert_eq.
    + split.
      * intros a c. rewrite Hheap. simpl.
        destruct (decide (a = addr this)) as [->|]; [intros _; lia|].
        destruct (decide (a = next_addr st)) as [->|]; [intros _; lia|].
        intros Ha. pose proof (wf_bound _ Hwf _ _ Ha). lia.
      * intros a c s n. rewrite Hheap.
        destruct (decide (a = addr this)) as [->|].
        { intros [= <-]. simpl. destruct (decide (s = seg)) as [->|Hs].
          - rewrite lookup_insert_eq. by intros [= <-].
          - rewrite lookup_insert_ne by done. intros Hn. apply Hlive.
            by eapply wf_children. }
        destruct (decide (a = next_addr st)) as [->|].
        { intros [= <-]. simpl. by rewrite lookup_empty. }
        intros Ha Hn. apply Hlive. by eapply wf_children.
    + split; [|done]. intros x s n Hx.
      assert (is_Some (heap st !! addr x)) as [cx Hcx].
      { unfold cell in Hx. destruct (heap st !! addr x); [done|].
        simpl in Hx. by rewrite lookup_empty in Hx. }
      rewrite (cell_lookup _ _ _ Hcx) in Hx.
      pose proof (wf_bound _ Hwf _ _ Hcx) as Hxlt.
      unfold cell. rewrite Hheap.
      destruct (decide (addr x = addr this)) as [Heq|].
      * rewrite Heq in Hcx. assert (cx = c0) as -> by congruence.
        simpl. rewrite lookup_insert_ne; [done|].
        intros ->. rewrite (cell_lookup _ _ _ Hc0) in Hlook. congruence.
      * rewrite decide_False by lia. by rewrite Hcx.
Qed.

Lemma get_segments_cached segs : ∀ this st st1 n,
  heap_wf st → live this st → get_segments this segs st = (st1, n) →
  resolves st1 this segs n ∧ heap_wf st1 ∧ live n st1 ∧ cache_le st st1.
Proof.
  induction segs as [|seg rest IH]; intros this st st1 n Hwf Hlive Hget.
  - injection Hget as <- <-.
    split; [done|split; [done|split; [done|apply cache_le_refl]]].
  - rewrite get_segments_cons in Hget.
    destruct (get_child this seg st) as [sa c] eqn:Hchild.
    destruct (get_child_cached _ _ _ _ _ Hwf Hlive Hchild) as (Hc & Hwfa & Hlc & Hle).
    destruct (IH _ _ _ _ Hwfa Hlc Hget) as (Hres & Hwf1 & Hl1 & Hle1).
    split; [|split; [done|split; [done|by eapply cache_le_trans]]].
    exists c. split; [|done]. by apply Hle1.
Qed.

Lemma get_segments_resolved segs : ∀ this st n,
  resolves st this segs n → get_segments this segs st = (st, n).
Proof.
  induction segs as [|seg rest IH]; intros this st n Hres.
  - simpl in Hres. by subst.
  - destruct Hres as (c & Hc & Hres). rewrite get_segments_cons.
    rewrite (get_child_hit _ _ _ _ Hc). by apply IH.
Qed.

Lemma resolves_mono segs : ∀ this st st1 n,
  cache_le st st1 → resolves st this segs n → resolves st1 this segs n.
Proof.
  induction segs as [|seg rest IH]; intros this st st1 n Hle Hres; [done|].
  destruct Hres as (c & Hc & Hres). exists c. split; [by apply Hle|by eapply IH].
Qed.



Lemma initial_wf : heap_wf initial_state.
Proof.
  split.
  - intros a c Ha. simpl in Ha. apply lookup_singleton_Some in Ha as [<- _]. simpl. lia.
  - intros a c seg m Ha. simpl in Ha. apply lookup_singleton_Some in Ha as [<- <-].
    simpl. by rewrite lookup_empty.
Qed.

Lemma root_live adapters : live (root adapters) initial_state.
Proof. unfold live. simpl. by rewrite lookup_singleton_eq. Qed.


End HandleCache.

(** * The subscription closures *)

Section ClosureEquations.

Lemma invoke_UserCallback k throws value path updatedAt unsubscribe st :
  invoke (UserCallback k throws) value path updatedAt unsubscribe st =
  (emit (Call k value path updatedAt unsubscribe) st,
   if throws then Thrown else Normal tt).
Proof. cbn [invoke]. unfold bind, modify. by destruct throws. Qed.

Lemma invoke_MapTypedCallback callback typeGuard value path updatedAt unsubscribe st :
  invoke (MapTypedCallback callback typeGuard) value path updatedAt unsubscribe st =
  invoke callback (typeGuard value) path updatedAt unsubscribe st.
Proof. reflexivity. Qed.

(** [cb] of [map], called by the function [map] hands to [adapter.list]. *)
Lemma invoke_MapListCallback e this sid callback recursion typeGuard
    value path updatedAt unsubscribe st :
  invoke (MapListCallback e this sid callback recursion typeGuard)
    value path updatedAt unsubscribe st =
  let value' := typeGuard value in
  if olderThanLatest (latestMap (map_env e st) !! path) updatedAt then (st, Normal tt)
  else
    let st1 := match updatedAt with
               | Some u => set_latestMap e path (value', u) st
               | None => st
               end in
    let childName := Path.pop (Path.split path) in
    if (0 <? recursion) && truthy value' && isDirectory value'
    then
      match property_get childName (openUnsubs (map_env e st1)) with
      | Some _ => (st1, Normal tt)
      | None =>
          let '(st2, child) := get this childName st1 in
          let '(st3, h) := open_handle child callback (recursion - 1) (λ value, value) st2 in
          (set_openUnsubs e childName h st3, Normal tt)
      end
    else invoke callback value' path updatedAt (UnMap recursion (mkMapHandle this sid e)) st1.
Proof.
  cbn [invoke]. unfold bind at 1. unfold gets at 1. cbv zeta.
  destruct (olderThanLatest _ _); [done|].
  unfold bind at 1.
  assert (Hrest : ∀ st1 : State,
    (if (0 <? recursion) && truthy (typeGuard value) && isDirectory (typeGuard value)
     then
       known <~ gets (λ st0, property_get (Path.pop (Path.split path))
                               (openUnsubs (map_env e st0))) ;;
       match known with
       | Some _ => ret tt
       | None =>
           child <~ lift (get this (Path.pop (Path.split path))) ;;
           h <~ lift (open_handle child callback (recursion - 1) (λ value0, value0)) ;;
           modify (set_openUnsubs e (Path.pop (Path.split path)) h)
       end
     else invoke callback (typeGuard value) path updatedAt
            (UnMap recursion (mkMapHandle this sid e))) st1
    = (if (0 <? recursion) && truthy (typeGuard value) && isDirectory (typeGuard value)
       then
         match property_get (Path.pop (Path.split path)) (openUnsubs (map_env e st1)) with
         | Some _ => (st1, Normal tt)
         | None =>
             let '(st2, child) := get this (Path.pop (Path.split path)) st1 in
             let '(st3, h) := open_handle child callback (recursion - 1) (λ value0, value0) st2 in
             (set_openUnsubs e (Path.pop (Path.split path)) h st3, Normal tt)
         end
       else invoke callback (typeGuard value) path updatedAt
              (UnMap recursion (mkMapHandle this sid e)) st1)).
  { intros st1. destruct (_ && _ && _); [|done].
    unfold bind, gets, lift, modify, ret.
    destruct (property_get _ _); [done|].
    destruct (get this _ st1) as [st2 child].
    by destruct (open_handle child callback (recursion - 1) _ st2). }
  destruct updatedAt as [u|]; unfold modify, ret; apply Hrest.
Qed.

(** With a budget of 0, [cb] of [map] opens nothing and leaves [openUnsubs]
    as it is: it records the timestamp and calls the callback. *)
Lemma invoke_MapListCallback_leaf e this sid callback typeGuard
    value path updatedAt unsubscribe st :
  invoke (MapListCallback e this sid callback 0 typeGuard)
    value path updatedAt unsubscribe st =
  if olderThanLatest (latestMap (map_env e st) !! path) updatedAt then (st, Normal tt)
  else invoke callback (typeGuard value) path updatedAt (UnMap 0 (mkMapHandle this sid e))
         match updatedAt with
         | Some u => set_latestMap e path (typeGuard value, u) st
         | None => st
         end.
Proof. by rewrite invoke_MapListCallback. Qed.

(** [cb] of [once]. *)
Lemma invoke_OnceCallback e callback value path updatedAt unsubscribe st :
  invoke (OnceCallback e callback) value path updatedAt unsubscribe st =
  if resolved e st then (st, Normal tt)
  else
    let st1 := emit (Resolve e value) (set_once_envs (λ m, <[e := true]> m) st) in
    match callback with
    | Some c =>
        match invoke c value path updatedAt UnNoop st1 with
        | (st2, Normal _) => (run_unsubscribe unsubscribe st2, Normal tt)
        | (st2, Thrown) => (st2, Thrown)
        end
    | None => (run_unsubscribe unsubscribe st1, Normal tt)
    end.
Proof.
  cbn [invoke]. unfold bind at 1. unfold gets at 1.
  destruct (resolved e st); [done|].
  unfold bind, modify, ret. destruct callback as [c|]; [|done].
  by destruct (invoke c value path updatedAt UnNoop _) as [st2 [[]|]].
Qed.

End ClosureEquations.

Section OpenSubscription.

(** What the closure of [open] hands to its callback: the aggregate after the
    child's value is stored under the child's name, and the latest time. *)
Lemma invoke_OpenCallback e this callback typeGuard value path updatedAt unsubscribe st :
  invoke (OpenCallback e this callback typeGuard) value path updatedAt unsubscribe st =
  let env := open_env e st in
  let latestTime' :=
    match updatedAt with
    | Some u => if advances (latestTime env) u then Some u else latestTime env
    | None => latestTime env
    end in
  let aggregated' := property_set (Path.pop (Path.split path)) value (aggregated env) in
  invoke callback (typeGuard (JObject aggregated')) (id this) latestTime' UnNoop
    (set_open_envs (λ m, <[e := mkOpenEnv aggregated' latestTime']> m) st).
Proof. reflexivity. Qed.

(** C10. Whatever unsubscribe function the closure of [open] receives, the
    subscriber's callback is called with [() => {}] as fourth argument, and
    calling that function changes nothing: the [map] subscription, the
    listeners registered with the adapters and the nested subscriptions are
    all as they were. *)
Theorem open_passes_noop_unsubscribe e this k throws typeGuard value path updatedAt unsubscribe st :
  (∃ aggregate latest,
     log (invoke (OpenCallback e this (UserCallback k throws) typeGuard)
            value path updatedAt unsubscribe st).1
     = log st ++ [Call k aggregate (id this) latest UnNoop])
  ∧ ∀ st', run_unsubscribe UnNoop st' = st'.
Proof.
  split; [|done]. rewrite invoke_OpenCallback. cbv zeta.
  eexists _, _. simpl. unfold bind, modify. simpl. by destruct throws.
Qed.

End OpenSubscription.

Section OnSubscription.

(** [localCallback], step by step. *)
Lemma invoke_OnLocalCallback e this callback returnIfUndefined recursion typeGuard
    value path updatedAt unsubscribe st :
  invoke (OnLocalCallback e this callback returnIfUndefined recursion typeGuard)
    value path updatedAt unsubscribe st =
  let latest := latestValue (on_env e st) in
  if dropped latest returnIfUndefined value updatedAt then (st, Normal tt)
  else if negb (bool_decide (is_Some latest)) && returnIfUndefined && is_undefined value
  then invoke callback value path updatedAt unsubscribe st
  else
    let st2 := open_once e this callback recursion typeGuard value
                 (record_latest e value updatedAt st) in
    if negb (isDirectory value) || (recursion =? 0)
    then invoke callback (typeGuard value) path updatedAt unsubscribe st2
    else (st2, Normal tt).
Proof.
  cbn [invoke]. unfold bind at 1. unfold gets at 1. cbv zeta. unfold dropped.
  destruct (olderThanLatest _ _ || _); [done|].
  destruct (negb (bool_decide _) && _ && _); [done|].
  unfold bind at 1. unfold record_latest, open_once.
  assert (Hstep : ∀ st1 : State,
    (opened <~ gets (λ st0, openUnsubscribe (on_env e st0)) ;;
     (if isDirectory value && (0 <? recursion) && negb (bool_decide (is_Some opened))
      then h <~ lift (open_handle this callback (recursion - 1) typeGuard) ;;
           modify (set_openUnsubscribe e (Some h))
      else ret tt) ;;;
     (if negb (isDirectory value) || (recursion =? 0)
      then invoke callback (typeGuard value) path updatedAt unsubscribe
      else ret tt)) st1
    = (if negb (isDirectory value) || (recursion =? 0)
       then invoke callback (typeGuard value) path updatedAt unsubscribe
              (if isDirectory value && (0 <? recursion)
                  && negb (bool_decide (is_Some (openUnsubscribe (on_env e st1))))
               then let '(st2, h) := open_handle this callback (recursion - 1) typeGuard st1 in
                    set_openUnsubscribe e (Some h) st2
               else st1)
       else (if isDirectory value && (0 <? recursion)
                && negb (bool_decide (is_Some (openUnsubscribe (on_env e st1))))
             then let '(st2, h) := open_handle this callback (recursion - 1) typeGuard st1 in
                  set_openUnsubscribe e (Some h) st2
             else st1, Normal tt))).
  { intros st1. unfold bind, gets, lift, modify, ret.
    destruct (isDirectory value && (0 <? recursion)
              && negb (bool_decide (is_Some (openUnsubscribe (on_env e st1))))).
    - destruct (open_handle this callback (recursion - 1) typeGuard st1) as [st2 h].
      by destruct (negb (isDirectory value) || (recursion =? 0)).
    - by destruct (negb (isDirectory value) || (recursion =? 0)). }
  destruct updatedAt as [u|]; [destruct (negb (is_undefined value))|];
    unfold modify, ret; apply Hstep.
Qed.

End OnSubscription.

(** * Invariants of the engine

    An invariant that the primitive operations keep is kept by the write
    path, by the scheduler and by every step.  [allowed] singles out the
    closures the invariant lets run; the invariant must make sure that only
    such closures are registered. *)

Section Invariant.

Variable I : State → Prop.
Variable allowed : State → Callback → Prop.
Variable input_ok : Input → Prop.

Hypothesis I_invoke : ∀ cb value path updatedAt unsubscribe st,
  allowed st cb → I st → I (invoke cb value path updatedAt unsubscribe st).1.
Hypothesis I_on_table : ∀ st n sid s,
  I st → table_get sid (on_subscriptions (cell n st)) = Some s → allowed st (callback s).
Hypothesis I_map_table : ∀ st n sid s,
  I st → table_get sid (map_subscriptions (cell n st)) = Some s → allowed st (callback s).
Hypothesis I_listener : ∀ st l lst,
  I st → listeners st !! l = Some lst → allowed st (l_callback lst).
Hypothesis I_get : ∀ this key st, I st → I (get this key st).1.
Hypothesis I_adapter_set : ∀ path value updatedAt expiresAt a st,
  I st → I (adapter_set path value updatedAt expiresAt a st).1.
Hypothesis I_children : ∀ n f st, I st → I (set_cell n (with_children f) st).
Hypothesis I_settled : ∀ f st, I st → I (set_settled f st).
Hypothesis I_on : ∀ this k throws returnIfUndefined recursion typeGuard st,
  input_ok (CallOn this k throws returnIfUndefined recursion typeGuard) → I st →
  I (on this (UserCallback k throws) returnIfUndefined recursion typeGuard st).1.
Hypothesis I_once : ∀ this callback returnIfUndefined recursion typeGuard st,
  input_ok (CallOnce this callback returnIfUndefined recursion typeGuard) → I st →
  I (once this ((λ kt, UserCallback kt.1 kt.2) <$> callback) returnIfUndefined
       recursion typeGuard st).1.
Hypothesis I_map : ∀ this k throws recursion typeGuard st,
  input_ok (CallMap this k throws recursion typeGuard) → I st →
  I (map this (UserCallback k throws) recursion typeGuard st).1.
Hypothesis I_open : ∀ this k throws recursion typeGuard st,
  input_ok (CallOpen this k throws recursion typeGuard) → I st →
  I (open this (UserCallback k throws) recursion typeGuard st).1.
Hypothesis I_unsubscribe : ∀ u st,
  input_ok (CallUnsubscribe u) → I st → I (run_unsubscribe u st).

Lemma inv_bind {A B} (c : M A) (k : A → M B) st :
  I st → (∀ st', I st' → I (c st').1) → (∀ a st', I st' → I (k a st').1) →
  I (bind c k st).1.
Proof.
  intros Hst Hc Hk. unfold bind. specialize (Hc st Hst).
  destruct (c st) as [st1 [a|]]; [by apply Hk|done].
Qed.

Lemma inv_for_each {A} (f : A → M unit) xs :
  (∀ x, x ∈ xs → ∀ st, I st → I (f x st).1) → ∀ st, I st → I (for_each f xs st).1.
Proof.
  induction xs as [|x xs IH]; intros Hf st Hst; [done|].
  cbn [for_each]. apply inv_bind; [done| |].
  - intros st' Hst'. apply Hf; [left|done].
  - intros _ st' Hst'. apply IH; [|done]. intros y Hy. apply Hf. by right.
Qed.

Lemma inv_map_s {A B} (f : A → State → State * B) xs :
  (∀ x st, I st → I (f x st).1) → ∀ st, I st → I (map_s f xs st).1.
Proof.
  intros Hf. induction xs as [|x xs IH]; intros st Hst; [done|].
  cbn [map_s]. specialize (Hf x st Hst). destruct (f x st) as [st1 y].
  specialize (IH st1 Hf). by destruct (map_s f xs st1).
Qed.

Lemma inv_notifyChange this value updatedAt st :
  I st → I (notifyChange this value updatedAt st).1.
Proof.
  intros Hst. unfold notifyChange, bind, gets.
  apply inv_for_each; [|done]. intros sid _ st' Hst'.
  unfold notify_subscriber, bind, gets.
  destruct (table_get sid (on_subscriptions (cell this st'))) as [s|] eqn:Hs; [|done].
  destruct (_ && _); [done|].
  apply I_invoke; [exact (I_on_table st' this sid s Hst' Hs)|done].
Qed.

Lemma inv_putValue this value updatedAt expiresAt st :
  I st → I (putValue this value updatedAt expiresAt st).1.
Proof.
  intros Hst. unfold putValue. apply inv_bind; [done| |].
  - intros st' Hst'. destruct (negb _); [by apply I_children|done].
  - intros _ st' Hst'. apply inv_bind; [done| |].
    + intros st1 Hst1. unfold lift.
      pose proof (inv_map_s (adapter_set (id this) value updatedAt expiresAt) (adapters this)
                    (λ a s, I_adapter_set _ _ _ _ a s) st1 Hst1) as Hm.
      by destruct (map_s _ _ st1).
    + intros promises st1 Hst1. apply inv_bind; [done| |done].
      intros st2 Hst2. by apply inv_notifyChange.
Qed.

Lemma inv_put_leaf value this updatedAt expiresAt st :
  isNonEmptyObject value = false → I st → I (put value this updatedAt expiresAt st).1.
Proof.
  intros Hleaf Hst. rewrite put_unfold, Hleaf.
  pose proof (inv_putValue this value updatedAt expiresAt st Hst) as Hp.
  by destruct (putValue this value updatedAt expiresAt st) as [st1 [ps|]].
Qed.

Lemma inv_put value : ∀ this updatedAt expiresAt st,
  I st → I (put value this updatedAt expiresAt st).1.
Proof.
  induction value as [| |b|n|s|items _|fields IH] using JsonValue_nested_ind;
    intros this updatedAt expiresAt st Hst; try (by apply inv_put_leaf).
  destruct (isNonEmptyObject (JObject fields)) eqn:Hobj; [|by apply inv_put_leaf].
  rewrite put_unfold, Hobj. unfold putChildValues.
  pose proof (inv_map_s (adapter_set (id this) DIRECTORY_VALUE updatedAt expiresAt)
                (adapters this) (λ a s, I_adapter_set _ _ _ _ a s) st Hst) as Hm.
  destruct (map_s _ _ st) as [st1 promises]. simpl in Hm.
  assert (Hc : ∀ s, I s → I (put_children this fields updatedAt s).1).
  { clear Hm Hst Hobj. induction IH as [|[key v] rest Hv _ IHrest]; intros s Hs; [done|].
    cbn [put_children]. pose proof (I_get this key s Hs) as Hg.
    destruct (get this key s) as [sta child]. simpl in Hv.
    pose proof (Hv child updatedAt None sta Hg) as Hp.
    destruct (put v child updatedAt None sta) as [stb task].
    pose proof (IHrest stb Hp) as Hr.
    by destruct (put_children this rest updatedAt stb). }
  specialize (Hc st1 Hm). by destruct (put_children this fields updatedAt st1).
Qed.

Lemma inv_put_after_local this value updatedAt st :
  I st → I (put_after_local this value updatedAt st).1.
Proof.
  intros Hst. unfold put_after_local. destruct (parent this) as [p|]; [|done].
  pose proof (inv_put DIRECTORY_VALUE p updatedAt None st Hst) as Hp.
  by destruct (put DIRECTORY_VALUE p updatedAt None st).
Qed.

Lemma inv_put_after_parent this value updatedAt st :
  I st → I (put_after_parent this value updatedAt st).1.
Proof.
  intros Hst. unfold put_after_parent. destruct (parent this) as [p|]; [|done].
  set (st1 := match children (cell p st) !! _ with Some _ => st | None => _ end).
  assert (Hst1 : I st1).
  { subst st1. destruct (children (cell p st) !! _); [done|by apply I_children]. }
  assert (Hloop : I (for_each (notify_map_subscriber this value updatedAt)
                       (map_subscriptions (cell p st1)).*1 st1).1).
  { apply inv_for_each; [|done]. intros sid _ st' Hst'.
    unfold notify_map_subscriber. destruct (parent this) as [p'|]; [|done].
    unfold bind, gets.
    destruct (table_get sid (map_subscriptions (cell p' st'))) as [s|] eqn:Hs; [|done].
    destruct (_ || _); [|done].
    apply I_invoke; [exact (I_map_table st' p' sid s Hst' Hs)|done]. }
  by destruct (for_each _ _ st1) as [st2 [[]|]].
Qed.

Lemma inv_resume task : ∀ pos st, I st → I (resume pos task st).1.
Proof.
  induction task as [| |this value updatedAt promises childPromises IH
                     |this value updatedAt parentPut IH] using PutTask_nested_ind;
    intros pos st Hst; rewrite resume_unfold; try done.
  - destruct pos as [|i pos'].
    + destruct (all_settled st promises childPromises) as [[]|];
        [by apply inv_put_after_local|done|done].
    + unfold resume_child. destruct (childPromises !! i) as [t|] eqn:Ht; [|done].
      rewrite Forall_lookup in IH. specialize (IH i t Ht pos' st Hst).
      by destruct (resume pos' t st).
  - destruct pos as [|i pos'].
    + destruct parentPut; try done. by apply inv_put_after_parent.
    + specialize (IH pos' st Hst). by destruct (resume pos' parentPut st).
Qed.

Lemma inv_step inp c : input_ok inp → I (state c) → I (state (step inp c)).
Proof.
  intros Hok Hc. destruct inp; cbn [step].
  - by apply I_get.
  - pose proof (inv_put value this updatedAt expiresAt (state c) Hc) as Hp.
    by destruct (put value this updatedAt expiresAt (state c)).
  - by apply I_on.
  - by apply I_once.
  - by apply I_map.
  - by apply I_open.
  - by apply I_unsubscribe.
  - destruct (listeners (state c) !! l) as [lst|] eqn:Hl; [|done].
    apply I_invoke; [exact (I_listener (state c) l lst Hc Hl)|done].
  - destruct (settled (state c) !! p); [done|]. by apply I_settled.
  - destruct (puts c !! i) as [task|]; [|done].
    pose proof (inv_resume task pos (state c) Hc) as Hr.
    by destruct (resume pos task (state c)).
Qed.

Lemma inv_run inputs : ∀ c,
  Forall input_ok inputs → I (state c) → I (state (run inputs c)).
Proof.
  induction inputs as [|inp inputs IH]; intros c Hok Hc; [done|].
  apply Forall_cons in Hok as [Hinp Hok]. apply (IH (step inp c) Hok).
  by apply inv_step.
Qed.

End Invariant.

(** * Frames

    A preorder on states that the primitive updates respect is respected by
    the operations built from them.  Each lemma asks for the primitives its
    operation uses, and no more. *)

Section Frame.

Variable R : State → State → Prop.
Hypothesis R_refl : ∀ st, R st st.
Hypothesis R_trans : ∀ st1 st2 st3, R st1 st2 → R st2 st3 → R st1 st3.
Hypothesis R_counter : ∀ n k st, R st (set_cell n (with_counter k) st).
Hypothesis R_on_subs : ∀ n f st, R st (set_cell n (with_on_subscriptions f) st).
Hypothesis R_map_subs : ∀ n f st, R st (set_cell n (with_map_subscriptions f) st).
Hypothesis R_get_child : ∀ this seg st, R st (get_child this seg st).1.
Hypothesis R_on_envs : ∀ f st, R st (set_on_envs f st).
Hypothesis R_map_envs : ∀ f st, R st (set_map_envs f st).
Hypothesis R_open_envs : ∀ f st, R st (set_open_envs f st).
Hypothesis R_once_envs : ∀ f st, R st (set_once_envs f st).
Hypothesis R_fresh_env : ∀ st, R st (fresh_env st).1.
Hypothesis R_register : ∀ l st, R st (register l st).1.
Hypothesis R_unlisten : ∀ l st, R st (adapter_unsubscribe l st).
Hypothesis R_call : ∀ k value path updatedAt unsubscribe st,
  R st (emit (Call k value path updatedAt unsubscribe) st).
Hypothesis R_resolve : ∀ e value st, R st (emit (Resolve e value) st).

Lemma frame_get_segments segs : ∀ this st, R st (get_segments this segs st).1.
Proof.
  induction segs as [|seg rest IH]; intros this st; [apply R_refl|].
  rewrite get_segments_cons. pose proof (R_get_child this seg st) as Hc.
  destruct (get_child this seg st) as [st1 node]. eapply R_trans; [exact Hc|apply IH].
Qed.

Lemma frame_get this key st : R st (get this key st).1.
Proof. apply frame_get_segments. Qed.

Lemma frame_map_s {A B} (f : A → State → State * B) xs :
  (∀ x st, R st (f x st).1) → ∀ st, R st (map_s f xs st).1.
Proof.
  intros Hf. induction xs as [|x xs IH]; intros st; [apply R_refl|].
  cbn [map_s]. specialize (Hf x st). destruct (f x st) as [st1 y].
  specialize (IH st1). destruct (map_s f xs st1). by eapply R_trans.
Qed.

Lemma frame_foldl {A} (f : State → A → State) xs :
  (∀ x st, R st (f st x)) → ∀ st, R st (foldl f st xs).
Proof.
  intros Hf. induction xs as [|x xs IH]; intros st; [apply R_refl|].
  simpl. eapply R_trans; [apply Hf|apply IH].
Qed.

Lemma frame_for_each {A} (f : A → M unit) xs :
  (∀ x st, R st (f x st).1) → ∀ st, R st (for_each f xs st).1.
Proof.
  intros Hf. induction xs as [|x xs IH]; intros st; [apply R_refl|].
  cbn [for_each]. unfold bind. specialize (Hf x st).
  destruct (f x st) as [st1 [[]|]]; [|done].
  eapply R_trans; [exact Hf|apply IH].
Qed.

Lemma frame_next_counter this st : R st (next_counter this st).1.
Proof. apply R_counter. Qed.

Lemma frame_map_handle this callback recursion typeGuard st :
  R st (map_handle this callback recursion typeGuard st).1.
Proof.
  unfold map_handle.
  pose proof (frame_next_counter this st) as H1.
  destruct (next_counter this st) as [st1 sid].
  set (st2 := set_cell this _ st1).
  assert (H2 : R st1 st2) by apply R_map_subs.
  pose proof (R_fresh_env st2) as H3. destruct (fresh_env st2) as [st3 e].
  set (st4 := set_map_envs _ st3).
  assert (H4 : R st3 st4) by apply R_map_envs.
  pose proof (frame_map_s
    (adapter_list (id this) (MapListCallback e this sid callback recursion typeGuard))
    (adapters this) (λ a s, R_register _ s) st4) as H5.
  destruct (map_s _ (adapters this) st4) as [st5 subs]. simpl in *.
  eapply R_trans; [exact H1|]. eapply R_trans; [exact H2|].
  eapply R_trans; [exact H3|]. eapply R_trans; [exact H4|].
  eapply R_trans; [exact H5|]. apply R_map_envs.
Qed.

Lemma frame_open_handle this callback recursion typeGuard st :
  R st (open_handle this callback recursion typeGuard st).1.
Proof.
  unfold open_handle. pose proof (R_fresh_env st) as H1.
  destruct (fresh_env st) as [st1 e]. eapply R_trans; [exact H1|].
  set (st2 := set_open_envs _ st1).
  assert (H2 : R st1 st2) by apply R_open_envs.
  eapply R_trans; [exact H2|]. apply frame_map_handle.
Qed.

Lemma frame_unsubscribe_map recursion : ∀ h st, R st (unsubscribe_map recursion h st).
Proof.
  induction recursion as [|r IH]; intros h st; cbn [unsubscribe_map];
    set (st1 := set_cell (mh_node h) _ st);
    set (st2 := foldl _ st1 (adapterSubs _));
    assert (H1 : R st st1) by apply R_map_subs;
    assert (H2 : R st1 st2) by (apply frame_foldl; intros l s; apply R_unlisten).
  - by eapply R_trans.
  - eapply R_trans; [exact H1|]. eapply R_trans; [exact H2|].
    apply frame_foldl. intros entry s. apply IH.
Qed.

Lemma frame_unsubscribe_on this uniqueId e recursion st :
  R st (unsubscribe_on this uniqueId e recursion st).
Proof.
  unfold unsubscribe_on. set (st1 := set_cell this _ st).
  set (st2 := foldl _ st1 _).
  assert (H1 : R st st1) by apply R_on_subs.
  assert (H2 : R st1 st2) by (apply frame_foldl; intros l s; apply R_unlisten).
  destruct (openUnsubscribe (on_env e st2)); [|by eapply R_trans].
  eapply R_trans; [exact H1|]. eapply R_trans; [exact H2|]. apply frame_unsubscribe_map.
Qed.

Lemma frame_run_unsubscribe u st : R st (run_unsubscribe u st).
Proof.
  destruct u as [|l|this uid e r|r h|[p|] sid]; simpl; try apply R_refl.
  - apply R_unlisten.
  - apply frame_unsubscribe_on.
  - apply frame_unsubscribe_map.
  - apply R_map_subs.
Qed.

Lemma frame_map this callback recursion typeGuard st :
  R st (map this callback recursion typeGuard st).1.
Proof.
  unfold map. pose proof (frame_map_handle this callback recursion typeGuard st).
  by destruct (map_handle this callback recursion typeGuard st).
Qed.

Lemma frame_open this callback recursion typeGuard st :
  R st (open this callback recursion typeGuard st).1.
Proof.
  unfold open. pose proof (frame_open_handle this callback recursion typeGuard st).
  by destruct (open_handle this callback recursion typeGuard st).
Qed.

Lemma frame_open_once e this callback recursion typeGuard value st :
  R st (open_once e this callback recursion typeGuard value st).
Proof.
  unfold open_once. destruct (_ && _ && _); [|apply R_refl].
  pose proof (frame_open_handle this callback (recursion - 1) typeGuard st) as Hf.
  destruct (open_handle this callback (recursion - 1) typeGuard st) as [st1 h].
  eapply R_trans; [exact Hf|]. apply R_on_envs.
Qed.

Lemma frame_record_latest e value updatedAt st : R st (record_latest e value updatedAt st).
Proof.
  unfold record_latest. destruct updatedAt; [|apply R_refl].
  destruct (negb _); [apply R_on_envs|apply R_refl].
Qed.

Lemma frame_invoke cb : ∀ value path updatedAt unsubscribe st,
  R st (invoke cb value path updatedAt unsubscribe st).1.
Proof.
  induction cb as [k throws|e' this callback riu recursion typeGuard IH
                  |e' this callback typeGuard IH|callback typeGuard IH
                  |e' this sid callback recursion typeGuard IH|e' callback IH|e']
    using Callback_nested_ind; intros value path updatedAt unsubscribe st.
  - rewrite invoke_UserCallback. apply R_call.
  - rewrite invoke_OnLocalCallback. cbv zeta.
    destruct (dropped _ _ _ _); [apply R_refl|].
    destruct (negb _ && _ && _); [by apply IH|].
    assert (H2 : R st (open_once e' this callback recursion typeGuard value
                         (record_latest e' value updatedAt st))).
    { eapply R_trans; [apply frame_record_latest|apply frame_open_once]. }
    destruct (negb _ || _); [|done]. eapply R_trans; [exact H2|apply IH].
  - rewrite invoke_OpenCallback. cbv zeta.
    eapply R_trans; [|apply IH]. apply R_open_envs.
  - rewrite invoke_MapTypedCallback. by apply IH.
  - rewrite invoke_MapListCallback. cbv zeta.
    destruct (olderThanLatest _ _); [apply R_refl|].
    set (st1 := match updatedAt with Some u => _ | None => st end).
    assert (H1 : R st st1).
    { subst st1. destruct updatedAt; [apply R_map_envs|apply R_refl]. }
    destruct (_ && _ && _); [|eapply R_trans; [exact H1|apply IH]].
    destruct (property_get _ _); [done|].
    pose proof (frame_get this (Path.pop (Path.split path)) st1) as Hg.
    destruct (get this _ st1) as [st2 child].
    pose proof (frame_open_handle child callback (recursion - 1) (λ v, v) st2) as Ho.
    destruct (open_handle child callback (recursion - 1) _ st2) as [st3 h]. simpl in *.
    eapply R_trans; [exact H1|]. eapply R_trans; [exact Hg|].
    eapply R_trans; [exact Ho|]. apply R_map_envs.
  - rewrite invoke_OnceCallback. destruct (resolved e' st); [apply R_refl|]. cbv zeta.
    set (st1 := emit _ _).
    assert (H1 : R st st1).
    { subst st1. eapply R_trans; [apply R_once_envs|apply R_resolve]. }
    specialize (IH value path updatedAt UnNoop st1).
    destruct (invoke callback value path updatedAt UnNoop st1) as [st2 [[]|]];
      simpl in *; [|by eapply R_trans].
    eapply R_trans; [exact H1|]. eapply R_trans; [exact IH|]. apply frame_run_unsubscribe.
  - rewrite invoke_OnceCallback. destruct (resolved e' st); [apply R_refl|]. cbv zeta. simpl.
    eapply R_trans; [apply R_once_envs|]. eapply R_trans; [apply R_resolve|].
    apply frame_run_unsubscribe.
Qed.

Lemma frame_on this callback returnIfUndefined recursion typeGuard st :
  R st (on this callback returnIfUndefined recursion typeGuard st).1.
Proof.
  unfold on. pose proof (R_fresh_env st) as H1. destruct (fresh_env st) as [st1 e].
  set (st2 := set_on_envs _ st1).
  assert (H2 : R st1 st2) by apply R_on_envs.
  pose proof (frame_next_counter this st2) as H3.
  destruct (next_counter this st2) as [st3 uid].
  set (st4 := set_cell this _ st3).
  assert (H4 : R st3 st4) by apply R_on_subs.
  pose proof (frame_map_s
    (adapter_get (id this) (OnLocalCallback e this callback returnIfUndefined recursion typeGuard))
    (adapters this) (λ a s, R_register _ s) st4) as H5.
  destruct (map_s _ (adapters this) st4) as [st5 unsubs]. simpl in *.
  eapply R_trans; [exact H1|]. eapply R_trans; [exact H2|].
  eapply R_trans; [exact H3|]. eapply R_trans; [exact H4|].
  eapply R_trans; [exact H5|]. apply R_on_envs.
Qed.

Lemma frame_once this callback returnIfUndefined recursion typeGuard st :
  R st (once this callback returnIfUndefined recursion typeGuard st).1.
Proof.
  unfold once. pose proof (R_fresh_env st) as H1. destruct (fresh_env st) as [st1 e].
  set (st2 := set_once_envs _ st1).
  assert (H2 : R st1 st2) by apply R_once_envs.
  pose proof (frame_on this (OnceCallback e callback) returnIfUndefined recursion typeGuard st2) as H3.
  destruct (on this _ returnIfUndefined recursion typeGuard st2) as [st3 u]. simpl in *.
  eapply R_trans; [exact H1|]. by eapply R_trans.
Qed.

Hypothesis R_adapter_set : ∀ path value updatedAt expiresAt a st,
  R st (adapter_set path value updatedAt expiresAt a st).1.
Hypothesis R_children : ∀ n f st, R st (set_cell n (with_children f) st).
Hypothesis R_settled : ∀ f st, R st (set_settled f st).

(** Every step of the engine and of its environment respects [R]. *)
Lemma frame_step inp c : R (state c) (state (step inp c)).
Proof.
  apply (inv_step (R (state c)) (λ _ _, True) (λ _, True)); [..|done|apply R_refl].
  - intros cb value path updatedAt unsubscribe st _ Hst.
    eapply R_trans; [exact Hst|apply frame_invoke].
  - done.
  - done.
  - done.
  - intros this key st Hst. eapply R_trans; [exact Hst|apply frame_get].
  - intros path value updatedAt expiresAt a st Hst.
    eapply R_trans; [exact Hst|apply R_adapter_set].
  - intros n f st Hst. eapply R_trans; [exact Hst|apply R_children].
  - intros f st Hst. eapply R_trans; [exact Hst|apply R_settled].
  - intros this k throws riu recursion typeGuard st _ Hst.
    eapply R_trans; [exact Hst|apply frame_on].
  - intros this callback riu recursion typeGuard st _ Hst.
    eapply R_trans; [exact Hst|apply frame_once].
  - intros this k throws recursion typeGuard st _ Hst.
    eapply R_trans; [exact Hst|apply frame_map].
  - intros this k throws recursion typeGuard st _ Hst.
    eapply R_trans; [exact Hst|apply frame_open].
  - intros u st _ Hst. eapply R_trans; [exact Hst|apply frame_run_unsubscribe].
Qed.

Lemma frame_run inputs : ∀ c, R (state c) (state (run inputs c)).
Proof.
  induction inputs as [|inp inputs IH]; intros c; [apply R_refl|].
  eapply R_trans; [apply (frame_step inp c)|apply (IH (step inp c))].
Qed.

Lemma frame_notifyChange this value updatedAt st :
  R st (notifyChange this value updatedAt st).1.
Proof.
  apply (inv_notifyChange (R st) (λ _ _, True)); [| |apply R_refl].
  - intros cb v p u un s _ Hs. eapply R_trans; [exact Hs|apply frame_invoke].
  - done.
Qed.

Lemma frame_put value this updatedAt expiresAt st :
  R st (put value this updatedAt expiresAt st).1.
Proof.
  apply (inv_put (R st) (λ _ _, True)); [..|apply R_refl].
  - intros cb v p u un s _ Hs. eapply R_trans; [exact Hs|apply frame_invoke].
  - done.
  - intros n key s Hs. eapply R_trans; [exact Hs|apply frame_get].
  - intros path v u x a s Hs. eapply R_trans; [exact Hs|apply R_adapter_set].
  - intros n f s Hs. eapply R_trans; [exact Hs|apply R_children].
Qed.

Lemma frame_resume pos task st : R st (resume pos task st).1.
Proof.
  apply (inv_resume (R st) (λ _ _, True)); [..|apply R_refl].
  - intros cb v p u un s _ Hs. eapply R_trans; [exact Hs|apply frame_invoke].
  - done.
  - done.
  - intros n key s Hs. eapply R_trans; [exact Hs|apply frame_get].
  - intros path v u x a s Hs. eapply R_trans; [exact Hs|apply R_adapter_set].
  - intros n f s Hs. eapply R_trans; [exact Hs|apply R_children].
Qed.

End Frame.

(** * Last write wins in [on] *)

Section LastWriteWins.

Lemma on_frame_refl st : on_frame st st.
Proof. by split. Qed.

Lemma on_frame_trans st1 st2 st3 : on_frame st1 st2 → on_frame st2 st3 → on_frame st1 st3.
Proof. intros [H1 L1] [H2 L2]. split; [congruence|lia]. Qed.

Lemma on_frame_heap f st : on_frame st (set_heap f st).
Proof. by split. Qed.

Lemma on_frame_next_counter this st : on_frame st (next_counter this st).1.
Proof. by split. Qed.

Lemma on_frame_get_child this seg st : on_frame st (get_child this seg st).1.
Proof. unfold get_child. by destruct (children (cell this st) !! seg). Qed.

Lemma on_frame_map_envs f st : on_frame st (set_map_envs f st).
Proof. by split. Qed.

Lemma on_frame_open_envs f st : on_frame st (set_open_envs f st).
Proof. by split. Qed.

Lemma on_frame_once_envs f st : on_frame st (set_once_envs f st).
Proof. by split. Qed.

Lemma on_frame_fresh_env st : on_frame st (fresh_env st).1.
Proof. split; simpl; [done|lia]. Qed.

Lemma on_frame_register l st : on_frame st (register l st).1.
Proof. by split. Qed.

Lemma on_frame_listeners f st : on_frame st (set_listeners f st).
Proof. by split. Qed.

Lemma on_frame_settled f st : on_frame st (set_settled f st).
Proof. by split. Qed.

Lemma on_frame_emit ev st : on_frame st (emit ev st).
Proof. by split. Qed.

Lemma on_frame_adapter_set path value updatedAt expiresAt a st :
  on_frame st (adapter_set path value updatedAt expiresAt a st).1.
Proof. by split. Qed.

Ltac on_frame_prims :=
  first [ apply on_frame_refl | apply on_frame_trans
        | intros; apply on_frame_heap | apply on_frame_get_child
        | apply on_frame_map_envs | apply on_frame_open_envs | apply on_frame_once_envs
        | apply on_frame_fresh_env | apply on_frame_register
        | intros; apply on_frame_listeners | intros; apply on_frame_emit ].

Lemma on_frame_get this key st : on_frame st (get this key st).1.
Proof. apply frame_get; on_frame_prims. Qed.

Lemma on_frame_open_handle this callback recursion typeGuard st :
  on_frame st (open_handle this callback recursion typeGuard st).1.
Proof. apply frame_open_handle; on_frame_prims. Qed.

Lemma on_frame_map this callback recursion typeGuard st :
  on_frame st (map this callback recursion typeGuard st).1.
Proof. apply frame_map; on_frame_prims. Qed.

Lemma on_frame_open this callback recursion typeGuard st :
  on_frame st (open this callback recursion typeGuard st).1.
Proof. apply frame_open; on_frame_prims. Qed.

Lemma on_frame_run_unsubscribe u st : on_frame st (run_unsubscribe u st).
Proof. apply frame_run_unsubscribe; on_frame_prims. Qed.

Lemma on_frame_map_s {A B} (f : A → State → State * B) xs :
  (∀ x st, on_frame st (f x st).1) → ∀ st, on_frame st (map_s f xs st).1.
Proof. apply frame_map_s; on_frame_prims. Qed.

Lemma latest_frame e t st st' :
  on_frame st st' → latest_at_least e t st → latest_at_least e t st'.
Proof.
  intros [Henv Hle] [Hlt (lv & t' & Hl & Ht)]. split; [lia|].
  exists lv, t'. split; [|done]. unfold on_env in *. by rewrite Henv.
Qed.

Lemma on_env_insert e e' env st :
  on_env e (set_on_envs (λ m, <[e' := env]> m) st) =
  if decide (e' = e) then env else on_env e st.
Proof.
  unfold on_env. simpl. destruct (decide (e' = e)) as [->|Hne].
  - by rewrite lookup_insert_eq.
  - by rewrite lookup_insert_ne.
Qed.

Lemma latest_set_openUnsubscribe e t e' h st :
  latest_at_least e t st → latest_at_least e t (set_openUnsubscribe e' h st).
Proof.
  intros [Hlt (lv & t' & Hl & Ht)]. split; [done|]. exists lv, t'. split; [|done].
  unfold set_openUnsubscribe. rewrite on_env_insert.
  by destruct (decide (e' = e)) as [->|].
Qed.

Lemma latest_set_adapterUnsubscribes e t e' ls st :
  latest_at_least e t st → latest_at_least e t (set_adapterUnsubscribes e' ls st).
Proof.
  intros [Hlt (lv & t' & Hl & Ht)]. split; [done|]. exists lv, t'. split; [|done].
  unfold set_adapterUnsubscribes. rewrite on_env_insert.
  by destruct (decide (e' = e)) as [->|].
Qed.

Lemma record_latest_defined e value t st :
  is_undefined value = false →
  record_latest e value (Some t) st = set_latestValue e (Some (value, t)) st.
Proof. intros Hdef. unfold record_latest. by rewrite Hdef. Qed.

Lemma latestValue_set_latestValue e v st :
  latestValue (on_env e (set_latestValue e v st)) = v.
Proof. unfold set_latestValue. by rewrite on_env_insert, decide_True. Qed.

(** The assignment to [latestValue] is made past the staleness test only,
    so the recorded timestamp never goes back. *)
Lemma latest_record_latest e t e' returnIfUndefined value updatedAt st :
  dropped (latestValue (on_env e' st)) returnIfUndefined value updatedAt = false →
  latest_at_least e t st → latest_at_least e t (record_latest e' value updatedAt st).
Proof.
  intros Hdrop [Hlt (lv & t' & Hl & Ht)]. unfold record_latest.
  destruct updatedAt as [u|]; [|by split; [|exists lv, t']].
  destruct (negb (is_undefined value)); [|by split; [|exists lv, t']].
  split; [done|]. unfold set_latestValue. rewrite on_env_insert.
  destruct (decide (e' = e)) as [->|]; [|by exists lv, t'].
  exists value, u. split; [done|].
  apply orb_false_elim in Hdrop as [Hold _]. rewrite Hl in Hold. simpl in Hold.
  apply Z.leb_gt in Hold. lia.
Qed.

Lemma latest_open_once e t e' this callback recursion typeGuard value st :
  latest_at_least e t st →
  latest_at_least e t (open_once e' this callback recursion typeGuard value st).
Proof.
  intros Hst. unfold open_once. destruct (_ && _ && _); [|done].
  pose proof (on_frame_open_handle this callback
                (recursion - 1) typeGuard st) as Hf.
  destruct (open_handle this callback (recursion - 1) typeGuard st) as [st1 h].
  apply latest_set_openUnsubscribe. by eapply latest_frame.
Qed.

Lemma latest_invoke e t cb : ∀ value path updatedAt unsubscribe st,
  latest_at_least e t st →
  latest_at_least e t (invoke cb value path updatedAt unsubscribe st).1.
Proof.
  induction cb as [k throws|e' this callback riu recursion typeGuard IH
                  |e' this callback typeGuard IH|callback typeGuard IH
                  |e' this sid callback recursion typeGuard IH|e' callback IH|e']
    using Callback_nested_ind; intros value path updatedAt unsubscribe st Hst.
  - rewrite invoke_UserCallback. simpl. eapply latest_frame; [|done].
    apply on_frame_emit.
  - rewrite invoke_OnLocalCallback. cbv zeta.
    destruct (dropped _ _ _ _) eqn:Hdrop; [done|].
    destruct (negb _ && _ && _); [by apply IH|].
    pose proof (latest_open_once e t e' this callback recursion typeGuard value _
                  (latest_record_latest e t e' riu value updatedAt st Hdrop Hst)) as H2.
    destruct (negb _ || _); [by apply IH|done].
  - rewrite invoke_OpenCallback. cbv zeta. apply IH.
    eapply latest_frame; [|done]. apply on_frame_open_envs.
  - rewrite invoke_MapTypedCallback. by apply IH.
  - rewrite invoke_MapListCallback. cbv zeta.
    destruct (olderThanLatest _ _); [done|].
    set (st1 := match updatedAt with Some u => _ | None => st end).
    assert (H1 : latest_at_least e t st1).
    { subst st1. destruct updatedAt; [|done]. eapply latest_frame; [|done].
      apply on_frame_map_envs. }
    destruct (_ && _ && _); [|by apply IH].
    destruct (property_get _ _); [done|].
    pose proof (on_frame_get this (Path.pop (Path.split path)) st1) as Hg.
    destruct (get this _ st1) as [st2 child].
    pose proof (on_frame_open_handle child callback
                  (recursion - 1) (λ v, v) st2) as Ho.
    destruct (open_handle child callback (recursion - 1) _ st2) as [st3 h]. simpl in *.
    eapply latest_frame; [apply on_frame_map_envs|].
    eapply latest_frame; [exact Ho|]. by eapply latest_frame.
  - rewrite invoke_OnceCallback. destruct (resolved e' st); [done|]. cbv zeta.
    set (st1 := emit _ _).
    assert (H1 : latest_at_least e t st1).
    { subst st1. eapply latest_frame; [apply on_frame_emit|].
      eapply latest_frame; [apply on_frame_once_envs|done]. }
    specialize (IH value path updatedAt UnNoop st1 H1).
    destruct (invoke callback value path updatedAt UnNoop st1) as [st2 [[]|]]; [|done].
    eapply latest_frame; [|exact IH].
    apply on_frame_run_unsubscribe.
  - rewrite invoke_OnceCallback. destruct (resolved e' st); [done|]. cbv zeta. simpl.
    eapply latest_frame; [apply on_frame_run_unsubscribe|].
    eapply latest_frame; [apply on_frame_emit|].
    eapply latest_frame; [apply on_frame_once_envs|done].
Qed.

Lemma latest_on e t this callback returnIfUndefined recursion typeGuard st :
  latest_at_least e t st →
  latest_at_least e t (on this callback returnIfUndefined recursion typeGuard st).1.
Proof.
  intros Hst. unfold on. unfold fresh_env.
  set (e' := next_env st).
  set (st2 := set_on_envs _ (set_next_env (S e') st)).
  assert (H2 : latest_at_least e t st2).
  { destruct Hst as [Hlt (lv & t' & Hl & Ht)]. split; [simpl; lia|].
    exists lv, t'. split; [|done]. subst st2. rewrite on_env_insert.
    rewrite decide_False by (subst e'; lia). done. }
  pose proof (on_frame_next_counter this st2) as H3.
  destruct (next_counter this st2) as [st3 uid].
  set (st4 := set_cell this _ st3).
  assert (H4 : on_frame st3 st4) by apply on_frame_heap.
  pose proof (on_frame_map_s
    (adapter_get (id this) (OnLocalCallback e' this callback returnIfUndefined recursion typeGuard))
    (adapters this) (λ a s, on_frame_register _ s) st4) as H5.
  destruct (map_s _ (adapters this) st4) as [st5 unsubs]. simpl in *.
  apply latest_set_adapterUnsubscribes.
  eapply latest_frame; [exact H5|]. eapply latest_frame; [exact H4|].
  eapply latest_frame; [exact H3|exact H2].
Qed.

Lemma latest_step e t inp c :
  latest_at_least e t (state c) → latest_at_least e t (state (step inp c)).
Proof.
  intros Hc.
  apply (inv_step (latest_at_least e t) (λ _ _, True) (λ _, True)); [..|done|done].
  - intros cb value path updatedAt unsubscribe st _. apply latest_invoke.
  - done.
  - done.
  - done.
  - intros this key st. apply latest_frame, (on_frame_get).
  - intros path value updatedAt expiresAt a st.
    apply latest_frame, on_frame_adapter_set.
  - intros n f st. apply latest_frame, on_frame_heap.
  - intros f st. apply latest_frame, on_frame_settled.
  - intros this k throws riu recursion typeGuard st _. apply latest_on.
  - intros this callback riu recursion typeGuard st _ Hst. unfold once, fresh_env.
    set (st2 := set_once_envs _ _).
    assert (H2 : latest_at_least e t st2).
    { eapply latest_frame; [apply on_frame_once_envs|].
      eapply latest_frame; [apply on_frame_fresh_env|done]. }
    pose proof (latest_on e t this (OnceCallback (next_env st)
      ((λ kt, UserCallback kt.1 kt.2) <$> callback)) riu recursion typeGuard st2 H2) as H3.
    by destruct (on this _ riu recursion typeGuard st2).
  - intros this k throws recursion typeGuard st _.
    apply latest_frame, on_frame_map.
  - intros this k throws recursion typeGuard st _.
    apply latest_frame, on_frame_open.
  - intros u st _. apply latest_frame, on_frame_run_unsubscribe.
Qed.

Lemma latest_run e t inputs : ∀ c,
  latest_at_least e t (state c) → latest_at_least e t (state (run inputs c)).
Proof.
  induction inputs as [|inp inputs IH]; intros c Hc; [done|].
  apply (IH (step inp c)). by apply latest_step.
Qed.

(** C1. Once [localCallback] has accepted a notification that carries a
    value and a timestamp [t], then whatever happens next (notifications
    from any adapter in any order, writes, new subscriptions), the
    subscription holds a latest timestamp [tl] with [t <= tl], and a
    notification whose [updatedAt] is defined and at most [tl] is dropped:
    the callback is not called and nothing changes.  With a caller's
    callback, the timestamp held right after the acceptance is [t]. *)
Theorem on_drops_stale e this callback returnIfUndefined recursion typeGuard
    value path t unsubscribe st pending inputs :
  let cb := OnLocalCallback e this callback returnIfUndefined recursion typeGuard in
  e < next_env st →
  is_undefined value = false →
  dropped (latestValue (on_env e st)) returnIfUndefined value (Some t) = false →
  let st1 := (invoke cb value path (Some t) unsubscribe st).1 in
  let st2 := state (run inputs (mkConfig st1 pending)) in
  (∀ k throws, callback = UserCallback k throws →
     latestValue (on_env e st1) = Some (value, t))
  ∧ ∃ lv tl, latestValue (on_env e st2) = Some (lv, tl) ∧ (t ≤ tl)%Z
      ∧ ∀ value' path' u unsubscribe', (u ≤ tl)%Z →
          invoke cb value' path' (Some u) unsubscribe' st2 = (st2, Normal tt).
Proof.
  intros cb Hlt Hdef Hdrop st1 st2.
  pose proof (record_latest_defined e value t st Hdef) as Hrecord.
  assert (Hrec : latest_at_least e t (record_latest e value (Some t) st)).
  { rewrite Hrecord. split; [done|]. exists value, t.
    rewrite latestValue_set_latestValue. split; [done|lia]. }
  assert (Hund : negb (bool_decide (is_Some (latestValue (on_env e st))))
                 && returnIfUndefined && is_undefined value = false).
  { rewrite Hdef. by rewrite andb_false_r. }
  split.
  - intros k throws ->. subst st1 cb. rewrite invoke_OnLocalCallback. cbv zeta.
    rewrite Hdrop, Hund.
    assert (Hopen : latestValue (on_env e (open_once e this (UserCallback k throws) recursion
              typeGuard value (record_latest e value (Some t) st))) = Some (value, t)).
    { rewrite Hrecord. unfold open_once. destruct (isDirectory value && _ && _).
      - pose proof (on_frame_open_handle this
          (UserCallback k throws) (recursion - 1) typeGuard
          (set_latestValue e (Some (value, t)) st)) as [Henv _].
        destruct (open_handle _ _ _ _ _) as [sa h]. cbn [fst] in Henv.
        unfold set_openUnsubscribe. rewrite on_env_insert, decide_True by done.
        cbn [latestValue]. unfold on_env. rewrite Henv.
        apply latestValue_set_latestValue.
      - apply latestValue_set_latestValue. }
    destruct (negb _ || _); [|done]. by rewrite invoke_UserCallback.
  - assert (H1 : latest_at_least e t st1).
    { subst st1 cb. rewrite invoke_OnLocalCallback. cbv zeta. rewrite Hdrop, Hund.
      pose proof (latest_open_once e t e this callback recursion typeGuard value _ Hrec) as H2.
      destruct (negb _ || _); [by apply latest_invoke|done]. }
    destruct (latest_run e t inputs (mkConfig st1 pending) H1) as [_ (lv & tl & Hl & Ht)].
    exists lv, tl. split; [done|]. split; [done|].
    intros value' path' u unsubscribe' Hu. subst cb.
    subst st2. rewrite invoke_OnLocalCallback. cbv zeta. rewrite Hl.
    unfold dropped. cbn [olderThanLatest]. by rewrite (proj2 (Z.leb_le u tl) Hu).
Qed.

Lemma on_drops_stale_witness :
  let r := root [0; 1] in
  let st := (on r (UserCallback 7 false) false 1 (λ v, v) initial_state).1 in
  let cb := OnLocalCallback 0 r (UserCallback 7 false) false 1 (λ v, v) in
  let st1 := (invoke cb (JNumber 1) "" (Some 10%Z) (UnAdapter 0) st).1 in
  let st2 := state (run [Notify 1 (JNumber 2) "" (Some 5%Z)] (mkConfig st1 [])) in
  0 < next_env st
  ∧ dropped (latestValue (on_env 0 st)) false (JNumber 1) (Some 10%Z) = false
  ∧ ∃ lv tl, latestValue (on_env 0 st2) = Some (lv, tl) ∧ (10 ≤ tl)%Z
      ∧ ∀ value' path' u unsubscribe', (u ≤ tl)%Z →
          invoke cb value' path' (Some u) unsubscribe' st2 = (st2, Normal tt).
Proof.
  intros r st cb st1 st2.
  assert (H1 : 0 < next_env st) by (vm_compute; lia).
  assert (H2 : dropped (latestValue (on_env 0 st)) false (JNumber 1) (Some 10%Z) = false)
    by reflexivity.
  split; [exact H1|]. split; [exact H2|].
  exact (proj2 (on_drops_stale 0 r (UserCallback 7 false) false 1 (λ v, v) (JNumber 1) ""
                  10%Z (UnAdapter 0) st [] [Notify 1 (JNumber 2) "" (Some 5%Z)]
                  H1 eq_refl H2)).
Defined.

End LastWriteWins.

(** * Notifications without a timestamp in [on] *)

Section UndefinedTimestamp.

Lemma same_log_open_handle this callback recursion typeGuard st :
  same_log st (open_handle this callback recursion typeGuard st).1.
Proof.
  apply frame_open_handle; try (intros; reflexivity).
  intros st1 st2 st3 H1 H2. unfold same_log in *. congruence.
Qed.

(** C9, as amended. A notification with a value and no [updatedAt] is never
    dropped as stale and never changes the recorded latest value.  When the
    value is not the directory marker, or the recursion budget is 0, all
    [localCallback] does is call the callback with it, whatever timestamp has
    been accepted before.  When the value is the directory marker and the
    budget is positive, the callback is not called: the nested [open]
    subscription is started if there is none yet. *)
Theorem on_undefined_timestamp e this callback returnIfUndefined recursion typeGuard
    value path unsubscribe st :
  is_undefined value = false →
  (negb (isDirectory value) || (recursion =? 0) = true →
     invoke (OnLocalCallback e this callback returnIfUndefined recursion typeGuard)
       value path None unsubscribe st
     = invoke callback (typeGuard value) path None unsubscribe st)
  ∧ (negb (isDirectory value) || (recursion =? 0) = false →
     ∃ st', invoke (OnLocalCallback e this callback returnIfUndefined recursion typeGuard)
              value path None unsubscribe st = (st', Normal tt)
            ∧ log st' = log st
            ∧ latestValue (on_env e st') = latestValue (on_env e st)
            ∧ is_Some (openUnsubscribe (on_env e st'))).
Proof.
  intros Hdef.
  assert (Hdrop : dropped (latestValue (on_env e st)) returnIfUndefined value None = false).
  { unfold dropped. rewrite Hdef, andb_false_r.
    by destruct (latestValue (on_env e st)) as [[]|]. }
  assert (Hund : negb (bool_decide (is_Some (latestValue (on_env e st))))
                 && returnIfUndefined && is_undefined value = false).
  { rewrite Hdef. by rewrite andb_false_r. }
  split; intros Hdir; rewrite invoke_OnLocalCallback; cbv zeta;
    rewrite Hdrop, Hund, Hdir; cbn [record_latest].
  - f_equal. unfold open_once.
    apply orb_true_iff in Hdir as [Hd|Hr].
    + apply negb_true_iff in Hd. by rewrite Hd.
    + apply Nat.eqb_eq in Hr. subst recursion. by rewrite andb_false_r.
  - eexists. split; [reflexivity|]. unfold open_once.
    destruct (isDirectory value && _ && _) eqn:Hopen.
    + pose proof (same_log_open_handle this callback (recursion - 1) typeGuard st) as Hlog.
      pose proof (on_frame_open_handle this callback (recursion - 1) typeGuard st) as [Henv _].
      destruct (open_handle this callback (recursion - 1) typeGuard st) as [st1 h].
      cbn [fst] in *. split; [exact Hlog|].
      unfold set_openUnsubscribe. rewrite on_env_insert, decide_True by done.
      cbn [latestValue openUnsubscribe]. unfold on_env. rewrite Henv. by split.
    + split; [done|]. split; [done|].
      apply orb_false_iff in Hdir as [Hd Hr]. apply negb_false_iff in Hd.
      apply Nat.eqb_neq in Hr. rewrite Hd in Hopen.
      replace (0 <? recursion) with true in Hopen by (symmetry; apply Nat.ltb_lt; lia).
      cbn [andb] in Hopen. apply negb_false_iff, bool_decide_eq_true in Hopen. done.
Qed.

Lemma on_undefined_timestamp_witness :
  let r := root [0] in
  let st := (on r (UserCallback 7 false) false 1 (λ v, v) initial_state).1 in
  let st1 := (invoke (OnLocalCallback 0 r (UserCallback 7 false) false 1 (λ v, v))
                (JNumber 1) "" (Some 10%Z) (UnAdapter 0) st).1 in
  invoke (OnLocalCallback 0 r (UserCallback 7 false) false 1 (λ v, v))
    (JNumber 2) "" None (UnAdapter 0) st1
  = invoke (UserCallback 7 false) (JNumber 2) "" None (UnAdapter 0) st1.
Proof.
  intros r st st1.
  exact (proj1 (on_undefined_timestamp 0 r (UserCallback 7 false) false 1 (λ v, v)
                  (JNumber 2) "" (UnAdapter 0) st1 eq_refl) eq_refl).
Defined.

(** C9, as stated, fails on the directory marker: with the default budget of
    1, after [1] has been accepted with timestamp 10, the notification
    [({}, undefined)] reaches no callback; the log still holds the one call
    made for [1]. *)
Lemma on_directory_without_timestamp_not_delivered :
  let r := root [0] in
  let st := (on r (UserCallback 7 false) false 1 (λ v, v) initial_state).1 in
  let cb := OnLocalCallback 0 r (UserCallback 7 false) false 1 (λ v, v) in
  let st1 := (invoke cb (JNumber 1) "" (Some 10%Z) (UnAdapter 0) st).1 in
  let st2 := (invoke cb DIRECTORY_VALUE "" None (UnAdapter 0) st1).1 in
  is_undefined DIRECTORY_VALUE = false
  ∧ log st1 = [Call 7 (JNumber 1) "" (Some 10%Z) (UnAdapter 0)]
  ∧ log st2 = [Call 7 (JNumber 1) "" (Some 10%Z) (UnAdapter 0)].
Proof. vm_compute. done. Qed.

End UndefinedTimestamp.

(** * Subscribers that throw *)

Section Throwing.

Lemma for_each_throw {A} (f : A → M unit) xs x ys : ∀ st,
  (for_each f (xs ++ [x]) st).2 = Thrown →
  for_each f (xs ++ x :: ys) st = for_each f (xs ++ [x]) st.
Proof.
  induction xs as [|y xs IH]; intros st Hthrow; cbn [app for_each] in *; unfold bind in *.
  - destruct (f x st) as [st1 [[]|]]; [|done]. simpl in Hthrow. done.
  - destruct (f y st) as [st1 [[]|]]; [|done]. by apply IH.
Qed.

(** C7, as amended. A subscriber whose callback throws ends the dispatch:
    the subscribers after it in the table are not called and the exception
    leaves the loop.  This holds for the [forEach] of [notifyChange] and for
    the loop of [put] over the parent's [map_subscriptions], where it
    rejects the promise of [put].  ([before], [sid] and [after] are the keys
    of the table, in insertion order.) *)
Theorem dispatch_stops_at_throw this value st before sid after :
  (∀ updatedAt,
     (on_subscriptions (cell this st)).*1 = before ++ sid :: after →
     (for_each (notify_subscriber this value updatedAt) (before ++ [sid]) st).2 = Thrown →
     notifyChange this value updatedAt st
     = for_each (notify_subscriber this value updatedAt) (before ++ [sid]) st)
  ∧ (∀ updatedAt p c,
     parent this = Some p →
     children (cell p st) !! Path.pop (Path.split (id this)) = Some c →
     (map_subscriptions (cell p st)).*1 = before ++ sid :: after →
     (for_each (notify_map_subscriber this value updatedAt) (before ++ [sid]) st).2 = Thrown →
     put_after_parent this value updatedAt st
     = ((for_each (notify_map_subscriber this value updatedAt) (before ++ [sid]) st).1,
        Rejected)).
Proof.
  split.
  - intros updatedAt Htable Hthrow. unfold notifyChange, bind, gets.
    rewrite Htable. by apply for_each_throw.
  - intros updatedAt p c Hp Hc Htable Hthrow. unfold put_after_parent.
    rewrite Hp, Hc, Htable, (for_each_throw _ _ _ _ _ Hthrow).
    by destruct (for_each _ (before ++ [sid]) st) as [st1 [[]|]].
Qed.

Lemma dispatch_stops_at_throw_witness :
  let r := root [0] in
  let st1 := (on r (UserCallback 1 true) false 1 (λ v, v) initial_state).1 in
  let st := (on r (UserCallback 2 false) false 1 (λ v, v) st1).1 in
  (on_subscriptions (cell r st)).*1 = [] ++ 0 :: [1]
  ∧ notifyChange r (JNumber 5) (Some 10%Z) st
    = for_each (notify_subscriber r (JNumber 5) (Some 10%Z)) ([] ++ [0]) st.
Proof.
  intros r st1 st.
  assert (Htable : (on_subscriptions (cell r st)).*1 = [] ++ 0 :: [1]) by reflexivity.
  split; [exact Htable|].
  exact (proj1 (dispatch_stops_at_throw r (JNumber 5) st [] 0 [1]) (Some 10%Z) Htable eq_refl).
Defined.

(** C7, as stated, fails: two subscribers on a node, the first throws; a
    write of [5] calls the first and never the second, and the promise of
    [put] is rejected. *)
Lemma throwing_subscriber_starves_next :
  let r := root [0] in
  let st1 := (on r (UserCallback 1 true) false 1 (λ v, v) initial_state).1 in
  let st := (on r (UserCallback 2 false) false 1 (λ v, v) st1).1 in
  length (on_subscriptions (cell r st)) = 2
  ∧ log (put (JNumber 5) r 10%Z None st).1
    = [AdapterSet 0 "" (JNumber 5) 10%Z None 0;
       Call 1 (JNumber 5) "" (Some 10%Z) UnNoop]
  ∧ (put (JNumber 5) r 10%Z None st).2 = Rejected.
Proof. vm_compute. done. Qed.

End Throwing.

(** * [once] *)

Section Once.

(** After the first delivery the closure of [once] does nothing. *)
Lemma once_delivers_once e callback value path updatedAt unsubscribe st :
  resolved e st = true →
  invoke (OnceCallback e callback) value path updatedAt unsubscribe st = (st, Normal tt).
Proof. intros Hres. rewrite invoke_OnceCallback. by rewrite Hres. Qed.

(** C5 on a concrete run: a node with two adapters, [once] with a callback,
    then a write of [1] on the same node.  The in-process notification
    resolves the promise and calls the callback once, and the function the
    closure then calls is the [() => {}] that [notifyChange] passed: the
    entry of [on_subscriptions] and both listeners are still registered.
    When the value comes from an adapter instead, the function called is
    that adapter's own: its listener goes, the entry and the other
    adapter's listener stay. *)
Theorem once_leaves_subscription :
  let r := root [0; 1] in
  let c := run [CallOnce r (Some (7, false)) false 1 (λ v, v)] initial in
  let c1 := run [CallPut r (JNumber 1) 10%Z None] c in
  let c2 := run [Notify 0 (JNumber 1) "" (Some 10%Z)] c in
  log (state c1)
  = [AdapterSet 0 "" (JNumber 1) 10%Z None 0; AdapterSet 1 "" (JNumber 1) 10%Z None 1;
     Resolve 0 (JNumber 1); Call 7 (JNumber 1) "" (Some 10%Z) UnNoop]
  ∧ length (on_subscriptions (cell r (state c1))) = 1
  ∧ is_Some (listeners (state c1) !! 0) ∧ is_Some (listeners (state c1) !! 1)
  ∧ log (state c2) = [Resolve 0 (JNumber 1); Call 7 (JNumber 1) "" (Some 10%Z) UnNoop]
  ∧ length (on_subscriptions (cell r (state c2))) = 1
  ∧ listeners (state c2) !! 0 = None ∧ is_Some (listeners (state c2) !! 1).
Proof. vm_compute. repeat split; eauto. Qed.

End Once.

(** * Writing an object *)

Section Decomposition.






End Decomposition.

(** * Propagation of a write to the ancestors *)

Section Ancestors.

Lemma log_extends_refl st : log_extends st st.
Proof. by split. Qed.

Lemma log_extends_trans st1 st2 st3 :
  log_extends st1 st2 → log_extends st2 st3 → log_extends st1 st3.
Proof. intros [H1 L1] [H2 L2]. split; [by etrans|lia]. Qed.

Lemma log_extends_get_child this seg st : log_extends st (get_child this seg st).1.
Proof. unfold get_child. by destruct (children (cell this st) !! seg). Qed.

Lemma log_extends_emit ev st : log_extends st (emit ev st).
Proof. split; simpl; [by apply prefix_app_r|done]. Qed.

Lemma log_extends_adapter_set path value updatedAt expiresAt a st :
  log_extends st (adapter_set path value updatedAt expiresAt a st).1.
Proof. split; simpl; [by apply prefix_app_r|lia]. Qed.

Ltac log_prims :=
  first [ apply log_extends_refl | apply log_extends_trans
        | apply log_extends_get_child | apply log_extends_adapter_set
        | intros; apply log_extends_emit
        | intros; split; simpl; done ].

Lemma log_extends_step inp c : log_extends (state c) (state (step inp c)).
Proof. apply frame_step; log_prims. Qed.

Lemma log_extends_put value this updatedAt expiresAt st :
  log_extends st (put value this updatedAt expiresAt st).1.
Proof. apply frame_put; log_prims. Qed.

Lemma log_extends_resume pos task st : log_extends st (resume pos task st).1.
Proof. apply frame_resume; log_prims. Qed.

Lemma log_extends_notifyChange this value updatedAt st :
  log_extends st (notifyChange this value updatedAt st).1.
Proof. apply frame_notifyChange; log_prims. Qed.

Lemma marked_mono N L L' q t : L `prefix_of` L' → marked N L q t → marked N L' q t.
Proof.
  intros [k ->] Hm a Ha. destruct (Hm a Ha) as (pr & Hpr & Hin).
  exists pr. split; [done|]. apply elem_of_app. by left.
Qed.

Lemma tracks_mono N L L' task : ∀ this t,
  L `prefix_of` L' → tracks N L task this t → tracks N L' task this t.
Proof.
  induction task as [| |n v t' ps cs|n v t' pt IH]; intros this t Hpre Ht; simpl in *; try done.
  - eapply Forall_impl; [exact Ht|]. intros q. by apply marked_mono.
  - destruct Ht as (-> & -> & p & Hp & Hm & Hpt). split; [done|]. split; [done|].
    exists p. split; [done|]. split; [by eapply marked_mono|by apply IH].
Qed.

(** The adapters of a node are handed the value of a [putValue]. *)
Lemma sets_logged path value updatedAt expiresAt adapters : ∀ st a,
  a ∈ adapters →
  ∃ pr, next_promise st ≤ pr
    ∧ AdapterSet a path value updatedAt expiresAt pr
      ∈ log (map_s (adapter_set path value updatedAt expiresAt) adapters st).1.
Proof.
  induction adapters as [|b adapters IH]; intros st a Ha; [by apply elem_of_nil in Ha|].
  cbn [map_s].
  destruct (adapter_set path value updatedAt expiresAt b st) as [st1 p] eqn:Hset.
  assert (Hrest : log_extends st1 (map_s (adapter_set path value updatedAt expiresAt) adapters st1).1).
  { apply frame_map_s; [apply log_extends_refl|apply log_extends_trans|].
    intros x s. apply log_extends_adapter_set. }
  pose proof (IH st1 a) as IHa.
  destruct (map_s (adapter_set path value updatedAt expiresAt) adapters st1) as [st2 ps].
  cbn [fst] in *. unfold adapter_set in Hset. injection Hset as <- <-.
  apply elem_of_cons in Ha as [->|Ha].
  - exists (next_promise st). split; [done|].
    destruct Hrest as [[k Hk] _]. rewrite Hk. simpl.
    apply elem_of_app. left. apply elem_of_app. right. by left.
  - destruct (IHa Ha) as (pr & Hpr & Hin). exists pr. simpl in Hpr. split; [lia|done].
Qed.

Lemma put_marks N p t st :
  N ≤ next_promise st → marked N (log (put DIRECTORY_VALUE p t None st).1) p t.
Proof.
  intros HN a Ha. rewrite put_unfold.
  change (isNonEmptyObject DIRECTORY_VALUE) with false. cbv iota.
  rewrite putValue_unfold. change (negb (isDirectory DIRECTORY_VALUE)) with false. cbv iota zeta.
  destruct (sets_logged (id p) DIRECTORY_VALUE t None (adapters p) st a Ha) as (pr & Hpr & Hin).
  destruct (map_s (adapter_set (id p) DIRECTORY_VALUE t None) (adapters p) st) as [st1 ps].
  cbn [fst] in Hin.
  pose proof (log_extends_notifyChange p DIRECTORY_VALUE (Some t) st1) as [[k Hk] _].
  exists pr. split; [lia|].
  destruct (notifyChange p DIRECTORY_VALUE (Some t) st1) as [st2 [[]|]];
    cbn [fst] in *; rewrite Hk; apply elem_of_app; by left.
Qed.

Lemma put_tracks N value this t expiresAt st :
  tracks N (log (put value this t expiresAt st).1) (put value this t expiresAt st).2 this t.
Proof.
  rewrite put_unfold. destruct (isNonEmptyObject value).
  - by destruct (putChildValues this _ t expiresAt st) as [st1 [ps cs]].
  - by destruct (putValue this value t expiresAt st) as [st1 [ps|]].
Qed.

Lemma ancestors_parent this :
  ancestors this = match parent this with Some p => p :: ancestors p | None => [] end.
Proof. by destruct this as [a i ads [p|]]. Qed.

Lemma resume_tracks N task : ∀ pos st this t,
  N ≤ next_promise st →
  tracks N (log st) task this t →
  tracks N (log (resume pos task st).1) (resume pos task st).2 this t.
Proof.
  induction task as [| |n v t' ps cs|n v t' pt IH]; intros pos st this t HN Ht;
    rewrite resume_unfold; try done.
  - destruct Ht as [-> ->]. destruct pos as [|i pos'].
    + destruct (all_settled st ps cs) as [[]|]; [|done|done].
      unfold put_after_local. destruct (parent this) as [p|] eqn:Hp.
      * pose proof (put_marks N p t st HN) as Hm.
        pose proof (put_tracks N DIRECTORY_VALUE p t None st) as Hp'.
        destruct (put DIRECTORY_VALUE p t None st) as [st1 task1]. simpl in *.
        split; [done|]. split; [done|]. by exists p.
      * simpl. rewrite ancestors_parent, Hp. constructor.
    + unfold resume_child. destruct (cs !! i) as [c|]; [|done].
      by destruct (resume pos' c st).
  - destruct Ht as (-> & -> & p & Hp & Hm & Hpt). destruct pos as [|i pos'].
    + destruct pt; try (simpl; split; [done|]; split; [done|]; by exists p).
      * pose proof (log_extends_resume [] (AwaitParent this v t Fulfilled) st) as [Hpre _].
        rewrite resume_unfold in Hpre.
        destruct (put_after_parent this v t st) as [st2 task2] eqn:Hafter.
        assert (task2 = Fulfilled ∨ task2 = Rejected) as [-> | ->].
        { unfold put_after_parent in Hafter. rewrite Hp in Hafter.
          destruct (for_each _ _ _) as [s [[]|]]; injection Hafter as _ <-; auto. }
        -- simpl in *. rewrite ancestors_parent, Hp. constructor.
           ++ by eapply marked_mono.
           ++ eapply Forall_impl; [exact Hpt|]. intros q. by apply marked_mono.
        -- done.
      * done.
    + pose proof (log_extends_resume pos' pt st) as [Hpre _].
      specialize (IH pos' st p t HN Hpt).
      destruct (resume pos' pt st) as [st1 pt']. simpl in *.
      split; [done|]. split; [done|]. exists p. split; [done|].
      split; [by eapply marked_mono|done].
Qed.

Lemma step_tracks N this t inp c i task :
  puts c !! i = Some task →
  N ≤ next_promise (state c) →
  tracks N (log (state c)) task this t →
  ∃ task', puts (step inp c) !! i = Some task'
           ∧ tracks N (log (state (step inp c))) task' this t.
Proof.
  intros Hi HN Ht.
  pose proof (log_extends_step inp c) as [Hpre _].
  assert (Hsame : puts (step inp c) = puts c →
                  ∃ task', puts (step inp c) !! i = Some task'
                           ∧ tracks N (log (state (step inp c))) task' this t).
  { intros Hputs. exists task. rewrite Hputs. split; [done|by eapply tracks_mono]. }
  destruct inp; cbn [step] in *; try (by apply Hsame).
  - destruct (put value this0 updatedAt expiresAt (state c)) as [st1 task1]. simpl in *.
    exists task. split; [by apply lookup_app_l_Some|by eapply tracks_mono].
  - destruct (listeners (state c) !! l); by apply Hsame.
  - destruct (settled (state c) !! p); by apply Hsame.
  - destruct (puts c !! i0) as [task0|] eqn:Hi0; [|by apply Hsame].
    pose proof (resume_tracks N task0 pos (state c) this t HN) as Hres.
    destruct (resume pos task0 (state c)) as [st1 task1]. simpl in *.
    destruct (decide (i0 = i)) as [->|Hne].
    + exists task1. split.
      * apply list_lookup_insert_eq. by eapply lookup_lt_Some.
      * apply Hres. congruence.
    + exists task. split; [by rewrite list_lookup_insert_ne|by eapply tracks_mono].
Qed.

Lemma run_tracks N this t inputs : ∀ c i task,
  puts c !! i = Some task →
  N ≤ next_promise (state c) →
  tracks N (log (state c)) task this t →
  ∃ task', puts (run inputs c) !! i = Some task'
           ∧ tracks N (log (state (run inputs c))) task' this t.
Proof.
  induction inputs as [|inp inputs IH]; intros c i task Hi HN Ht; [by exists task|].
  destruct (step_tracks N this t inp c i task Hi HN Ht) as (task1 & Hi1 & Ht1).
  apply (IH (step inp c) i task1 Hi1); [|done].
  pose proof (log_extends_step inp c) as [_ Hle]. lia.
Qed.

(** The child caches through the callbacks. *)

Lemma cache_frame_refl st : cache_frame st st.
Proof. intros Hwf. split; [done|apply cache_le_refl]. Qed.

Lemma cache_frame_trans st1 st2 st3 :
  cache_frame st1 st2 → cache_frame st2 st3 → cache_frame st1 st3.
Proof.
  intros H12 H23 Hwf. destruct (H12 Hwf) as [Hwf2 Hle12].
  destruct (H23 Hwf2) as [Hwf3 Hle23]. split; [done|by eapply cache_le_trans].
Qed.

Lemma cache_frame_same_heap st st' :
  heap st' = heap st → next_addr st' = next_addr st → cache_frame st st'.
Proof.
  intros Hheap Hnext Hwf. split.
  - split.
    + intros a c. rewrite Hheap, Hnext. apply Hwf.
    + intros a c seg n. rewrite Hheap. unfold live. rewrite Hheap. apply Hwf.
  - split.
    + intros x seg n. unfold cell. by rewrite Hheap.
    + intros x. unfold live. by rewrite Hheap.
Qed.

Lemma cache_frame_set_cell n f st :
  (∀ c, children (f c) = children c) → cache_frame st (set_cell n f st).
Proof.
  intros Hf Hwf.
  assert (Hlook : ∀ a, heap (set_cell n f st) !! a
                       = if decide (a = addr n) then f <$> heap st !! a else heap st !! a).
  { intros a. simpl. destruct (decide (a = addr n)) as [->|Hne].
    - by rewrite lookup_alter_eq.
    - by rewrite lookup_alter_ne. }
  assert (Hlive : ∀ x, live x st → live x (set_cell n f st)).
  { intros x [c Hx]. unfold live. rewrite Hlook, Hx. by destruct (decide _). }
  assert (Hch : ∀ x, children (cell x (set_cell n f st)) = children (cell x st)).
  { intros x. unfold cell. rewrite Hlook. destruct (decide _); [|done].
    destruct (heap st !! addr x); simpl; [apply Hf|done]. }
  split; [split|split].
  - intros a c. rewrite Hlook. destruct (decide _).
    + destruct (heap st !! a) as [c0|] eqn:Ha; [|done]. intros _.
      exact (wf_bound _ Hwf _ _ Ha).
    + apply (wf_bound _ Hwf).
  - intros a c seg m. rewrite Hlook. destruct (decide _).
    + destruct (heap st !! a) as [c0|] eqn:Ha; [|done]. simpl. intros [= <-].
      rewrite Hf. intros Hm. apply Hlive. exact (wf_children _ Hwf _ _ _ _ Ha Hm).
    + intros Ha Hm. apply Hlive. exact (wf_children _ Hwf _ _ _ _ Ha Hm).
  - intros x seg m. by rewrite Hch.
  - done.
Qed.

Lemma cache_frame_get_child this seg st : cache_frame st (get_child this seg st).1.
Proof.
  intros Hwf. destruct (heap st !! addr this) as [c0|] eqn:Hthis.
  - destruct (get_child this seg st) as [st1 c] eqn:Hget.
    destruct (get_child_cached this seg st st1 c Hwf (mk_is_Some _ _ Hthis) Hget)
      as (_ & Hwf1 & _ & Hle). done.
  - unfold get_child.
    replace (children (cell this st) !! seg) with (@None Node)
      by (unfold cell; rewrite Hthis; simpl; by rewrite lookup_empty).
    cbn [new_child fst snd].
    set (N := next_addr st).
    set (node := mkNode N (Path.child_id (id this) seg) (adapters this) (Some this)).
    assert (Hlook : ∀ a, a ≠ N →
      alter (with_children (λ m, <[seg := node]> m)) (addr this) (<[N := empty_cell]> (heap st)) !! a
      = heap st !! a).
    { intros a Ha. destruct (decide (a = addr this)) as [->|Hne].
      - rewrite lookup_alter_eq, lookup_insert_ne by done. by rewrite Hthis.
      - rewrite lookup_alter_ne, lookup_insert_ne by done. done. }
    assert (HN : is_Some (alter (with_children (λ m, <[seg := node]> m)) (addr this)
                            (<[N := empty_cell]> (heap st)) !! N)).
    { destruct (decide (N = addr this)) as [Heq|Hne].
      - rewrite <- Heq, lookup_alter_eq, lookup_insert_eq. done.
      - rewrite lookup_alter_ne, lookup_insert_eq by done. done. }
    assert (Hold : ∀ a c, heap st !! a = Some c → a ≠ N).
    { intros a c Ha. pose proof (wf_bound _ Hwf _ _ Ha). subst N. lia. }
    assert (Hlive : ∀ x, live x st →
      is_Some (alter (with_children (λ m, <[seg := node]> m)) (addr this)
                 (<[N := empty_cell]> (heap st)) !! addr x)).
    { intros x [cx Hx]. rewrite Hlook by by eapply Hold. by rewrite Hx. }
    split; [split|split].
    + intros a c. simpl. destruct (decide (a = N)) as [->|Ha]; [intros _; subst N; lia|].
      rewrite Hlook by done. intros Hc. pose proof (wf_bound _ Hwf _ _ Hc). lia.
    + intros a c s m. simpl. unfold live. simpl.
      destruct (decide (a = N)) as [->|Ha].
      * intros Hc Hm. assert (m = node) as ->; [|exact HN].
        destruct (decide (N = addr this)) as [Heq|Hne].
        -- rewrite <- Heq, lookup_alter_eq, lookup_insert_eq in Hc. simpl in Hc.
           injection Hc as <-. simpl in Hm.
           destruct (decide (s = seg)) as [->|Hs].
           ++ rewrite lookup_insert_eq in Hm. by injection Hm as <-.
           ++ rewrite lookup_insert_ne in Hm by done. by rewrite lookup_empty in Hm.
        -- rewrite lookup_alter_ne, lookup_insert_eq in Hc by done. injection Hc as <-.
           simpl in Hm. by rewrite lookup_empty in Hm.
      * rewrite Hlook by done. intros Hc Hm. apply Hlive.
        exact (wf_children _ Hwf _ _ _ _ Hc Hm).
    + intros x s m Hx. unfold cell in *. simpl.
      destruct (heap st !! addr x) as [cx|] eqn:Hcx;
        [|by simpl in Hx; rewrite lookup_empty in Hx].
      rewrite Hlook by by eapply Hold. by rewrite Hcx.
    + intros x Hx. by apply Hlive.
Qed.

Ltac cache_prims :=
  first [ apply cache_frame_refl | apply cache_frame_trans
        | apply cache_frame_get_child
        | intros; apply cache_frame_set_cell; done
        | intros; apply cache_frame_same_heap; done ].

Lemma cache_frame_invoke cb value path updatedAt unsubscribe st :
  cache_frame st (invoke cb value path updatedAt unsubscribe st).1.
Proof. apply frame_invoke; cache_prims. Qed.

(** After the parent's [put], the parent's child cache has an entry under
    the name of the node: the node itself when there was none. *)
Lemma put_after_parent_caches this value t st p :
  parent this = Some p → heap_wf st → live p st → live this st →
  ∃ n, children (cell p (put_after_parent this value t st).1)
         !! Path.pop (Path.split (id this)) = Some n
       ∧ (children (cell p st) !! Path.pop (Path.split (id this)) = None → n = this).
Proof.
  intros Hp Hwf [cp Hcp] Hthis. unfold put_after_parent. rewrite Hp.
  set (childName := Path.pop (Path.split (id this))).
  set (st1 := match children (cell p st) !! childName with Some _ => st | None => _ end).
  assert (H1 : heap_wf st1 ∧ ∃ n, children (cell p st1) !! childName = Some n
                 ∧ (children (cell p st) !! childName = None → n = this)).
  { subst st1. destruct (children (cell p st) !! childName) as [n|] eqn:Hn.
    - split; [done|]. by exists n.
    - assert (Hlook : ∀ a, heap (set_cell p (with_children (λ m, <[childName := this]> m)) st) !! a
                = if decide (a = addr p)
                  then Some (with_children (λ m, <[childName := this]> m) cp)
                  else heap st !! a).
      { intros a. simpl. destruct (decide (a = addr p)) as [->|Hne].
        - by rewrite lookup_alter_eq, Hcp.
        - by rewrite lookup_alter_ne. }
      assert (Hlive : ∀ x, live x st →
                live x (set_cell p (with_children (λ m, <[childName := this]> m)) st)).
      { intros x [cx Hx]. unfold live. rewrite Hlook. by destruct (decide _); [|rewrite Hx]. }
      split.
      + split.
        * intros a c. rewrite Hlook. destruct (decide _) as [->|].
          -- intros _. exact (wf_bound _ Hwf _ _ Hcp).
          -- apply (wf_bound _ Hwf).
        * intros a c s m. rewrite Hlook. destruct (decide _) as [->|].
          -- intros [= <-]. simpl. destruct (decide (s = childName)) as [->|Hs].
             ++ rewrite lookup_insert_eq. intros [= <-]. by apply Hlive.
             ++ rewrite lookup_insert_ne by done. intros Hm. apply Hlive.
                exact (wf_children _ Hwf _ _ _ _ Hcp Hm).
          -- intros Ha Hm. apply Hlive. exact (wf_children _ Hwf _ _ _ _ Ha Hm).
      + exists this. split; [|done]. unfold cell. rewrite Hlook, decide_True by done.
        simpl. apply lookup_insert_eq. }
  destruct H1 as (Hwf1 & n & Hn & Hnew).
  assert (Hloop : cache_frame st1 (for_each (notify_map_subscriber this value t)
                                     (map_subscriptions (cell p st1)).*1 st1).1).
  { apply frame_for_each; [apply cache_frame_refl|apply cache_frame_trans|].
    intros sid s. unfold notify_map_subscriber, bind, gets. rewrite Hp.
    destruct (table_get sid _) as [entry|]; [|apply cache_frame_refl].
    destruct (_ || _); [apply cache_frame_invoke|apply cache_frame_refl]. }
  destruct (Hloop Hwf1) as [_ [Hle _]].
  exists n. split; [|done].
  destruct (for_each _ _ st1) as [st2 [[]|]]; by apply Hle.
Qed.

(** C3, as amended. When a call of [put] on a node has been fulfilled, the
    directory marker has been handed, with the timestamp of the call, to
    every adapter at the path of every ancestor, parent first, each by a
    [set] made after the call started; and when the [put] of the parent is
    fulfilled, the continuation leaves an entry under the node's name in the
    parent's child cache, the node itself if there was none.  This holds
    for every way the environment settles promises and schedules
    continuations, and for whatever else happens meanwhile. *)
Theorem put_marks_ancestors this value t expiresAt c inputs :
  let c' := run inputs (step (CallPut this value t expiresAt) c) in
  (puts c' !! length (puts c) = Some Fulfilled →
     Forall (λ q, marked (next_promise (state c)) (log (state c')) q t) (ancestors this))
  ∧ (∀ st p, parent this = Some p → heap_wf st → live p st → live this st →
       ∃ n, children (cell p (put_after_parent this value t st).1)
              !! Path.pop (Path.split (id this)) = Some n
            ∧ (children (cell p st) !! Path.pop (Path.split (id this)) = None → n = this)).
Proof.
  intros c'. split; [|intros st p; apply put_after_parent_caches].
  intros Hdone. subst c'.
  set (c0 := step (CallPut this value t expiresAt) c) in *.
  pose proof (put_tracks (next_promise (state c)) value this t expiresAt (state c)) as Ht.
  pose proof (log_extends_put value this t expiresAt (state c)) as [_ Hle].
  assert (Hc0 : puts c0 !! length (puts c) = Some (put value this t expiresAt (state c)).2
                ∧ state c0 = (put value this t expiresAt (state c)).1).
  { subst c0. cbn [step]. destruct (put value this t expiresAt (state c)) as [st1 task1].
    simpl. split; [|done]. rewrite lookup_app_r by done. by rewrite Nat.sub_diag. }
  destruct Hc0 as [Hi Hst].
  destruct (run_tracks (next_promise (state c)) this t inputs c0 (length (puts c)) _ Hi)
    as (task' & Hi' & Ht').
  - rewrite Hst. lia.
  - by rewrite Hst.
  - rewrite Hdone in Hi'. injection Hi' as <-. exact Ht'.
Qed.

Lemma put_marks_ancestors_witness :
  let r := root [0] in
  let st := (get r "a/b" initial_state).1 in
  let b := (get r "a/b" initial_state).2 in
  let c' := run [Settle 0 true; Resume 0 []; Settle 1 true; Resume 0 [0];
                 Settle 2 true; Resume 0 [0; 0]; Resume 0 [0]; Resume 0 []]
              (step (CallPut b (JNumber 1) 10%Z None) (mkConfig st [])) in
  puts c' !! 0 = Some Fulfilled
  ∧ Forall (λ q, marked 0 (log (state c')) q 10%Z) (ancestors b).
Proof.
  intros r st b c'.
  assert (Hdone : puts c' !! 0 = Some Fulfilled) by (vm_compute; reflexivity).
  split; [exact Hdone|].
  exact (proj1 (put_marks_ancestors b (JNumber 1) 10%Z None (mkConfig st []) _) Hdone).
Defined.

(** C3, as stated, fails on its conclusion about the ancestors.  With [/a/b]
    written at time 10 and then [/a/c] at time 5, both calls fulfilled, the
    last entry handed to the adapter for [/a] is the marker with time 5,
    while [/a/b] holds a value of time 10.  With an adapter that keeps the
    newest of what it is handed: [/a] written as the scalar 5 at time 10,
    then [/a/b] at time 5; [/a] keeps the scalar. *)
Lemma ancestor_older_than_descendant :
  let r := root [0] in
  let st := (get r "a/c" (get r "a/b" initial_state).1).1 in
  let a := (get r "a" st).2 in
  let b := (get r "a/b" st).2 in
  let c := (get r "a/c" st).2 in
  let up i p := [Settle p true; Resume i []; Settle (p + 1) true; Resume i [0];
                 Settle (p + 2) true; Resume i [0; 0]; Resume i [0]; Resume i []] in
  let c1 := run ([CallPut b (JNumber 1) 10%Z None] ++ up 0 0
                 ++ [CallPut c (JNumber 1) 5%Z None] ++ up 1 3) (mkConfig st []) in
  let c2 := run ([CallPut a (JNumber 5) 10%Z None]
                 ++ [Settle 0 true; Resume 0 []; Settle 1 true; Resume 0 [0]; Resume 0 []]
                 ++ [CallPut b (JNumber 1) 5%Z None] ++ up 1 2) (mkConfig st []) in
  (puts c1 = [Fulfilled; Fulfilled]
   ∧ stored (log (state c1)) 0 "/a/b" = Some (JNumber 1, 10%Z)
   ∧ stored (log (state c1)) 0 "/a" = Some (DIRECTORY_VALUE, 5%Z))
  ∧ (puts c2 = [Fulfilled; Fulfilled]
     ∧ newest (log (state c2)) 0 "/a/b" None = Some (JNumber 1, 5%Z)
     ∧ newest (log (state c2)) 0 "/a" None = Some (JNumber 5, 10%Z)).
Proof. vm_compute. done. Qed.

End Ancestors.

(** * Writing a leaf *)

Section LeafWrite.

Lemma children_frame_refl st : children_frame st st.
Proof. done. Qed.

Lemma children_frame_trans st1 st2 st3 :
  children_frame st1 st2 → children_frame st2 st3 → children_frame st1 st3.
Proof.
  intros H1 H2 n. destruct (H1 n) as [<- <-]. apply H2.
Qed.

Lemma children_frame_same_heap st st' : heap st' = heap st → children_frame st st'.
Proof. intros Hheap n. unfold cell. by rewrite Hheap. Qed.

Lemma children_frame_set_cell n f st :
  (∀ c, children (f c) = children c ∧ on_subscriptions (f c) = on_subscriptions c) →
  children_frame st (set_cell n f st).
Proof.
  intros Hf x. unfold cell. simpl. destruct (decide (addr x = addr n)) as [->|Hne].
  - rewrite lookup_alter_eq. destruct (heap st !! addr n); simpl; [apply Hf|done].
  - by rewrite lookup_alter_ne.
Qed.

Lemma table_get_elem sid s t : table_get sid t = Some s → (sid, s) ∈ t.
Proof.
  induction t as [|[k' s'] rest IH]; [done|]. simpl.
  destruct (decide (k' = sid)) as [->|Hne].
  - intros [= ->]. apply list_elem_of_here.
  - intros Hs. apply list_elem_of_further. by apply IH.
Qed.

Ltac children_prims :=
  first [ apply children_frame_refl | apply children_frame_trans
        | intros; apply children_frame_set_cell; done
        | intros; apply children_frame_same_heap; done ].

Lemma children_frame_open_once e this callback recursion typeGuard value st :
  children_frame st (open_once e this callback recursion typeGuard value st).
Proof. apply frame_open_once; children_prims. Qed.

(** [notifyChange] hands its subscribers the function that does nothing. *)
Lemma children_frame_plain cb value path updatedAt st :
  plain_callback cb →
  children_frame st (invoke cb value path updatedAt UnNoop st).1.
Proof.
  destruct cb as [k throws| | | | |e [[k throws| | | | |]|]]; try done; intros _.
  - rewrite invoke_UserCallback. by apply children_frame_same_heap.
  - rewrite invoke_OnceCallback. destruct (resolved e st); [done|]. cbv zeta.
    rewrite invoke_UserCallback. destruct throws; cbn [fst run_unsubscribe];
      by apply children_frame_same_heap.
  - rewrite invoke_OnceCallback. destruct (resolved e st); [done|]. cbv zeta.
    cbn [fst run_unsubscribe]. by apply children_frame_same_heap.
Qed.

Lemma children_frame_on_created cb value path updatedAt st :
  on_created cb →
  children_frame st (invoke cb value path updatedAt UnNoop st).1.
Proof.
  destruct cb as [|e this callback riu recursion typeGuard| | | |]; try done.
  intros Hplain. rewrite invoke_OnLocalCallback. cbv zeta.
  destruct (dropped _ _ _ _); [done|].
  destruct (negb _ && _ && _); [by apply children_frame_plain|].
  assert (H2 : children_frame st (open_once e this callback recursion typeGuard value
                                    (record_latest e value updatedAt st))).
  { eapply children_frame_trans; [|apply children_frame_open_once].
    unfold record_latest. destruct updatedAt; [|done]. by destruct (negb _). }
  destruct (negb _ || _); [|done].
  eapply children_frame_trans; [exact H2|by apply children_frame_plain].
Qed.

Lemma writes_at_refl path st : writes_at path st st.
Proof. exists []. by rewrite app_nil_r. Qed.

Lemma writes_at_trans path st1 st2 st3 :
  writes_at path st1 st2 → writes_at path st2 st3 → writes_at path st1 st3.
Proof.
  intros (l1 & H1 & F1) (l2 & H2 & F2). exists (l1 ++ l2).
  split; [by rewrite H2, H1, app_assoc|by apply Forall_app].
Qed.

Lemma writes_at_same_log path st st' : log st' = log st → writes_at path st st'.
Proof. intros Hlog. exists []. by rewrite app_nil_r. Qed.

Lemma writes_at_emit path ev st : at_path path ev → writes_at path st (emit ev st).
Proof. intros Hev. exists [ev]. split; [done|by constructor]. Qed.

Lemma writes_at_get_child path this seg st : writes_at path st (get_child this seg st).1.
Proof.
  unfold get_child. destruct (children (cell this st) !! seg); by apply writes_at_same_log.
Qed.

Ltac writes_prims :=
  first [ apply writes_at_refl | apply writes_at_trans | apply writes_at_get_child
        | intros; apply writes_at_emit; done
        | intros; apply writes_at_same_log; done ].

Lemma writes_at_notifyChange path this value updatedAt st :
  writes_at path st (notifyChange this value updatedAt st).1.
Proof. apply frame_notifyChange; writes_prims. Qed.

Lemma writes_at_sets path value updatedAt expiresAt adapters st :
  writes_at path st (map_s (adapter_set path value updatedAt expiresAt) adapters st).1.
Proof.
  apply frame_map_s; [apply writes_at_refl|apply writes_at_trans|].
  intros a s. unfold adapter_set. simpl. exists [AdapterSet a path value updatedAt expiresAt
                                                     (next_promise s)].
  split; [done|by constructor].
Qed.

Lemma heap_sets path value updatedAt expiresAt adapters : ∀ st,
  heap (map_s (adapter_set path value updatedAt expiresAt) adapters st).1 = heap st.
Proof.
  induction adapters as [|a ads IH]; intros s; [done|].
  cbn [map_s]. specialize (IH (adapter_set path value updatedAt expiresAt a s).1).
  destruct (adapter_set path value updatedAt expiresAt a s) as [s1 p] eqn:Hs.
  cbn [fst] in IH. destruct (map_s _ ads s1) as [s2 ps]. cbn [fst] in *.
  rewrite IH. unfold adapter_set in Hs. by injection Hs as <- _.
Qed.

(** C4, as amended. For a value that is no non-empty plain object, [put]
    runs [putValue].  When the value is not the directory marker, the child
    cache of the node is emptied first: the adapters are called, and the
    subscribers notified, with the cache already empty, and it is empty when
    [put] reaches its [await].  When the value is the directory marker the
    child cache is left as it was.  In both cases the only writes handed to
    the adapters are for the node's own path: nothing is written, or
    removed, at the paths of the children. *)
Theorem put_leaf_clears_children this value t expiresAt st :
  isNonEmptyObject value = false →
  Forall (λ entry, on_created (callback entry.2)) (on_subscriptions (cell this st)) →
  let st0 := if negb (isDirectory value)
             then set_cell this (with_children (λ _, ∅)) st else st in
  let st' := (put value this t expiresAt st).1 in
  (∃ promises,
     st' = (notifyChange this value (Some t)
              (map_s (adapter_set (id this) value t expiresAt) (adapters this) st0).1).1
     ∧ promises = (map_s (adapter_set (id this) value t expiresAt) (adapters this) st0).2)
  ∧ (isDirectory value = false → children (cell this st') = ∅)
  ∧ (isDirectory value = true → children (cell this st') = children (cell this st))
  ∧ writes_at (id this) st st'.
Proof.
  intros Hleaf Hsubs st0 st'.
  assert (Hst' : st' = (notifyChange this value (Some t)
              (map_s (adapter_set (id this) value t expiresAt) (adapters this) st0).1).1).
  { subst st' st0. rewrite put_unfold, Hleaf, putValue_unfold. cbv zeta.
    destruct (map_s _ (adapters this) _) as [st1 promises]. cbn [fst].
    by destruct (notifyChange this value (Some t) st1) as [st2 [[]|]]. }
  assert (Hcell0 : on_subscriptions (cell this st0) = on_subscriptions (cell this st)
                   ∧ children (cell this st0)
                     = if negb (isDirectory value) then ∅ else children (cell this st)).
  { subst st0. destruct (negb (isDirectory value)); [|done].
    unfold cell. simpl. rewrite lookup_alter_eq. by destruct (heap st !! addr this). }
  destruct Hcell0 as [Hsubs0 Hch0].
  pose proof (heap_sets (id this) value t expiresAt (adapters this) st0) as Hsets.
  set (st1 := (map_s (adapter_set (id this) value t expiresAt) (adapters this) st0).1) in *.
  assert (Hnotify : children_frame st1 (notifyChange this value (Some t) st1).1).
  { unfold notifyChange, bind, gets.
    apply (inv_for_each (children_frame st1)); [|done].
    intros sid Hsid s Hs. eapply children_frame_trans; [exact Hs|].
    unfold notify_subscriber, bind, gets.
    destruct (table_get sid _) as [entry|] eqn:Hentry; [|done].
    destruct (_ && _); [done|].
    apply children_frame_on_created.
    assert (Hin : (sid, entry) ∈ on_subscriptions (cell this st)).
    { rewrite <- Hsubs0. apply table_get_elem in Hentry.
      rewrite (proj2 (Hs this)) in Hentry. unfold cell in *. by rewrite <- Hsets. }
    rewrite Forall_forall in Hsubs. by apply (Hsubs (sid, entry)). }
  assert (Hch : children (cell this st')
                = if negb (isDirectory value) then ∅ else children (cell this st)).
  { rewrite Hst', (proj1 (Hnotify this)), <- Hch0. unfold cell. by rewrite Hsets. }
  split; [by eexists|]. split; [|split].
  - intros Hdir. by rewrite Hch, Hdir.
  - intros Hdir. by rewrite Hch, Hdir.
  - rewrite Hst'. eapply writes_at_trans; [|apply writes_at_notifyChange].
    eapply writes_at_trans; [|apply writes_at_sets].
    apply writes_at_same_log. subst st0. by destruct (negb _).
Qed.

Lemma put_leaf_clears_children_witness :
  let r := root [0] in
  let st := (on r (UserCallback 7 false) false 1 (λ v, v)
               (get r "a" initial_state).1).1 in
  children (cell r st) ≠ ∅
  ∧ children (cell r (put (JNumber 5) r 20%Z None st).1) = ∅.
Proof.
  intros r st. split.
  - intros Hempty. assert (Ha : children (cell r st) !! "a" = None)
      by (rewrite Hempty; apply lookup_empty).
    vm_compute in Ha. discriminate.
  - refine (proj1 (proj2 (put_leaf_clears_children r (JNumber 5) 20%Z None st eq_refl _))
              eq_refl).
    repeat constructor.
Defined.

(** C4, as stated, fails on its consequence for [map] and [open].  [/a/b] is
    written, then the scalar 5 is written to [/a]: the cache of [/a] is
    empty, but the only writes were for [/a] and the root, and the entry of
    the adapter for [/a/b] is the one it was handed.  A [map] made
    afterwards on [/a], when the adapter lists that entry, delivers the
    child; so does an [open]. *)
Lemma children_still_listed_after_leaf_write :
  let r := root [0] in
  let st := (get r "a/b" initial_state).1 in
  let a := (get r "a" st).2 in
  let b := (get r "a/b" st).2 in
  let c1 := run [CallPut b (JNumber 1) 10%Z None;
                 Settle 0 true; Resume 0 []; Settle 1 true; Resume 0 [0];
                 Settle 2 true; Resume 0 [0; 0]; Resume 0 [0]; Resume 0 [];
                 CallPut a (JNumber 5) 20%Z None;
                 Settle 3 true; Resume 1 []; Settle 4 true; Resume 1 [0]; Resume 1 []]
              (mkConfig st []) in
  let c2 := run [CallMap a 9 false 0 (λ v, v);
                 Notify 0 (JNumber 1) "/a/b" (Some 10%Z)] c1 in
  let c3 := run [CallOpen a 9 false 0 (λ v, v);
                 Notify 0 (JNumber 1) "/a/b" (Some 10%Z)] c1 in
  puts c1 = [Fulfilled; Fulfilled]
  ∧ children (cell a (state c1)) = ∅
  ∧ stored (log (state c1)) 0 "/a" = Some (JNumber 5, 20%Z)
  ∧ stored (log (state c1)) 0 "/a/b" = Some (JNumber 1, 10%Z)
  ∧ (∃ u, drop (length (log (state c1))) (log (state c2))
          = [Call 9 (JNumber 1) "/a/b" (Some 10%Z) u])
  ∧ drop (length (log (state c1))) (log (state c3))
    = [Call 9 (JObject [("b", JNumber 1)]) "/a" (Some 10%Z) UnNoop].
Proof. vm_compute. repeat split; eauto. Qed.

End LeafWrite.

(** * Unsubscribing *)

Section Registered.

Lemma table_get_set k' k s t :
  table_get k' (table_set k s t) = if decide (k' = k) then Some s else table_get k' t.
Proof.
  induction t as [|[k0 s0] rest IH]; simpl.
  - destruct (decide (k = k')), (decide (k' = k)); done || congruence.
  - destruct (decide (k0 = k)) as [->|Hne]; simpl.
    + destruct (decide (k = k')), (decide (k' = k)); done || congruence.
    + destruct (decide (k0 = k')) as [->|Hne'].
      * by rewrite decide_False.
      * exact IH.
Qed.

Lemma table_get_delete k' k t :
  table_get k' (table_delete k t) = if decide (k' = k) then None else table_get k' t.
Proof.
  unfold table_delete. induction t as [|[k0 s0] rest IH]; [by destruct (decide _)|].
  rewrite filter_cons. simpl. destruct (decide (k0 ≠ k)) as [Hne|Heq]; simpl.
  - destruct (decide (k0 = k')) as [->|Hne']; [by rewrite decide_False|exact IH].
  - assert (k0 = k) as -> by (by destruct (decide (k0 = k)); [|contradiction Heq]).
    rewrite IH. destruct (decide (k' = k)) as [->|Hne']; [done|].
    by rewrite decide_False.
Qed.

Lemma table_delete_absent k t : table_get k t = None → table_delete k t = t.
Proof.
  unfold table_delete. induction t as [|[k0 s0] rest IH]; [done|]. simpl.
  destruct (decide (k0 = k)) as [->|Hne]; [done|]. intros Hrest.
  rewrite filter_cons, decide_True by done. by rewrite IH.
Qed.

Lemma registered_on_table n sid s st :
  table_get sid (on_subscriptions (cell n st)) = Some s →
  registered st (OnSub (addr n) sid) = Some (callback s).
Proof.
  unfold cell. simpl. destruct (heap st !! addr n) as [c|]; simpl; [by intros ->|done].
Qed.

Lemma registered_map_table n sid s st :
  table_get sid (map_subscriptions (cell n st)) = Some s →
  registered st (MapSub (addr n) sid) = Some (callback s).
Proof.
  unfold cell. simpl. destruct (heap st !! addr n) as [c|]; simpl; [by intros ->|done].
Qed.

Lemma registered_listener l lst st :
  listeners st !! l = Some lst → registered st (Lis l) = Some (l_callback lst).
Proof. simpl. by intros ->. Qed.

Lemma registered_ext st st' pl :
  heap st' = heap st → listeners st' = listeners st → registered st' pl = registered st pl.
Proof. intros Hh Hl. destruct pl; simpl; by rewrite ?Hh, ?Hl. Qed.

Lemma registered_set_cell n f st pl :
  (∀ c, on_subscriptions (f c) = on_subscriptions c
        ∧ map_subscriptions (f c) = map_subscriptions c) →
  registered (set_cell n f st) pl = registered st pl.
Proof.
  intros Hf. destruct pl as [a sid|a sid|l]; simpl; [| |done].
  - destruct (decide (a = addr n)) as [->|Hne]; [|by rewrite lookup_alter_ne].
    rewrite lookup_alter_eq. destruct (heap st !! addr n) as [c|]; simpl; [|done].
    by rewrite (proj1 (Hf c)).
  - destruct (decide (a = addr n)) as [->|Hne]; [|by rewrite lookup_alter_ne].
    rewrite lookup_alter_eq. destruct (heap st !! addr n) as [c|]; simpl; [|done].
    by rewrite (proj2 (Hf c)).
Qed.

Lemma registered_on_set n sid s st pl cb :
  registered (set_cell n (with_on_subscriptions (table_set sid s)) st) pl = Some cb →
  registered st pl = Some cb ∨ (pl = OnSub (addr n) sid ∧ cb = callback s).
Proof.
  destruct pl as [a sid'|a sid'|l]; simpl; [| |by left].
  - destruct (decide (a = addr n)) as [->|Hne]; [|rewrite lookup_alter_ne by done; by left].
    rewrite lookup_alter_eq. destruct (heap st !! addr n) as [c|]; simpl; [|done].
    rewrite table_get_set. destruct (decide (sid' = sid)) as [->|]; [|by left].
    simpl. intros [= <-]. by right.
  - destruct (decide (a = addr n)) as [->|Hne]; [|rewrite lookup_alter_ne by done; by left].
    rewrite lookup_alter_eq. destruct (heap st !! addr n) as [c|]; simpl; [by left|done].
Qed.

Lemma registered_map_set n sid s st pl cb :
  registered (set_cell n (with_map_subscriptions (table_set sid s)) st) pl = Some cb →
  registered st pl = Some cb ∨ (pl = MapSub (addr n) sid ∧ cb = callback s).
Proof.
  destruct pl as [a sid'|a sid'|l]; simpl; [| |by left].
  - destruct (decide (a = addr n)) as [->|Hne]; [|rewrite lookup_alter_ne by done; by left].
    rewrite lookup_alter_eq. destruct (heap st !! addr n) as [c|]; simpl; [by left|done].
  - destruct (decide (a = addr n)) as [->|Hne]; [|rewrite lookup_alter_ne by done; by left].
    rewrite lookup_alter_eq. destruct (heap st !! addr n) as [c|]; simpl; [|done].
    rewrite table_get_set. destruct (decide (sid' = sid)) as [->|]; [|by left].
    simpl. intros [= <-]. by right.
Qed.

Lemma registered_on_delete n sid st pl :
  registered (set_cell n (with_on_subscriptions (table_delete sid)) st) pl
  = if decide (pl = OnSub (addr n) sid) then None else registered st pl.
Proof.
  destruct pl as [a sid'|a sid'|l]; cbn [registered set_cell set_heap heap listeners];
    [| |by rewrite decide_False].
  - destruct (decide (a = addr n)) as [->|Hne].
    + rewrite lookup_alter_eq. destruct (heap st !! addr n) as [c|];
        cbn [mbind option_bind fmap option_fmap option_map with_on_subscriptions
             with_map_subscriptions on_subscriptions map_subscriptions].
      * rewrite table_get_delete. destruct (decide (sid' = sid)) as [->|Hs].
        -- by rewrite decide_True.
        -- rewrite decide_False; [done|congruence].
      * by destruct (decide _).
    + rewrite lookup_alter_ne by done. rewrite decide_False; [done|congruence].
  - rewrite decide_False by done.
    destruct (decide (a = addr n)) as [->|Hne]; [|by rewrite lookup_alter_ne].
    rewrite lookup_alter_eq. by destruct (heap st !! addr n).
Qed.

Lemma registered_map_delete n sid st pl :
  registered (set_cell n (with_map_subscriptions (table_delete sid)) st) pl
  = if decide (pl = MapSub (addr n) sid) then None else registered st pl.
Proof.
  destruct pl as [a sid'|a sid'|l]; cbn [registered set_cell set_heap heap listeners];
    [| |by rewrite decide_False].
  - rewrite decide_False by done.
    destruct (decide (a = addr n)) as [->|Hne]; [|by rewrite lookup_alter_ne].
    rewrite lookup_alter_eq. by destruct (heap st !! addr n).
  - destruct (decide (a = addr n)) as [->|Hne].
    + rewrite lookup_alter_eq. destruct (heap st !! addr n) as [c|];
        cbn [mbind option_bind fmap option_fmap option_map with_on_subscriptions
             with_map_subscriptions on_subscriptions map_subscriptions].
      * rewrite table_get_delete. destruct (decide (sid' = sid)) as [->|Hs].
        -- by rewrite decide_True.
        -- rewrite decide_False; [done|congruence].
      * by destruct (decide _).
    + rewrite lookup_alter_ne by done. rewrite decide_False; [done|congruence].
Qed.

Lemma registered_unlisten l st pl :
  registered (adapter_unsubscribe l st) pl
  = if decide (pl = Lis l) then None else registered st pl.
Proof.
  destruct pl as [a sid|a sid|l']; cbn [registered]; [by rewrite decide_False..|].
  unfold adapter_unsubscribe; cbn [listeners set_listeners].
  destruct (decide (l' = l)) as [->|Hne].
  - by rewrite decide_True, lookup_delete_eq.
  - rewrite lookup_delete_ne by done. rewrite decide_False; [done|congruence].
Qed.

Lemma registered_register lst st pl cb :
  registered (register lst st).1 pl = Some cb →
  registered st pl = Some cb ∨ (pl = Lis (next_listener st) ∧ cb = l_callback lst).
Proof.
  destruct pl as [a sid|a sid|l]; simpl; [by left..|].
  destruct (decide (l = next_listener st)) as [->|Hne].
  - rewrite lookup_insert_eq. simpl. intros [= <-]. by right.
  - rewrite lookup_insert_ne by done. by left.
Qed.

End Registered.

Section Quiet.

Lemma calls_app k l1 l2 : calls k (l1 ++ l2) = calls k l1 ++ calls k l2.
Proof. apply List.filter_app. Qed.

Lemma quiet_refl st : quiet st st.
Proof. done. Qed.

Lemma quiet_trans st1 st2 st3 : quiet st1 st2 → quiet st2 st3 → quiet st1 st3.
Proof.
  intros (Ho1 & Hm1 & Hn1 & Hl1 & Hr1) (Ho2 & Hm2 & Hn2 & Hl2 & Hr2).
  repeat split; [congruence..| |].
  - intros k. by rewrite Hl2.
  - intros pl cb Hpl. by apply Hr1, Hr2.
Qed.

Lemma quiet_same st st' :
  heap st' = heap st → listeners st' = listeners st → on_envs st' = on_envs st →
  map_envs st' = map_envs st → next_env st' = next_env st → log st' = log st →
  quiet st st'.
Proof.
  intros Hh Hl Ho Hm Hn Hlog. repeat split; [done..| |].
  - intros k. by rewrite Hlog.
  - intros pl cb. by rewrite (registered_ext st st' pl Hh Hl).
Qed.

Lemma quiet_set_cell n f st :
  (∀ c, on_subscriptions (f c) = on_subscriptions c
        ∧ map_subscriptions (f c) = map_subscriptions c) →
  quiet st (set_cell n f st).
Proof.
  intros Hf. repeat split; [done..|]. intros pl cb. by rewrite registered_set_cell.
Qed.

Lemma quiet_on_delete n sid st :
  quiet st (set_cell n (with_on_subscriptions (table_delete sid)) st).
Proof.
  repeat split; [done..|]. intros pl cb. rewrite registered_on_delete.
  by destruct (decide _).
Qed.

Lemma quiet_map_delete n sid st :
  quiet st (set_cell n (with_map_subscriptions (table_delete sid)) st).
Proof.
  repeat split; [done..|]. intros pl cb. rewrite registered_map_delete.
  by destruct (decide _).
Qed.

Lemma quiet_unlisten l st : quiet st (adapter_unsubscribe l st).
Proof.
  repeat split; [done..|]. intros pl cb. rewrite registered_unlisten.
  by destruct (decide _).
Qed.

Lemma quiet_get_child this seg st : quiet st (get_child this seg st).1.
Proof.
  unfold get_child. destruct (children (cell this st) !! seg); [apply quiet_refl|].
  cbn [new_child fst snd]. eapply quiet_trans; [|by apply quiet_set_cell].
  repeat split; [done..|]. intros pl cb.
  destruct pl as [a sid|a sid|l]; cbn [registered set_next_addr set_heap heap listeners addr];
    [| |done].
  - destruct (decide (a = next_addr st)) as [->|Hne].
    + by rewrite lookup_insert_eq.
    + by rewrite lookup_insert_ne.
  - destruct (decide (a = next_addr st)) as [->|Hne].
    + by rewrite lookup_insert_eq.
    + by rewrite lookup_insert_ne.
Qed.

Lemma quiet_get this key st : quiet st (get this key st).1.
Proof. apply frame_get; [apply quiet_refl|apply quiet_trans|apply quiet_get_child]. Qed.

Lemma quiet_adapter_set path value updatedAt expiresAt a st :
  quiet st (adapter_set path value updatedAt expiresAt a st).1.
Proof.
  repeat split; [done..| |done]. intros k. simpl. rewrite calls_app. simpl. apply app_nil_r.
Qed.

Lemma quiet_resolve e value st : quiet st (emit (Resolve e value) st).
Proof.
  repeat split; [done..| |done]. intros k. simpl. rewrite calls_app. simpl. apply app_nil_r.
Qed.

Lemma quiet_foldl {A} (f : State → A → State) xs :
  (∀ x st, quiet st (f st x)) → ∀ st, quiet st (foldl f st xs).
Proof. apply (frame_foldl quiet quiet_refl quiet_trans). Qed.

Lemma quiet_unsubscribe_map recursion : ∀ h st, quiet st (unsubscribe_map recursion h st).
Proof.
  induction recursion as [|r IH]; intros h st; cbn [unsubscribe_map];
    set (st1 := set_cell (mh_node h) _ st);
    set (st2 := foldl _ st1 (adapterSubs _));
    assert (H1 : quiet st st1) by apply quiet_map_delete;
    assert (H2 : quiet st1 st2)
      by (apply quiet_foldl; intros l s; apply quiet_unlisten).
  - by eapply quiet_trans.
  - eapply quiet_trans; [exact H1|]. eapply quiet_trans; [exact H2|].
    apply quiet_foldl. intros entry s. apply IH.
Qed.

Lemma quiet_run_unsubscribe u st : quiet st (run_unsubscribe u st).
Proof.
  destruct u as [|l|this uid e r|r h|[p|] sid]; cbn [run_unsubscribe]; try apply quiet_refl.
  - apply quiet_unlisten.
  - unfold unsubscribe_on. set (st1 := set_cell this _ st). set (st2 := foldl _ st1 _).
    assert (H1 : quiet st st1) by apply quiet_on_delete.
    assert (H2 : quiet st1 st2)
      by (apply quiet_foldl; intros l s; apply quiet_unlisten).
    destruct (openUnsubscribe (on_env e st2)); [|by eapply quiet_trans].
    eapply quiet_trans; [exact H1|]. eapply quiet_trans; [exact H2|].
    apply quiet_unsubscribe_map.
  - apply quiet_unsubscribe_map.
  - apply quiet_map_delete.
Qed.

(** The subscriptions reached depend on the environments only. *)
Lemma nested_ext r : ∀ h st st',
  map_envs st' = map_envs st → nested r h st' = nested r h st.
Proof.
  induction r as [|r IH]; intros h st st' Hm; [done|].
  cbn [nested]. f_equal. apply list_bind_ext; [|unfold map_env; by rewrite Hm].
  intros entry. by apply IH.
Qed.

Lemma tree_of_ext u st st' :
  on_envs st' = on_envs st → map_envs st' = map_envs st → tree_of u st' = tree_of u st.
Proof.
  intros Ho Hm. destruct u as [|l|this uid e r|r h|p sid]; cbn [tree_of]; try done.
  - unfold on_env. rewrite Ho. destruct (openUnsubscribe _); [by apply nested_ext|done].
  - by apply nested_ext.
Qed.

Lemma quiet_tree_of u st st' : quiet st st' → tree_of u st' = tree_of u st.
Proof. intros (Ho & Hm & _). by apply tree_of_ext. Qed.

Lemma quiet_none st st' pl : quiet st st' → registered st pl = None → registered st' pl = None.
Proof.
  intros (_ & _ & _ & _ & Hr) Hpl. destruct (registered st' pl) as [cb|] eqn:Hcb; [|done].
  rewrite (Hr pl cb Hcb) in Hpl. done.
Qed.

Lemma quiet_absent h st st' : quiet st st' → absent h st → absent h st'.
Proof.
  intros Hq [Hsub Hlis]. split; [by eapply quiet_none|].
  intros l Hl. eapply quiet_none; [done|]. apply Hlis.
  destruct Hq as (_ & Hm & _). unfold map_env in *. by rewrite <- Hm.
Qed.

Lemma quiet_torn u st st' : quiet st st' → torn u st → torn u st'.
Proof.
  intros Hq. pose proof (quiet_tree_of u st st' Hq) as Htree.
  destruct u as [|l|this uid e r|r h|[p|] sid]; cbn [torn]; try done.
  - by apply quiet_none.
  - intros (Hon & Hlis & Hmap). split; [by eapply quiet_none|]. split.
    + intros l Hl. eapply quiet_none; [done|]. apply Hlis.
      destruct Hq as (Ho & _). unfold on_env in *. by rewrite <- Ho.
    + intros rh Hrh. eapply quiet_absent; [done|]. apply Hmap. by rewrite <- Htree.
  - intros Hmap rh Hrh. eapply quiet_absent; [done|]. apply Hmap. by rewrite <- Htree.
  - by apply quiet_none.
Qed.

(** After a loop of quiet steps, what one of them has established and quiet
    steps keep still holds. *)
Lemma foldl_quiet_established {A} (f : State → A → State) (P : State → Prop) xs x :
  (∀ s y, quiet s (f s y)) → (∀ s s', quiet s s' → P s → P s') →
  x ∈ xs → ∀ st, (∀ s, quiet st s → P (f s x)) → P (foldl f st xs).
Proof.
  intros Hf HP. induction xs as [|y ys IH]; intros Hx st Hst; [by apply elem_of_nil in Hx|].
  apply elem_of_cons in Hx as [->|Hx]; simpl.
  - apply (HP (f st y)); [|by apply Hst, quiet_refl].
    apply quiet_foldl. intros z s. apply Hf.
  - apply IH; [done|]. intros s Hs. apply Hst. eapply quiet_trans; [apply Hf|exact Hs].
Qed.

Lemma unlisten_all ls : ∀ st l,
  l ∈ ls → registered (foldl (λ s l, adapter_unsubscribe l s) st ls) (Lis l) = None.
Proof.
  intros st l Hl.
  apply (foldl_quiet_established (λ s l, adapter_unsubscribe l s)
           (λ s, registered s (Lis l) = None) ls l); [| |done|].
  - intros s y. apply quiet_unlisten.
  - intros s s' Hq. by apply quiet_none.
  - intros s _. by rewrite registered_unlisten, decide_True.
Qed.

(** [unsubscribe] of [map] empties the places of every subscription it
    reaches. *)
Lemma unsubscribe_map_absent r : ∀ h st rh,
  rh ∈ nested r h st → absent rh.2 (unsubscribe_map r h st).
Proof.
  induction r as [|r IH]; intros h st rh Hrh; cbn [unsubscribe_map];
    set (st1 := set_cell (mh_node h) _ st);
    set (st2 := foldl _ st1 (adapterSubs _));
    assert (H1 : quiet st st1) by apply quiet_map_delete;
    assert (H2 : quiet st1 st2)
      by (apply quiet_foldl; intros l s; apply quiet_unlisten);
    assert (Hh : absent h st2)
      by (split;
          [eapply quiet_none; [exact H2|]; subst st1;
           by rewrite registered_map_delete, decide_True
          |intros l Hl; subst st2; apply unlisten_all;
           destruct H2 as (_ & Hm & _); unfold map_env in *; by rewrite <- Hm]).
  - cbn [nested] in Hrh. apply list_elem_of_singleton in Hrh as ->. exact Hh.
  - assert (H3 : ∀ s, quiet s (foldl (λ s entry, unsubscribe_map r entry.2 s) s
                                  (openUnsubs (map_env (mh_env h) st2)))).
    { intros s. apply quiet_foldl. intros entry s'. apply quiet_unsubscribe_map. }
    cbn [nested] in Hrh. apply elem_of_cons in Hrh as [->|Hrh].
    + eapply quiet_absent; [apply H3|exact Hh].
    + apply list_elem_of_bind in Hrh as (entry & Hrh & Hentry).
      assert (H02 : quiet st st2) by (by eapply quiet_trans).
      apply (foldl_quiet_established (λ s entry, unsubscribe_map r entry.2 s)
               (absent rh.2) _ entry).
      * intros s y. apply quiet_unsubscribe_map.
      * intros s s'. apply quiet_absent.
      * destruct H02 as (_ & Hm & _). unfold map_env. by rewrite Hm.
      * intros s Hs. apply IH. rewrite (nested_ext r entry.2 st s); [done|].
        destruct H02 as (_ & Hm & _), Hs as (_ & Hm' & _). congruence.
Qed.

(** Everything an unsubscribe function clears is gone once it has run. *)
Lemma run_unsubscribe_torn u st : torn u (run_unsubscribe u st).
Proof.
  destruct u as [|l|this uid e r|r h|[p|] sid]; cbn [run_unsubscribe torn]; try done.
  - by rewrite registered_unlisten, decide_True.
  - unfold unsubscribe_on. set (st1 := set_cell this _ st). set (st2 := foldl _ st1 _).
    assert (H1 : quiet st st1) by apply quiet_on_delete.
    assert (H2 : quiet st1 st2)
      by (apply quiet_foldl; intros l s; apply quiet_unlisten).
    set (st3 := match openUnsubscribe (on_env e st2) with
                | Some h => unsubscribe_map (r - 1) h st2 | None => st2 end).
    assert (H3 : quiet st2 st3).
    { subst st3. destruct (openUnsubscribe _); [apply quiet_unsubscribe_map|apply quiet_refl]. }
    split; [|split].
    + eapply quiet_none; [exact H3|]. eapply quiet_none; [exact H2|]. subst st1.
      by rewrite registered_on_delete, decide_True.
    + intros l Hl. eapply quiet_none; [exact H3|]. subst st2. apply unlisten_all.
      destruct H2 as (Ho2 & _), H3 as (Ho3 & _). unfold on_env in *.
      by rewrite <- Ho2, <- Ho3.
    + intros rh. rewrite (quiet_tree_of _ st2 st3 H3). cbn [tree_of]. subst st3.
      destruct (openUnsubscribe (on_env e st2)) as [h|]; [|by intros ?%elem_of_nil].
      apply unsubscribe_map_absent.
  - intros rh. rewrite (quiet_tree_of _ st _ (quiet_unsubscribe_map r h st)). cbn [tree_of].
    apply unsubscribe_map_absent.
  - by rewrite registered_map_delete, decide_True.
Qed.

Lemma state_eta st h l :
  h = heap st → l = listeners st →
  mkState h (next_addr st) (on_envs st) (map_envs st) (open_envs st) (once_envs st)
    (next_env st) l (next_listener st) (settled st) (next_promise st) (log st) = st.
Proof. intros -> ->. by destruct st. Qed.

Lemma on_delete_noop n sid st :
  registered st (OnSub (addr n) sid) = None →
  set_cell n (with_on_subscriptions (table_delete sid)) st = st.
Proof.
  intros Hr. unfold set_cell, set_heap. apply state_eta; [|done].
  apply alter_id. intros c Hc. simpl in Hr. rewrite Hc in Hr. simpl in Hr.
  destruct c as [ch ons maps cnt]. unfold with_on_subscriptions. simpl in *. f_equal.
  apply table_delete_absent. by destruct (table_get sid ons).
Qed.

Lemma map_delete_noop n sid st :
  registered st (MapSub (addr n) sid) = None →
  set_cell n (with_map_subscriptions (table_delete sid)) st = st.
Proof.
  intros Hr. unfold set_cell, set_heap. apply state_eta; [|done].
  apply alter_id. intros c Hc. simpl in Hr. rewrite Hc in Hr. simpl in Hr.
  destruct c as [ch ons maps cnt]. unfold with_map_subscriptions. simpl in *. f_equal.
  apply table_delete_absent. by destruct (table_get sid maps).
Qed.

Lemma unlisten_noop l st : registered st (Lis l) = None → adapter_unsubscribe l st = st.
Proof.
  intros Hr. unfold adapter_unsubscribe, set_listeners. apply state_eta; [done|].
  apply delete_id. simpl in Hr. by destruct (listeners st !! l).
Qed.

Lemma unlisten_all_noop ls : ∀ st,
  (∀ l, l ∈ ls → registered st (Lis l) = None) →
  foldl (λ s l, adapter_unsubscribe l s) st ls = st.
Proof.
  induction ls as [|l ls IH]; intros st Hls; [done|]. simpl.
  rewrite unlisten_noop by (apply Hls; left). apply IH. intros l' Hl'. apply Hls. by right.
Qed.

Lemma unsubscribe_map_noop r : ∀ h st,
  (∀ rh, rh ∈ nested r h st → absent rh.2 st) → unsubscribe_map r h st = st.
Proof.
  induction r as [|r IH]; intros h st Habs; cbn [unsubscribe_map];
    destruct (Habs (_, h) ltac:(cbn [nested]; left)) as [Hsub Hlis]; simpl in Hsub, Hlis;
    rewrite map_delete_noop by done; rewrite unlisten_all_noop by done; [done|].
  assert (Hall : ∀ entries, entries ⊆ openUnsubs (map_env (mh_env h) st) →
            foldl (λ s entry, unsubscribe_map r entry.2 s) st entries = st).
  { induction entries as [|entry entries IHe]; intros Hsub'; [done|]. simpl.
    rewrite IH.
    - apply IHe. intros x Hx. apply Hsub'. by right.
    - intros rh Hrh. apply Habs. cbn [nested]. right. apply list_elem_of_bind.
      exists entry. split; [done|]. apply Hsub'. left. }
  by apply Hall.
Qed.

(** With everything already gone, calling the unsubscribe function changes
    nothing. *)
Lemma torn_noop u st : torn u st → run_unsubscribe u st = st.
Proof.
  destruct u as [|l|this uid e r|r h|[p|] sid]; cbn [run_unsubscribe torn]; try done.
  - apply unlisten_noop.
  - intros (Hon & Hlis & Hmap). unfold unsubscribe_on.
    rewrite on_delete_noop by done. rewrite unlisten_all_noop by done.
    cbn [tree_of] in Hmap. destruct (openUnsubscribe (on_env e st)); [|done].
    by apply unsubscribe_map_noop.
  - apply unsubscribe_map_noop.
  - apply map_delete_noop.
Qed.

Lemma run_unsubscribe_twice u st :
  run_unsubscribe u (run_unsubscribe u st) = run_unsubscribe u st.
Proof. apply torn_noop, run_unsubscribe_torn. Qed.

End Quiet.

Section Registration.

(** What a run of [adapter.get] or [adapter.list] over the adapters leaves. *)
Lemma registers_spec (mk : nat → Listener) ads : ∀ st st' ls,
  map_s (λ a, register (mk a)) ads st = (st', ls) →
  heap st' = heap st ∧ on_envs st' = on_envs st ∧ map_envs st' = map_envs st
  ∧ next_env st' = next_env st ∧ log st' = log st
  ∧ ∀ pl cb, registered st' pl = Some cb →
      registered st pl = Some cb ∨ ∃ l a, l ∈ ls ∧ pl = Lis l ∧ cb = l_callback (mk a).
Proof.
  induction ads as [|a ads IH]; intros st st' ls; cbn [map_s].
  { intros [= <- <-]. by repeat split; auto. }
  destruct (register (mk a) st) as [st1 l] eqn:Hreg.
  destruct (map_s _ ads st1) as [st2 ls'] eqn:Hrest. intros [= <- <-].
  destruct (IH st1 st2 ls' Hrest) as (Hh & Ho & Hm & Hn & Hl & Hr).
  assert (Hst1 : st1 = (register (mk a) st).1) by (by rewrite Hreg).
  assert (Hl1 : l = next_listener st) by (unfold register in Hreg; by injection Hreg).
  repeat split; try (rewrite ?Hh, ?Ho, ?Hm, ?Hn, ?Hl, Hst1; done).
  intros pl cb Hpl. destruct (Hr pl cb Hpl) as [Hold|(l' & a' & Hl' & -> & ->)].
  - rewrite Hst1 in Hold. apply registered_register in Hold as [Hold|[-> ->]]; [by left|].
    right. exists l, a. split; [left|by rewrite Hl1].
  - right. exists l', a'. split; [by right|done].
Qed.

Lemma map_handle_spec n c r tg st :
  let res := map_handle n c r tg st in
  ∃ subs,
    res.2 = mkMapHandle n (counter (cell n st)) (next_env st)
    ∧ next_env res.1 = S (next_env st)
    ∧ on_envs res.1 = on_envs st
    ∧ map_envs res.1 = <[next_env st := mkMapEnv ∅ subs []]> (map_envs st)
    ∧ log res.1 = log st
    ∧ ∀ pl cb, registered res.1 pl = Some cb →
        registered st pl = Some cb
        ∨ (pl = MapSub (addr n) (counter (cell n st)) ∧ cb = MapTypedCallback c tg)
        ∨ ∃ l, pl = Lis l ∧ l ∈ subs
               ∧ cb = MapListCallback (next_env st) n (counter (cell n st)) c r tg.
Proof.
  unfold map_handle, next_counter, fresh_env. cbv zeta.
  set (sid := counter (cell n st)). set (e := next_env st).
  set (st4 := set_map_envs _ (set_next_env _ (set_cell n (with_map_subscriptions _)
                (set_cell n (with_counter _) st)))).
  destruct (map_s (adapter_list (id n) _) (adapters n) st4) as [st5 subs] eqn:Hms.
  destruct (registers_spec (λ a, mkListener a true (id n) (MapListCallback e n sid c r tg))
              (adapters n) st4 st5 subs Hms) as (Hh & Ho & Hm & Hn & Hl & Hr).
  cbn [fst snd] in *.
  exists subs. repeat split.
  - simpl. by rewrite Hn.
  - simpl. by rewrite Ho.
  - simpl. rewrite Hm. subst st4. simpl. by rewrite insert_insert_eq.
  - simpl. by rewrite Hl.
  - intros pl cb Hpl.
    change (registered st5 pl = Some cb) in Hpl.
    destruct (Hr pl cb Hpl) as [Hold|(l & a & Hl' & -> & ->)].
    + change (registered (set_cell n (with_map_subscriptions
                            (table_set sid (mkSubscription (MapTypedCallback c tg) r)))
                (set_cell n (with_counter (S sid)) st)) pl = Some cb) in Hold.
      apply registered_map_set in Hold as [Hold|[-> ->]]; [|right; by left].
      rewrite registered_set_cell in Hold by done. by left.
    + right. right. by exists l.
Qed.

Lemma open_handle_spec n c r tg st :
  let res := open_handle n c r tg st in
  let wrapped := OpenCallback (next_env st) n c tg in
  ∃ subs,
    res.2 = mkMapHandle n (counter (cell n st)) (S (next_env st))
    ∧ next_env res.1 = S (S (next_env st))
    ∧ on_envs res.1 = on_envs st
    ∧ map_envs res.1 = <[S (next_env st) := mkMapEnv ∅ subs []]> (map_envs st)
    ∧ log res.1 = log st
    ∧ ∀ pl cb, registered res.1 pl = Some cb →
        registered st pl = Some cb
        ∨ (pl = MapSub (addr n) (counter (cell n st))
           ∧ cb = MapTypedCallback wrapped (λ value, value))
        ∨ ∃ l, pl = Lis l ∧ l ∈ subs
               ∧ cb = MapListCallback (S (next_env st)) n (counter (cell n st)) wrapped r
                        (λ value, value).
Proof.
  unfold open_handle, fresh_env. cbv zeta.
  set (st2 := set_open_envs _ _).
  destruct (map_handle_spec n (OpenCallback (next_env st) n c tg) r (λ value, value) st2)
    as (subs & Hh & Hn & Ho & Hm & Hl & Hr).
  exists subs. by repeat split.
Qed.

Lemma on_spec this c riu r tg st :
  let res := on this c riu r tg st in
  ∃ unsubs,
    res.2 = UnOn this (counter (cell this st)) (next_env st) r
    ∧ next_env res.1 = S (next_env st)
    ∧ on_envs res.1 = <[next_env st := mkOnEnv None None unsubs]> (on_envs st)
    ∧ map_envs res.1 = map_envs st
    ∧ log res.1 = log st
    ∧ ∀ pl cb, registered res.1 pl = Some cb →
        registered st pl = Some cb
        ∨ (cb = OnLocalCallback (next_env st) this c riu r tg
           ∧ (pl = OnSub (addr this) (counter (cell this st))
              ∨ ∃ l, pl = Lis l ∧ l ∈ unsubs)).
Proof.
  unfold on, next_counter, fresh_env. cbv zeta.
  set (e := next_env st).
  set (st2 := set_on_envs _ (set_next_env _ st)).
  assert (Hcell : cell this st2 = cell this st) by done.
  rewrite Hcell. set (uid := counter (cell this st)).
  set (st4 := set_cell this (with_on_subscriptions _) _).
  destruct (map_s (adapter_get (id this) _) (adapters this) st4) as [st5 unsubs] eqn:Hms.
  destruct (registers_spec (λ a, mkListener a false (id this)
              (OnLocalCallback e this c riu r tg)) (adapters this) st4 st5 unsubs Hms)
    as (Hh & Ho & Hm & Hn & Hl & Hr).
  cbn [fst snd] in *.
  exists unsubs. repeat split.
  - simpl. by rewrite Hn.
  - unfold set_adapterUnsubscribes, on_env. simpl. rewrite Ho. subst st4 st2. simpl.
    by rewrite lookup_insert_eq, insert_insert_eq.
  - simpl. by rewrite Hm.
  - simpl. by rewrite Hl.
  - intros pl cb Hpl.
    change (registered st5 pl = Some cb) in Hpl.
    destruct (Hr pl cb Hpl) as [Hold|(l & a & Hl' & -> & ->)].
    + subst st4. apply registered_on_set in Hold as [Hold|[-> ->]]; [|right; by split; [|left]].
      rewrite registered_set_cell in Hold by done. by left.
    + right. split; [done|]. right. by exists l.
Qed.

End Registration.

Section Apart.

Variable k : nat.
Variable T : list nat.

Lemma foreign_mono N N' cb : N ≤ N' → foreign k T N cb → foreign k T N' cb.
Proof.
  intros HN [Hm He]. split; [done|]. intros e Hin. destruct (He e Hin). split; [lia|done].
Qed.

Lemma apart_refl st : apart k T st st.
Proof. repeat split; auto. Qed.

Lemma apart_trans st1 st2 st3 : apart k T st1 st2 → apart k T st2 st3 → apart k T st1 st3.
Proof.
  intros (Hn1 & He1 & Hr1 & Hc1) (Hn2 & He2 & Hr2 & Hc2). repeat split.
  - lia.
  - destruct (He1 e H), (He2 e H). congruence.
  - destruct (He1 e H), (He2 e H). congruence.
  - intros pl cb Hpl. destruct (Hr2 pl cb Hpl) as [Hold|Hnew]; [|by right].
    destruct (Hr1 pl cb Hold) as [Hold'|Hnew]; [by left|].
    right. by eapply foreign_mono.
  - congruence.
Qed.

Lemma quiet_apart st st' : quiet st st' → apart k T st st'.
Proof.
  intros (Ho & Hm & Hn & Hl & Hr). repeat split.
  - lia.
  - unfold on_env. by rewrite Ho.
  - unfold map_env. by rewrite Hm.
  - intros pl cb Hpl. left. by apply Hr.
  - apply Hl.
Qed.

Ltac split_apart := split; [|split; [intros e0 He0; split|split]].

(** Writing the environment of a foreign closure. *)
Lemma apart_on_env e v st : e ∉ T → apart k T st (set_on_envs (λ m, <[e := v]> m) st).
Proof.
  intros He. split_apart; [done| |done|by left|done].
  unfold on_env. simpl. rewrite lookup_insert_ne; [done|]. by intros ->.
Qed.

Lemma apart_map_env e v st : e ∉ T → apart k T st (set_map_envs (λ m, <[e := v]> m) st).
Proof.
  intros He. split_apart; [done|done| |by left|done].
  unfold map_env. simpl. rewrite lookup_insert_ne; [done|]. by intros ->.
Qed.

Lemma apart_call k' value path updatedAt unsubscribe st :
  k' ≠ k → apart k T st (emit (Call k' value path updatedAt unsubscribe) st).
Proof.
  intros Hk. split_apart; [done..|by left|]. simpl. rewrite calls_app. simpl.
  rewrite bool_decide_eq_false_2 by done. apply app_nil_r.
Qed.

Lemma apart_open_handle n c r tg st :
  foreign k T (next_env st) c → (∀ e, e ∈ T → e < next_env st) →
  apart k T st (open_handle n c r tg st).1.
Proof.
  intros [Hm He] HT.
  destruct (open_handle_spec n c r tg st) as (subs & Hh & Hn & Ho & Hmap & Hl & Hr).
  assert (Hfresh : ∀ e, e < S (S (next_env st)) → ¬ e < next_env st → e ∉ T).
  { intros e _ Hge Hin. by apply Hge, HT. }
  assert (Hc : ∀ e, e ∈ envs c → e < S (S (next_env st)) ∧ e ∉ T).
  { intros e Hin. destruct (He e Hin). split; [lia|done]. }
  split_apart.
  - lia.
  - unfold on_env. by rewrite Ho.
  - unfold map_env. rewrite Hmap, lookup_insert_ne; [done|].
    intros <-. specialize (HT _ He0). lia.
  - intros pl cb Hpl. rewrite Hn.
    destruct (Hr pl cb Hpl) as [Hold|[[-> ->]|(l & -> & Hl' & ->)]]; [by left|right..].
    + split; [done|]. simpl. intros e [->|Hin]%elem_of_cons; [|by apply Hc].
      split; [lia|]. apply Hfresh; lia.
    + split; [done|]. simpl. intros e [->|[->|Hin]%elem_of_cons]%elem_of_cons; [..|by apply Hc].
      * split; [lia|]. apply Hfresh; lia.
      * split; [lia|]. apply Hfresh; lia.
  - by rewrite Hl.
Qed.

Lemma apart_map_handle n c r tg st :
  foreign k T (next_env st) c → (∀ e, e ∈ T → e < next_env st) →
  apart k T st (map_handle n c r tg st).1.
Proof.
  intros [Hm He] HT.
  destruct (map_handle_spec n c r tg st) as (subs & Hh & Hn & Ho & Hmap & Hl & Hr).
  assert (Hc : ∀ e, e ∈ envs c → e < S (next_env st) ∧ e ∉ T).
  { intros e Hin. destruct (He e Hin). split; [lia|done]. }
  split_apart.
  - lia.
  - unfold on_env. by rewrite Ho.
  - unfold map_env. rewrite Hmap, lookup_insert_ne; [done|].
    intros <-. specialize (HT _ He0). lia.
  - intros pl cb Hpl. rewrite Hn.
    destruct (Hr pl cb Hpl) as [Hold|[[-> ->]|(l & -> & Hl' & ->)]]; [by left|right..].
    + by split.
    + split; [done|]. simpl. intros e [->|Hin]%elem_of_cons; [|by apply Hc].
      split; [lia|]. intros Hin. specialize (HT _ Hin). lia.
  - by rewrite Hl.
Qed.

Lemma apart_on this c riu r tg st :
  foreign k T (next_env st) c → (∀ e, e ∈ T → e < next_env st) →
  apart k T st (on this c riu r tg st).1.
Proof.
  intros [Hm He] HT.
  destruct (on_spec this c riu r tg st) as (unsubs & Hu & Hn & Ho & Hmap & Hl & Hr).
  split_apart.
  - lia.
  - unfold on_env. rewrite Ho, lookup_insert_ne; [done|].
    intros <-. specialize (HT _ He0). lia.
  - unfold map_env. by rewrite Hmap.
  - intros pl cb Hpl. rewrite Hn.
    destruct (Hr pl cb Hpl) as [Hold|[-> _]]; [by left|right].
    split; [done|]. simpl. intros e [->|Hin]%elem_of_cons.
    + split; [lia|]. intros Hin. specialize (HT _ Hin). lia.
    + destruct (He e Hin). split; [lia|done].
  - by rewrite Hl.
Qed.

Lemma apart_once this c riu r tg st :
  (∀ c', c = Some c' → foreign k T (next_env st) c') → (∀ e, e ∈ T → e < next_env st) →
  apart k T st (once this c riu r tg st).1.
Proof.
  intros Hc HT. unfold once, fresh_env.
  set (st2 := set_once_envs _ _).
  assert (H2 : apart k T st st2).
  { split_apart; [simpl; lia|done|done|by left|done]. }
  pose proof (apart_on this (OnceCallback (next_env st) c) riu r tg st2) as H3.
  destruct (on this _ riu r tg st2) as [st3 u]. cbn [fst] in *.
  eapply apart_trans; [exact H2|]. apply H3.
  - split.
    + destruct c as [c'|]; [|done]. by destruct (Hc c' eq_refl).
    + assert (Hfresh : next_env st < next_env st2 ∧ next_env st ∉ T).
      { split; [simpl; lia|]. intros Hin. specialize (HT _ Hin). lia. }
      destruct c as [c'|]; simpl.
      * intros e [->|Hin]%elem_of_cons; [done|].
        destruct (Hc c' eq_refl) as [_ He]. destruct (He e Hin). split; [lia|done].
      * by intros e ->%list_elem_of_singleton.
  - intros e Hin. specialize (HT _ Hin). simpl. lia.
Qed.

(** A foreign closure, when called, stays apart from the subscription. *)
Lemma invoke_apart cb : ∀ value path updatedAt unsubscribe st,
  foreign k T (next_env st) cb → (∀ e, e ∈ T → e < next_env st) →
  apart k T st (invoke cb value path updatedAt unsubscribe st).1.
Proof.
  induction cb as [k' throws|e' this callback riu recursion typeGuard IH
                  |e' this callback typeGuard IH|callback typeGuard IH
                  |e' this sid callback recursion typeGuard IH|e' callback IH|e']
    using Callback_nested_ind; intros value path updatedAt unsubscribe st [Hm He] HT.
  - rewrite invoke_UserCallback. apply apart_call. simpl in Hm.
    by apply bool_decide_eq_false in Hm.
  - assert (He' : e' ∉ T) by (apply He; left).
    assert (Hc : ∀ s, next_env st ≤ next_env s → foreign k T (next_env s) callback).
    { intros s Hs. split; [done|]. intros e Hin.
      destruct (He e) as [? ?]; [by right|]. split; [lia|done]. }
    rewrite invoke_OnLocalCallback. cbv zeta.
    destruct (dropped _ _ _ _); [apply apart_refl|].
    destruct (negb _ && _ && _); [by apply IH; [apply Hc|]|].
    set (st1 := record_latest e' value updatedAt st).
    assert (H1 : apart k T st st1).
    { subst st1. unfold record_latest. destruct updatedAt; [|apply apart_refl].
      destruct (negb _); [by apply apart_on_env|apply apart_refl]. }
    set (st2 := open_once e' this callback recursion typeGuard value st1).
    assert (H2 : apart k T st1 st2).
    { subst st2. unfold open_once. destruct (_ && _ && _); [|apply apart_refl].
      pose proof (apart_open_handle this callback (recursion - 1) typeGuard st1) as Ho.
      destruct (open_handle this callback (recursion - 1) typeGuard st1) as [st1' h].
      eapply apart_trans; [|by apply apart_on_env].
      apply Ho; [apply Hc; apply H1|].
      intros e Hin. specialize (HT e Hin). destruct H1 as [? _]. lia. }
    assert (H02 : apart k T st st2) by (by eapply apart_trans).
    destruct (negb _ || _); [|done].
    eapply apart_trans; [exact H02|]. apply IH; [apply Hc; apply H02|].
    intros e Hin. specialize (HT e Hin). destruct H02 as [? _]. lia.
  - rewrite invoke_OpenCallback. cbv zeta.
    set (st1 := set_open_envs _ st).
    assert (H1 : apart k T st st1) by (by apply quiet_apart, quiet_same).
    eapply apart_trans; [exact H1|].
    apply IH; [|done]. split; [done|]. intros e Hin. apply He. by right.
  - rewrite invoke_MapTypedCallback. apply IH; [|done]. by split.
  - assert (He' : e' ∉ T) by (apply He; left).
    assert (Hc : ∀ s, next_env st ≤ next_env s → foreign k T (next_env s) callback).
    { intros s Hs. split; [done|]. intros e Hin.
      destruct (He e) as [? ?]; [by right|]. split; [lia|done]. }
    rewrite invoke_MapListCallback. cbv zeta.
    destruct (olderThanLatest _ _); [apply apart_refl|].
    set (st1 := match updatedAt with Some u => _ | None => st end).
    assert (H1 : apart k T st st1).
    { subst st1. destruct updatedAt; [by apply apart_map_env|apply apart_refl]. }
    destruct (_ && _ && _).
    + destruct (property_get _ _); [done|].
      pose proof (quiet_get this (Path.pop (Path.split path)) st1) as Hg.
      destruct (get this _ st1) as [st2 child].
      pose proof (apart_open_handle child callback (recursion - 1) (λ v, v) st2) as Ho.
      destruct (open_handle child callback (recursion - 1) _ st2) as [st3 h].
      cbn [fst] in *.
      assert (Hn2 : next_env st ≤ next_env st2).
      { destruct H1 as [? _], Hg as (_ & _ & ? & _). lia. }
      eapply apart_trans; [exact H1|]. eapply apart_trans; [by apply quiet_apart|].
      eapply apart_trans; [|by apply apart_map_env].
      apply Ho; [by apply Hc|]. intros e Hin. specialize (HT e Hin). lia.
    + eapply apart_trans; [exact H1|]. apply IH; [apply Hc; apply H1|].
      intros e Hin. specialize (HT e Hin). destruct H1 as [? _]. lia.
  - rewrite invoke_OnceCallback. destruct (resolved e' st); [apply apart_refl|]. cbv zeta.
    set (st1 := emit _ _).
    assert (H1 : apart k T st st1).
    { subst st1. eapply apart_trans; [|apply quiet_apart, quiet_resolve].
      by apply quiet_apart, quiet_same. }
    specialize (IH value path updatedAt UnNoop st1).
    destruct (invoke callback value path updatedAt UnNoop st1) as [st2 [[]|]];
      cbn [fst] in *.
    + eapply apart_trans; [exact H1|]. eapply apart_trans; [|apply quiet_apart, quiet_run_unsubscribe].
      apply IH; [|done]. split; [done|]. intros e Hin. apply He. by right.
    + eapply apart_trans; [exact H1|].
      apply IH; [|done]. split; [done|]. intros e Hin. apply He. by right.
  - rewrite invoke_OnceCallback. destruct (resolved e' st); [apply apart_refl|]. cbv zeta.
    cbn [fst].
    eapply apart_trans; [|apply quiet_apart, quiet_run_unsubscribe].
    eapply apart_trans; [|apply quiet_apart, quiet_resolve].
    by apply quiet_apart, quiet_same.
Qed.

End Apart.

Section Tree.

Lemma list_bind_ext_in {A B} (f g : A → list B) l :
  (∀ x, x ∈ l → f x = g x) → l ≫= f = l ≫= g.
Proof.
  induction l as [|x l IH]; intros Hfg; [done|]. cbn [mbind list_bind]. f_equal.
  - apply Hfg. left.
  - apply IH. intros y Hy. apply Hfg. by right.
Qed.

Lemma nested_self r h st : (r, h) ∈ nested r h st.
Proof. destruct r; left. Qed.

Lemma nested_below r h entry rh st :
  entry ∈ openUnsubs (map_env (mh_env h) st) → rh ∈ nested r entry.2 st →
  rh ∈ nested (S r) h st.
Proof.
  intros Hentry Hrh. cbn [nested]. right. apply list_elem_of_bind. by exists entry.
Qed.

Lemma nested_inv r h rh st :
  rh ∈ nested r h st →
  rh = (r, h)
  ∨ ∃ r' entry, r = S r' ∧ entry ∈ openUnsubs (map_env (mh_env h) st)
                ∧ rh ∈ nested r' entry.2 st.
Proof.
  destruct r as [|r']; cbn [nested]; intros [->|Hin]%elem_of_cons; [by left| |by left|].
  - by apply elem_of_nil in Hin.
  - apply list_elem_of_bind in Hin as (entry & Hrh & Hentry). right. by exists r', entry.
Qed.

Lemma nested_leaf r h st :
  openUnsubs (map_env (mh_env h) st) = [] → nested r h st = [(r, h)].
Proof. intros Hnil. destruct r; cbn [nested]; [done|]. by rewrite Hnil. Qed.

(** A subscription opened for a child of one that is reached is reached. *)
Lemma nested_child r : ∀ h r' h' entry st,
  (S r', h') ∈ nested r h st → entry ∈ openUnsubs (map_env (mh_env h') st) →
  (r', entry.2) ∈ nested r h st.
Proof.
  induction r as [|r IH]; intros h r' h' entry st Hin Hentry;
    apply nested_inv in Hin as [Heq|(r0 & entry0 & Hr & Hentry0 & Hin)]; try done.
  - injection Heq as -> ->. eapply nested_below; [done|apply nested_self].
  - injection Hr as <-. eapply nested_below; [done|]. by eapply IH.
Qed.

Lemma nested_same r : ∀ h st st',
  (∀ rh, rh ∈ nested r h st →
     openUnsubs (map_env (mh_env rh.2) st') = openUnsubs (map_env (mh_env rh.2) st)) →
  nested r h st' = nested r h st.
Proof.
  induction r as [|r IH]; intros h st st' Hsame; [done|].
  cbn [nested]. f_equal. pose proof (Hsame (S r, h) (nested_self _ _ _)) as Hh.
  cbn [snd] in Hh. rewrite Hh.
  apply list_bind_ext_in. intros entry Hentry. apply IH.
  intros rh Hrh. apply Hsame. by eapply nested_below.
Qed.

Lemma nested_mono r : ∀ h st st',
  (∀ rh entry, rh ∈ nested r h st → entry ∈ openUnsubs (map_env (mh_env rh.2) st) →
               entry ∈ openUnsubs (map_env (mh_env rh.2) st')) →
  ∀ rh, rh ∈ nested r h st → rh ∈ nested r h st'.
Proof.
  induction r as [|r IH]; intros h st st' Hsub rh Hrh;
    apply nested_inv in Hrh as [->|(r0 & entry & Hr & Hentry & Hrh)]; try done;
    try apply nested_self.
  injection Hr as <-. eapply nested_below.
  - apply (Hsub (S r, h)); [apply nested_self|done].
  - apply (IH _ st); [|done]. intros rh' entry' Hrh' Hentry'. apply Hsub; [|done].
    by eapply nested_below.
Qed.

(** After a subscription [h'] with no children of its own has been added
    under some name, the subscriptions reached are the old ones and [h']. *)
Lemma nested_grown h' st st' r : ∀ h,
  openUnsubs (map_env (mh_env h') st') = [] →
  (∀ e entry, e ≠ mh_env h' → entry ∈ openUnsubs (map_env e st') →
     entry ∈ openUnsubs (map_env e st) ∨ entry.2 = h') →
  ∀ rh, rh ∈ nested r h st' → rh ∈ nested r h st ∨ rh.2 = h'.
Proof.
  intros h Hnil Hold. revert h.
  induction r as [|r IH]; intros h rh Hrh;
    apply nested_inv in Hrh as [->|(r0 & entry & Hr & Hentry & Hrh)]; try done;
    try (left; apply nested_self).
  injection Hr as <-.
  destruct (decide (mh_env h = mh_env h')) as [Heq|Hne].
  { rewrite Heq, Hnil in Hentry. by apply elem_of_nil in Hentry. }
  destruct (Hold _ _ Hne Hentry) as [Hentry'|Hnew].
  - destruct (IH _ _ Hrh) as [Hrh'|?]; [|by right]. left. by eapply nested_below.
  - rewrite Hnew in Hrh.
    apply nested_inv in Hrh as [->|(r1 & entry1 & _ & Hentry1 & _)]; [by right|].
    rewrite Hnil in Hentry1. by apply elem_of_nil in Hentry1.
Qed.

Lemma elem_of_tree_envs e u st :
  e ∈ tree_envs u st ↔
  (∃ this uid r, u = UnOn this uid e r) ∨ ∃ rh, rh ∈ tree_of u st ∧ e = mh_env rh.2.
Proof.
  unfold tree_envs. rewrite elem_of_app, list_elem_of_fmap. split.
  - intros [Hon|(rh & -> & Hrh)]; [left|right; by exists rh].
    destruct u; try (by apply elem_of_nil in Hon).
    apply list_elem_of_singleton in Hon as ->. by eexists _, _, _.
  - intros [(this & uid & r & ->)|(rh & Hrh & ->)]; [left; left|right; by exists rh].
Qed.

(** The subscriptions reached are read off [openUnsubscribe] and the
    [openUnsubs] of those reached. *)
Lemma tree_of_fields u st st' :
  (∀ this uid e r, u = UnOn this uid e r →
     openUnsubscribe (on_env e st') = openUnsubscribe (on_env e st)) →
  (∀ rh, rh ∈ tree_of u st →
     openUnsubs (map_env (mh_env rh.2) st') = openUnsubs (map_env (mh_env rh.2) st)) →
  tree_of u st' = tree_of u st.
Proof.
  intros Hon Hmap.
  destruct u as [|l|this uid e r|r h|p sid]; cbn [tree_of] in *; try done.
  - rewrite (Hon this uid e r eq_refl).
    destruct (openUnsubscribe (on_env e st)); [by apply nested_same|done].
  - by apply nested_same.
Qed.

Lemma tree_of_same u st st' :
  (∀ e, e ∈ tree_envs u st → on_env e st' = on_env e st ∧ map_env e st' = map_env e st) →
  tree_of u st' = tree_of u st.
Proof.
  intros Hsame. apply tree_of_fields.
  - intros this uid e r ->.
    by rewrite (proj1 (Hsame e ltac:(apply elem_of_tree_envs; left; by eexists _, _, _))).
  - intros rh Hrh.
    assert (Hin : mh_env rh.2 ∈ tree_envs u st)
      by (apply elem_of_tree_envs; right; by exists rh).
    by rewrite (proj2 (Hsame _ Hin)).
Qed.

Lemma tree_of_mono u st st' :
  (∀ this uid e r, u = UnOn this uid e r →
     openUnsubscribe (on_env e st') = openUnsubscribe (on_env e st)) →
  (∀ rh entry, rh ∈ tree_of u st → entry ∈ openUnsubs (map_env (mh_env rh.2) st) →
               entry ∈ openUnsubs (map_env (mh_env rh.2) st')) →
  ∀ rh, rh ∈ tree_of u st → rh ∈ tree_of u st'.
Proof.
  intros Hon Hmap.
  destruct u as [|l|this uid e r|r h|p sid]; cbn [tree_of] in *; try done.
  - rewrite (Hon this uid e r eq_refl).
    destruct (openUnsubscribe (on_env e st)); [by apply nested_mono|done].
  - by apply nested_mono.
Qed.

Lemma tree_of_grown u h' st st' :
  (∀ this uid e r, u = UnOn this uid e r →
     openUnsubscribe (on_env e st') = openUnsubscribe (on_env e st)) →
  openUnsubs (map_env (mh_env h') st') = [] →
  (∀ e entry, e ≠ mh_env h' → entry ∈ openUnsubs (map_env e st') →
     entry ∈ openUnsubs (map_env e st) ∨ entry.2 = h') →
  ∀ rh, rh ∈ tree_of u st' → rh ∈ tree_of u st ∨ rh.2 = h'.
Proof.
  intros Hon Hnil Hold.
  destruct u as [|l|this uid e r|r h|p sid]; cbn [tree_of] in *;
    try (by intros rh ?%elem_of_nil).
  - rewrite (Hon this uid e r eq_refl).
    destruct (openUnsubscribe (on_env e st));
      [by apply nested_grown|by intros rh ?%elem_of_nil].
  - by apply nested_grown.
Qed.

Lemma tree_of_child u r h entry st :
  (S r, h) ∈ tree_of u st → entry ∈ openUnsubs (map_env (mh_env h) st) →
  (r, entry.2) ∈ tree_of u st.
Proof.
  destruct u as [|l|this uid e r0|r0 h0|p sid]; cbn [tree_of];
    try (by intros ?%elem_of_nil).
  - destruct (openUnsubscribe (on_env e st)); [apply nested_child|by intros ?%elem_of_nil].
  - apply nested_child.
Qed.

Lemma property_set_elem {A} key (v : A) l x :
  x ∈ property_set key v l → x ∈ l ∨ x = (key, v).
Proof.
  induction l as [|[k0 w] rest IH]; simpl.
  - intros ->%list_elem_of_singleton. by right.
  - destruct (decide (k0 = key)) as [->|Hne].
    + intros [->|Hin]%elem_of_cons; [by right|left; by right].
    + intros [->|Hin]%elem_of_cons; [left; left|].
      destruct (IH Hin) as [?|?]; [left; by right|by right].
Qed.

Lemma property_set_new {A} key (v : A) l : (key, v) ∈ property_set key v l.
Proof.
  induction l as [|[k0 w] rest IH]; simpl; [left|].
  destruct (decide (k0 = key)); [left|by right].
Qed.

Lemma property_set_keep {A} key (v : A) l x :
  property_get key l = None → x ∈ l → x ∈ property_set key v l.
Proof.
  induction l as [|[k0 w] rest IH]; simpl; [by intros _ ?%elem_of_nil|].
  destruct (decide (k0 = key)); [done|]. intros Hnone [->|Hin]%elem_of_cons; [left|].
  right. by apply IH.
Qed.

Lemma tree_envs_same u st st' : tree_of u st' = tree_of u st → tree_envs u st' = tree_envs u st.
Proof. unfold tree_envs. by intros ->. Qed.

End Tree.

Section Transfer.

Variable k : nat.
Variable u : Unsubscribe.

(** The invariant survives a step in which the subscription grows by
    subscriptions with fresh environments, keeps its listeners, and every
    closure registered is foreign or its own. *)
Lemma teardown_inv_grow st st' :
  teardown_inv k u st →
  next_env st ≤ next_env st' →
  (∀ rh, rh ∈ tree_of u st → rh ∈ tree_of u st') →
  (∀ rh, rh ∈ tree_of u st' →
     rh ∈ tree_of u st ∨ (next_env st ≤ mh_env rh.2 ∧ mh_env rh.2 < next_env st')) →
  (∀ rh l, rh ∈ tree_of u st → l ∈ adapterSubs (map_env (mh_env rh.2) st) →
           l ∈ adapterSubs (map_env (mh_env rh.2) st')) →
  (∀ this uid e r l, u = UnOn this uid e r → l ∈ adapterUnsubscribes (on_env e st) →
                     l ∈ adapterUnsubscribes (on_env e st')) →
  (∀ pl cb, registered st' pl = Some cb →
     registered st pl = Some cb
     ∨ foreign k (tree_envs u st') (next_env st') cb ∨ covered k u st' pl cb) →
  teardown_inv k u st'.
Proof.
  intros [Hclo Henv] Hn Hmono Hgrown Hsubs Hunsubs Hreg.
  assert (Henvs' : ∀ e, e ∈ tree_envs u st' →
            e ∈ tree_envs u st ∨ (next_env st ≤ e ∧ e < next_env st')).
  { intros e [Hon|(rh & Hrh & ->)]%elem_of_tree_envs.
    - left. apply elem_of_tree_envs. by left.
    - destruct (Hgrown rh Hrh) as [Hold|Hnew]; [left|by right].
      apply elem_of_tree_envs. right. by exists rh. }
  split.
  - intros pl cb Hpl. destruct (Hreg pl cb Hpl) as [Hold|[Hnew|Hnew]]; [|by left|by right].
    destruct (Hclo pl cb Hold) as [[Hm He]|Hcov].
    + left. split; [done|]. intros e Hin. destruct (He e Hin) as [Hlt Hnot].
      split; [lia|]. intros [Hin'|[Hge _]]%Henvs'; [done|lia].
    + right. destruct Hcov as [(this & uid & e & r & th & riu & tg & -> & -> & Hpl')
                              |(r & h & c & tg & Hrh & Hc & Hpl')].
      * left. eexists _, _, _, _, _, _, _. split; [done|]. split; [done|].
        destruct Hpl' as [->|(l & -> & Hl)]; [by left|right].
        exists l. split; [done|]. by eapply Hunsubs.
      * right. exists r, h, c, tg. split; [by apply Hmono|]. split; [done|].
        destruct Hpl' as [[-> ->]|(l & -> & Hl & ->)]; [by left|right].
        exists l. split; [done|]. split; [|done]. by apply (Hsubs (r, h)).
  - intros e [Hold|[_ Hnew]]%Henvs'; [|done]. specialize (Henv e Hold). lia.
Qed.

Lemma teardown_inv_apart st st' :
  apart k (tree_envs u st) st st' → teardown_inv k u st → teardown_inv k u st'.
Proof.
  intros (Hn & He & Hr & _) Hinv.
  pose proof (tree_of_same u st st' He) as Htree.
  pose proof (tree_envs_same u st st' Htree) as Henvs.
  apply (teardown_inv_grow st st' Hinv Hn).
  - intros rh. by rewrite Htree.
  - intros rh. rewrite Htree. by left.
  - intros rh l Hrh.
    assert (Hin : mh_env rh.2 ∈ tree_envs u st)
      by (apply elem_of_tree_envs; right; by exists rh).
    by rewrite (proj2 (He _ Hin)).
  - intros this uid e r l Hu.
    assert (Hin : e ∈ tree_envs u st)
      by (apply elem_of_tree_envs; left; by eexists _, _, _).
    by rewrite (proj1 (He _ Hin)).
  - intros pl cb Hpl. rewrite Henvs. destruct (Hr pl cb Hpl); auto.
Qed.

Lemma teardown_inv_quiet st st' : quiet st st' → teardown_inv k u st → teardown_inv k u st'.
Proof. intros Hq. by apply teardown_inv_apart, quiet_apart. Qed.

Lemma teardown_inv_still st st' : still st st' → teardown_inv k u st → teardown_inv k u st'.
Proof.
  intros (Hh & Hl & Ho & Hm & Hn) Hinv. apply (teardown_inv_grow st st' Hinv).
  - lia.
  - intros rh. by rewrite (tree_of_ext u st st' Ho Hm).
  - intros rh. rewrite (tree_of_ext u st st' Ho Hm). by left.
  - intros rh l _. unfold map_env. by rewrite Hm.
  - intros this uid e r l _. unfold on_env. by rewrite Ho.
  - intros pl cb. rewrite (registered_ext st st' pl Hh Hl). by left.
Qed.

(** Writing [latestValue] or [latestMap] changes nothing for the invariant. *)
Lemma teardown_inv_fields st st' :
  heap st' = heap st → listeners st' = listeners st → next_env st' = next_env st →
  (∀ e, openUnsubscribe (on_env e st') = openUnsubscribe (on_env e st)
        ∧ adapterUnsubscribes (on_env e st') = adapterUnsubscribes (on_env e st)) →
  (∀ e, openUnsubs (map_env e st') = openUnsubs (map_env e st)
        ∧ adapterSubs (map_env e st') = adapterSubs (map_env e st)) →
  tree_of u st' = tree_of u st
  ∧ (teardown_inv k u st → teardown_inv k u st').
Proof.
  intros Hh Hl Hn Ho Hm.
  assert (Htree : tree_of u st' = tree_of u st).
  { apply tree_of_fields; [intros this uid e r _; apply Ho|intros rh _; apply Hm]. }
  split; [done|]. intros Hinv. apply (teardown_inv_grow st st' Hinv).
  - lia.
  - intros rh. by rewrite Htree.
  - intros rh. rewrite Htree. by left.
  - intros rh l _. by rewrite (proj2 (Hm _)).
  - intros this uid e r l _. by rewrite (proj2 (Ho _)).
  - intros pl cb. rewrite (registered_ext st st' pl Hh Hl). by left.
Qed.

End Transfer.

Section Inner.

Lemma still_refl st : still st st.
Proof. done. Qed.

Lemma still_trans st1 st2 st3 : still st1 st2 → still st2 st3 → still st1 st3.
Proof. intros (? & ? & ? & ? & ?) (? & ? & ? & ? & ?). repeat split; congruence. Qed.

(** Calling the user's function under the arrow functions of [open] touches
    no subscription. *)
Lemma invoke_inner k c : inner k c → ∀ value path updatedAt unsubscribe st,
  still st (invoke c value path updatedAt unsubscribe st).1.
Proof.
  induction c as [k' throws| |e n c IH tg| | |]; try done; intros Hc value path t un st.
  - by rewrite invoke_UserCallback.
  - rewrite invoke_OpenCallback. cbv zeta. set (st1 := set_open_envs _ st).
    eapply (still_trans st st1); [done|]. by apply IH.
Qed.

Lemma inner_mentions k c : inner k c → mentions k c = true.
Proof.
  induction c as [k' throws| |e n c IH tg| | |]; try done.
  simpl. intros ->. by apply bool_decide_eq_true.
Qed.

End Inner.

Section Own.

Variable k : nat.

Lemma teardown_inv_set_latestValue u e v st :
  teardown_inv k u st → teardown_inv k u (set_latestValue e v st).
Proof.
  apply teardown_inv_fields; try done.
  intros e'. unfold set_latestValue, on_env. simpl.
  destruct (decide (e' = e)) as [->|Hne].
  - by rewrite lookup_insert_eq.
  - by rewrite lookup_insert_ne.
Qed.

Lemma teardown_inv_set_latestMap u e path v st :
  tree_of u (set_latestMap e path v st) = tree_of u st
  ∧ (teardown_inv k u st → teardown_inv k u (set_latestMap e path v st)).
Proof.
  apply teardown_inv_fields; try done.
  intros e'. unfold set_latestMap, map_env. simpl.
  destruct (decide (e' = e)) as [->|Hne].
  - by rewrite lookup_insert_eq.
  - by rewrite lookup_insert_ne.
Qed.

(** [localCallback] of the subscription runs: the invariant is kept, the
    [open] subscription it may create being its own. *)
Lemma teardown_inv_invoke_on this uid e r th riu tg value path t un st :
  teardown_inv k (UnOn this uid e r) st →
  teardown_inv k (UnOn this uid e r)
    (invoke (OnLocalCallback e this (UserCallback k th) riu r tg) value path t un st).1.
Proof.
  set (u := UnOn this uid e r). intros Hinv.
  rewrite invoke_OnLocalCallback. cbv zeta.
  destruct (dropped _ _ _ _); [done|].
  destruct (negb _ && _ && _).
  { eapply teardown_inv_still; [|exact Hinv]. by rewrite invoke_UserCallback. }
  set (st1 := record_latest e value t st).
  assert (Hinv1 : teardown_inv k u st1).
  { subst st1. unfold record_latest. destruct t; [|done].
    destruct (negb _); [by apply teardown_inv_set_latestValue|done]. }
  set (st2 := open_once e this (UserCallback k th) r tg value st1).
  assert (Hinv2 : teardown_inv k u st2).
  { subst st2. unfold open_once.
    destruct (isDirectory value && (0 <? r)
              && negb (bool_decide (is_Some (openUnsubscribe (on_env e st1))))) eqn:Hcond;
      [|done].
    apply andb_prop in Hcond as [_ Hnone]. apply negb_true_iff, bool_decide_eq_false in Hnone.
    assert (Hnone' : openUnsubscribe (on_env e st1) = None).
    { destruct (openUnsubscribe (on_env e st1)); [|done]. by destruct Hnone. }
    destruct (open_handle_spec this (UserCallback k th) (r - 1) tg st1)
      as (subs & Hh & Hn & Ho & Hm & Hl & Hr).
    destruct (open_handle this (UserCallback k th) (r - 1) tg st1) as [st1' h].
    cbn [fst snd] in *.
    set (st2 := set_openUnsubscribe e (Some h) st1').
    assert (Hopen2 : openUnsubscribe (on_env e st2) = Some h).
    { unfold st2, set_openUnsubscribe, on_env. simpl. by rewrite lookup_insert_eq. }
    assert (Hleaf : openUnsubs (map_env (mh_env h) st2) = []).
    { unfold map_env. simpl. rewrite Hm, Hh. simpl. by rewrite lookup_insert_eq. }
    assert (Htree2 : tree_of u st2 = [(r - 1, h)]).
    { cbn [tree_of u]. rewrite Hopen2. by apply nested_leaf. }
    assert (Htree1 : tree_of u st1 = []).
    { cbn [tree_of u]. by rewrite Hnone'. }
    apply (teardown_inv_grow k u st1 st2 Hinv1).
    - simpl. rewrite Hn. lia.
    - rewrite Htree1. by intros rh ?%elem_of_nil.
    - rewrite Htree2. intros rh ->%list_elem_of_singleton. right.
      simpl. rewrite Hn, Hh. simpl. lia.
    - rewrite Htree1. by intros rh l ?%elem_of_nil.
    - intros this' uid' e' r' l [= <- <- <- <-].
      unfold st2, set_openUnsubscribe, on_env. simpl. rewrite lookup_insert_eq. simpl.
      by rewrite Ho.
    - intros pl cb Hpl. change (registered st1' pl = Some cb) in Hpl.
      destruct (Hr pl cb Hpl) as [Hold|[[-> ->]|(l & -> & Hl' & ->)]]; [by left|right; right..].
      + right. exists (r - 1), h, (OpenCallback (next_env st1) this (UserCallback k th) tg),
          (λ value, value).
        rewrite Htree2. split; [left|]. split; [done|]. left. by rewrite Hh.
      + right. exists (r - 1), h, (OpenCallback (next_env st1) this (UserCallback k th) tg),
          (λ value, value).
        rewrite Htree2. split; [left|]. split; [done|]. right. exists l.
        split; [done|]. split; [|by rewrite Hh].
        unfold map_env. simpl. rewrite Hm, Hh. simpl. by rewrite lookup_insert_eq. }
  destruct (negb _ || _); [|done].
  eapply teardown_inv_still; [|exact Hinv2]. by rewrite invoke_UserCallback.
Qed.

(** [cb] of one of the [map] subscriptions reached runs: the invariant is
    kept, the [open] subscription it may create for a child being reached
    through [openUnsubs]. *)
Lemma teardown_inv_invoke_list u r h c tg value path t un st :
  teardown_inv k u st → (r, h) ∈ tree_of u st → inner k c →
  teardown_inv k u
    (invoke (MapListCallback (mh_env h) (mh_node h) (mh_id h) c r tg) value path t un st).1.
Proof.
  intros Hinv Hrh Hc. rewrite invoke_MapListCallback. cbv zeta.
  destruct (olderThanLatest _ _); [done|].
  set (st1 := match t with Some u0 => _ | None => st end).
  assert (H1 : tree_of u st1 = tree_of u st ∧ teardown_inv k u st1).
  { subst st1. destruct t; [|done].
    destruct (teardown_inv_set_latestMap u (mh_env h) path (tg value, t) st). auto. }
  destruct H1 as [Htree1 Hinv1]. rewrite <- Htree1 in Hrh.
  destruct ((0 <? r) && truthy (tg value) && isDirectory (tg value)) eqn:Hcond; cycle 1.
  { eapply teardown_inv_still; [by apply (invoke_inner k)|exact Hinv1]. }
  destruct r as [|r']; [done|]. replace (S r' - 1) with r' by lia.
  set (childName := Path.pop (Path.split path)).
  destruct (property_get childName (openUnsubs (map_env (mh_env h) st1))) eqn:Hknown; [done|].
  pose proof (quiet_get (mh_node h) childName st1) as Hq.
  destruct (get (mh_node h) childName st1) as [st2 child]. cbn [fst] in Hq.
  assert (Hinv2 : teardown_inv k u st2) by (by eapply teardown_inv_quiet).
  pose proof (quiet_tree_of u st1 st2 Hq) as Htree2. rewrite <- Htree2 in Hrh.
  destruct Hq as (Ho12 & Hm12 & Hn12 & _).
  destruct (open_handle_spec child c r' (λ value, value) st2)
    as (subs & Hh & Hn & Ho & Hm & Hl & Hr).
  destruct (open_handle child c r' (λ value, value) st2) as [st3 h'].
  cbn [fst snd] in *.
  set (st4 := set_openUnsubs (mh_env h) childName h' st3).
  assert (Hbound : mh_env h < next_env st2).
  { apply (ti_envs k u st2 Hinv2), elem_of_tree_envs. right. by exists (S r', h). }
  assert (Hne : mh_env h ≠ mh_env h') by (rewrite Hh; simpl; lia).
  assert (Hmap3 : ∀ e, e ≠ mh_env h' → map_env e st3 = map_env e st2).
  { intros e He. unfold map_env. rewrite Hm, lookup_insert_ne; [done|].
    rewrite Hh in He. simpl in He. congruence. }
  assert (Hmap4 : ∀ e, e ≠ mh_env h → map_env e st4 = map_env e st3).
  { intros e He. unfold st4, set_openUnsubs, map_env. simpl.
    by rewrite lookup_insert_ne. }
  assert (Hmap4h : map_env (mh_env h) st4
                   = mkMapEnv (latestMap (map_env (mh_env h) st2))
                       (adapterSubs (map_env (mh_env h) st2))
                       (property_set childName h' (openUnsubs (map_env (mh_env h) st2)))).
  { unfold st4, set_openUnsubs. unfold map_env at 1. simpl. rewrite lookup_insert_eq. simpl.
    by rewrite (Hmap3 _ Hne). }
  assert (Hmap4' : map_env (mh_env h') st4 = mkMapEnv ∅ subs []).
  { rewrite Hmap4 by done. unfold map_env. rewrite Hm, Hh. simpl.
    by rewrite lookup_insert_eq. }
  assert (Hknown2 : property_get childName (openUnsubs (map_env (mh_env h) st2)) = None).
  { unfold map_env in *. by rewrite Hm12. }
  assert (Hon : ∀ this uid e r, u = UnOn this uid e r →
            openUnsubscribe (on_env e st4) = openUnsubscribe (on_env e st2)).
  { intros this uid e r _. unfold on_env. simpl. by rewrite Ho. }
  assert (Hmono : ∀ rh, rh ∈ tree_of u st2 → rh ∈ tree_of u st4).
  { apply tree_of_mono; [done|]. intros rh entry Hin Hentry.
    destruct (decide (mh_env rh.2 = mh_env h)) as [Heq|Hneq].
    - rewrite Heq in *. rewrite Hmap4h. simpl. by apply property_set_keep.
    - rewrite Hmap4, Hmap3; [done| |done].
      assert (mh_env rh.2 < next_env st2).
      { apply (ti_envs k u st2 Hinv2), elem_of_tree_envs. right. by exists rh. }
      rewrite Hh. simpl. lia. }
  assert (Hnew : (r', h') ∈ tree_of u st4).
  { apply (tree_of_child u r' h (childName, h') st4); [by apply Hmono|].
    rewrite Hmap4h. simpl. apply property_set_new. }
  apply (teardown_inv_grow k u st2 st4 Hinv2).
  - simpl. rewrite Hn. lia.
  - exact Hmono.
  - intros rh Hin. destruct (tree_of_grown u h' st2 st4 Hon) with (rh := rh)
      as [Hold|Heq]; [by rewrite Hmap4'| |done|by left|].
    + intros e entry He Hentry. destruct (decide (e = mh_env h)) as [->|Hneq].
      * rewrite Hmap4h in Hentry. simpl in Hentry.
        apply property_set_elem in Hentry as [? | ->]; [by left|by right].
      * left. by rewrite Hmap4, Hmap3 in Hentry.
    + right. rewrite Heq, Hh. simpl. rewrite Hn. lia.
  - intros rh l Hin Hl'.
    destruct (decide (mh_env rh.2 = mh_env h)) as [Heq|Hneq].
    + rewrite Heq in *. by rewrite Hmap4h.
    + rewrite Hmap4, Hmap3; [done| |done].
      assert (mh_env rh.2 < next_env st2).
      { apply (ti_envs k u st2 Hinv2), elem_of_tree_envs. right. by exists rh. }
      rewrite Hh. simpl. lia.
  - intros this uid e r l _. unfold on_env. simpl. by rewrite Ho.
  - intros pl cb Hpl. change (registered st3 pl = Some cb) in Hpl.
    destruct (Hr pl cb Hpl) as [Hold|[[-> ->]|(l & -> & Hl' & ->)]]; [by left|right; right..].
    + right. exists r', h', (OpenCallback (next_env st2) child c (λ value, value)),
        (λ value, value).
      split; [done|]. split; [done|]. left. by rewrite Hh.
    + right. exists r', h', (OpenCallback (next_env st2) child c (λ value, value)),
        (λ value, value).
      split; [done|]. split; [done|]. right. exists l.
      split; [done|]. split; [by rewrite Hmap4'|by rewrite Hh].
Qed.

End Own.

Section Teardown.

Variable k : nat.

Lemma covered_noop st pl cb : ¬ covered k UnNoop st pl cb.
Proof.
  intros [(this & uid & e & r & th & riu & tg & Hu & _)|(r & h & c & tg & Hrh & _)]; [done|].
  by apply elem_of_nil in Hrh.
Qed.

Lemma subscription_inv_apart u L st st' :
  apart k (tree_envs u st) st st' → subscription_inv k u L st → subscription_inv k u L st'.
Proof.
  intros Hap [Hinv Hlog]. split; [by eapply teardown_inv_apart|].
  intros Hu. destruct Hap as (_ & _ & _ & ->). by apply Hlog.
Qed.

Lemma subscription_inv_quiet u L st st' :
  quiet st st' → subscription_inv k u L st → subscription_inv k u L st'.
Proof. intros Hq. by apply subscription_inv_apart, quiet_apart. Qed.

Lemma subscription_inv_invoke u L cb value path t un st :
  foreign k (tree_envs u st) (next_env st) cb ∨ (∃ pl, covered k u st pl cb) →
  subscription_inv k u L st →
  subscription_inv k u L (invoke cb value path t un st).1.
Proof.
  intros [Hfor|(pl & Hcov)] Hinv.
  - eapply subscription_inv_apart; [|done]. apply invoke_apart; [done|].
    apply (ti_envs k u st (proj1 Hinv)).
  - assert (Hu : u ≠ UnNoop) by (intros ->; by apply covered_noop in Hcov).
    split; [|done]. destruct Hinv as [Hinv _].
    destruct Hcov as [(this & uid & e & r & th & riu & tg & -> & -> & _)
                     |(r & h & c & tg & Hrh & Hc & [[_ ->]|(l & _ & _ & ->)])].
    + by apply teardown_inv_invoke_on.
    + rewrite invoke_MapTypedCallback.
      eapply teardown_inv_still; [by apply (invoke_inner k)|done].
    + by apply teardown_inv_invoke_list.
Qed.

Lemma foreign_user T N k' throws : k' ≠ k → foreign k T N (UserCallback k' throws).
Proof.
  intros Hk. split; [by apply bool_decide_eq_false|]. by intros e ?%elem_of_nil.
Qed.

(** Every step that does not subscribe [k] again keeps the invariant. *)
Lemma subscription_inv_step u L inp c :
  k ∉ input_callbacks inp →
  subscription_inv k u L (state c) → subscription_inv k u L (state (step inp c)).
Proof.
  apply (inv_step (subscription_inv k u L)
           (λ st cb, foreign k (tree_envs u st) (next_env st) cb ∨ ∃ pl, covered k u st pl cb)
           (λ inp, k ∉ input_callbacks inp)).
  - intros cb value path t un st Hcb Hinv. by apply subscription_inv_invoke.
  - intros st n sid s [Hinv _] Hs. apply registered_on_table in Hs.
    destruct (ti_closures k u st Hinv _ _ Hs); [by left|right; eauto].
  - intros st n sid s [Hinv _] Hs. apply registered_map_table in Hs.
    destruct (ti_closures k u st Hinv _ _ Hs); [by left|right; eauto].
  - intros st l lst [Hinv _] Hl. apply registered_listener in Hl.
    destruct (ti_closures k u st Hinv _ _ Hl); [by left|right; eauto].
  - intros this key st. apply subscription_inv_quiet, quiet_get.
  - intros path value t x a st. apply subscription_inv_quiet, quiet_adapter_set.
  - intros n f st. by apply subscription_inv_quiet, quiet_set_cell.
  - intros f st. by apply subscription_inv_quiet, quiet_same.
  - intros this k' th riu r tg st Hok Hinv.
    eapply subscription_inv_apart; [|done].
    apply apart_on; [|apply (ti_envs k u st (proj1 Hinv))].
    apply foreign_user. intros ->. apply Hok. simpl. left.
  - intros this cb riu r tg st Hok Hinv.
    eapply subscription_inv_apart; [|done].
    apply apart_once; [|apply (ti_envs k u st (proj1 Hinv))].
    intros c' Hc'. destruct cb as [[k' th]|]; [|done]. simpl in Hc'. injection Hc' as <-.
    apply foreign_user. intros ->. apply Hok. simpl. left.
  - intros this k' th r tg st Hok Hinv.
    eapply subscription_inv_apart; [|done].
    pose proof (apart_map_handle k (tree_envs u st) this (UserCallback k' th) r tg st) as Hap.
    unfold map. destruct (map_handle this (UserCallback k' th) r tg st) as [st' h].
    apply Hap; [|apply (ti_envs k u st (proj1 Hinv))].
    apply foreign_user. intros ->. apply Hok. simpl. left.
  - intros this k' th r tg st Hok Hinv.
    eapply subscription_inv_apart; [|done].
    pose proof (apart_open_handle k (tree_envs u st) this (UserCallback k' th) r tg st) as Hap.
    unfold open. destruct (open_handle this (UserCallback k' th) r tg st) as [st' h].
    apply Hap; [|apply (ti_envs k u st (proj1 Hinv))].
    apply foreign_user. intros ->. apply Hok. simpl. left.
  - intros u' st _. apply subscription_inv_quiet, quiet_run_unsubscribe.
Qed.

Lemma subscription_inv_run u L inputs : ∀ c,
  Forall (λ inp, k ∉ input_callbacks inp) inputs →
  subscription_inv k u L (state c) → subscription_inv k u L (state (run inputs c)).
Proof.
  induction inputs as [|inp inputs IH]; intros c Hok Hc; [done|].
  apply Forall_cons in Hok as [Hinp Hok]. apply (IH (step inp c) Hok).
  by apply subscription_inv_step.
Qed.

Lemma log_extends_run inputs : ∀ c, log (state c) `prefix_of` log (state (run inputs c)).
Proof.
  induction inputs as [|inp inputs IH]; intros c; [done|].
  etrans; [apply (log_extends_step inp c)|apply (IH (step inp c))].
Qed.

(** In the initial world nothing is registered. *)
Lemma teardown_inv_initial : teardown_inv k UnNoop initial_state.
Proof.
  split; [|by intros e ?%elem_of_nil]. intros pl cb.
  destruct pl as [a sid|a sid|l]; simpl; [| |done].
  - destruct (decide (a = 0)) as [->|Hne]; [by rewrite lookup_singleton_eq|].
    by rewrite lookup_singleton_ne.
  - destruct (decide (a = 0)) as [->|Hne]; [by rewrite lookup_singleton_eq|].
    by rewrite lookup_singleton_ne.
Qed.

(** A subscribing call with a callback not in use establishes the invariant
    for the unsubscribe function it returns. *)
Lemma teardown_inv_subscribed sub c :
  subscribes sub k → teardown_inv k UnNoop (state c) →
  teardown_inv k (returned sub (state c)) (state (step sub c)).
Proof.
  intros Hsub [Hclo _]. set (st := state c) in *.
  assert (Hold : ∀ pl cb e, registered st pl = Some cb →
            foreign k [e] (S (next_env st)) cb ∨ e ≠ next_env st).
  { intros pl cb e Hpl. destruct (decide (e = next_env st)) as [->|]; [left|by right].
    destruct (Hclo pl cb Hpl) as [[Hm He]|Hcov]; [|by apply covered_noop in Hcov].
    split; [done|]. intros e Hin. destruct (He e Hin) as [Hlt _]. split; [lia|].
    intros ->%list_elem_of_singleton. lia. }
  destruct sub as [| |this k' th riu r tg| |this k' th r tg| | | | |]; try done;
    simpl in Hsub; subst k'; cbn [step returned state].
  - destruct (on_spec this (UserCallback k th) riu r tg st)
      as (unsubs & Hu & Hn & Ho & Hm & Hl & Hr).
    fold st. rewrite Hu.
    assert (Henv : on_env (next_env st) (on this (UserCallback k th) riu r tg st).1
                   = mkOnEnv None None unsubs).
    { unfold on_env. by rewrite Ho, lookup_insert_eq. }
    assert (Htree : tree_envs (UnOn this (counter (cell this st)) (next_env st) r)
                      (on this (UserCallback k th) riu r tg st).1 = [next_env st]).
    { unfold tree_envs. cbn [tree_of]. by rewrite Henv. }
    split.
    + intros pl cb Hpl. rewrite Htree, Hn.
      destruct (Hr pl cb Hpl) as [Hpl'|[-> Hplace]].
      * left. by destruct (Hold pl cb (next_env st) Hpl').
      * right. left. eexists _, _, _, _, _, _, _. split; [done|]. split; [done|].
        destruct Hplace as [->|(l & -> & Hl')]; [by left|right].
        exists l. by rewrite Henv.
    + rewrite Htree, Hn. intros e ->%list_elem_of_singleton. lia.
  - destruct (map_handle_spec this (UserCallback k th) r tg st)
      as (subs & Hh & Hn & Ho & Hm & Hl & Hr).
    unfold map. fold st.
    destruct (map_handle this (UserCallback k th) r tg st) as [st' h]. cbn [fst snd] in *.
    assert (Henv : map_env (mh_env h) st' = mkMapEnv ∅ subs []).
    { unfold map_env. rewrite Hm, Hh. simpl. by rewrite lookup_insert_eq. }
    assert (Htree : tree_of (UnMap r h) st' = [(r, h)]).
    { cbn [tree_of]. apply nested_leaf. by rewrite Henv. }
    assert (Henvs : tree_envs (UnMap r h) st' = [next_env st]).
    { unfold tree_envs. rewrite Htree, Hh. done. }
    split.
    + intros pl cb Hpl. rewrite Henvs, Hn.
      destruct (Hr pl cb Hpl) as [Hpl'|[[-> ->]|(l & -> & Hl' & ->)]].
      * left. by destruct (Hold pl cb (next_env st) Hpl').
      * right. right. exists r, h, (UserCallback k th), tg. rewrite Htree.
        split; [left|]. split; [done|]. left. by rewrite Hh.
      * right. right. exists r, h, (UserCallback k th), tg. rewrite Htree.
        split; [left|]. split; [done|]. right. exists l. rewrite Henv.
        split; [done|]. split; [done|]. by rewrite Hh.
    + rewrite Henvs, Hn. intros e ->%list_elem_of_singleton. lia.
Qed.

Lemma returned_subscribes sub st : subscribes sub k → returned sub st ≠ UnNoop.
Proof.
  destruct sub as [| |this k' th riu r tg| |this k' th r tg| | | | |]; try done;
    intros _; cbn [returned].
  - destruct (on_spec this (UserCallback k' th) riu r tg st) as (unsubs & -> & _). done.
  - unfold map. by destruct (map_handle this (UserCallback k' th) r tg st).
Qed.

(** Once everything the unsubscribe function clears is gone, nothing the
    engine keeps leads to [k]. *)
Lemma teardown_inv_torn u st :
  teardown_inv k u st → torn u st → teardown_inv k UnNoop st.
Proof.
  intros [Hclo _] Htorn. split; [|by intros e ?%elem_of_nil].
  intros pl cb Hpl. left. destruct (Hclo pl cb Hpl) as [[Hm He]|Hcov].
  { split; [done|]. intros e Hin. destruct (He e Hin). split; [done|]. by intros ?%elem_of_nil. }
  exfalso.
  destruct Hcov as [(this & uid & e & r & th & riu & tg & -> & -> & Hplace)
                   |(r & h & c & tg & Hrh & Hc & Hplace)].
  - destruct Htorn as (Hon & Hlis & _).
    destruct Hplace as [->|(l & -> & Hl)]; [congruence|].
    rewrite (Hlis l Hl) in Hpl. done.
  - assert (Habs : absent h st).
    { destruct u as [|l|this uid e r0|r0 h0|[p|] sid]; cbn [torn tree_of] in *;
        try (by apply elem_of_nil in Hrh).
      - destruct Htorn as (_ & _ & Hmap). by apply (Hmap (r, h)).
      - by apply (Htorn (r, h)). }
    destruct Habs as [Hsub Hlis].
    destruct Hplace as [[-> ->]|(l & -> & Hl & ->)]; [congruence|].
    rewrite (Hlis l Hl) in Hpl. done.
Qed.

End Teardown.

(** C6. Take any history of the engine from the initial world, then a call of
    [on] or of [map] with a callback [k] that is in use nowhere else, then
    any further steps, then a call of the unsubscribe function that [on] or
    [map] returned.  From then on, whatever happens (adapters notifying,
    writes and their continuations running the subscribers of a node and of
    its parent, other subscriptions coming and going, the unsubscribe
    function being called again), [k] is never called again, neither by the
    subscription nor by the nested subscriptions it opened: what is added to
    the log holds no call of [k].  Calling the unsubscribe function twice in a row leaves every state as
    calling it once does; and any call of it, at any time, registers
    nothing, calls no user function and leaves the environments of the
    closures alone. *)
Theorem unsubscribe_silences sub k inputs0 inputs1 inputs2 :
  subscribes sub k →
  Forall (λ inp, k ∉ input_callbacks inp) (inputs0 ++ inputs1 ++ inputs2) →
  let c0 := run inputs0 initial in
  let u := returned sub (state c0) in
  let c1 := run inputs1 (step sub c0) in
  let c2 := run inputs2 (step (CallUnsubscribe u) c1) in
  (∃ later, log (state c2) = log (state c1) ++ later ∧ calls k later = [])
  ∧ (∀ st, run_unsubscribe u (run_unsubscribe u st) = run_unsubscribe u st)
  ∧ ∀ st, quiet st (run_unsubscribe u st).
Proof.
  intros Hsub Hok c0 u c1 c2.
  split; [|split; [intros st; apply run_unsubscribe_twice
                  |intros st; apply quiet_run_unsubscribe]].
  assert (Hlog : log (state c1) `prefix_of` log (state c2)).
  { etrans; [apply (log_extends_step (CallUnsubscribe u) c1)|].
    apply log_extends_run. }
  destruct Hlog as [later Hlater]. exists later. split; [done|].
  cut (calls k (log (state c2)) = calls k (log (state c1))).
  { rewrite Hlater, calls_app. intros Heq.
    apply (app_inv_head (calls k (log (state c1)))). by rewrite app_nil_r. }
  apply Forall_app in Hok as [Hok0 Hok]. apply Forall_app in Hok as [Hok1 Hok2].
  assert (H0 : teardown_inv k UnNoop (state c0)).
  { apply (subscription_inv_run k UnNoop [] inputs0 initial Hok0).
    split; [apply teardown_inv_initial|done]. }
  assert (H1 : teardown_inv k u (state c1)).
  { apply (subscription_inv_run k u [] inputs1 (step sub c0) Hok1).
    split; [by apply teardown_inv_subscribed|].
    intros Hu. by apply (returned_subscribes k sub (state c0)) in Hu. }
  assert (H2 : subscription_inv k UnNoop (calls k (log (state c1)))
                 (state (step (CallUnsubscribe u) c1))).
  { cbn [step state]. pose proof (quiet_run_unsubscribe u (state c1)) as Hq. split.
    - eapply teardown_inv_torn; [by eapply teardown_inv_quiet|apply run_unsubscribe_torn].
    - intros _. by destruct Hq as (_ & _ & _ & -> & _). }
  exact (proj2 (subscription_inv_run k UnNoop _ inputs2 _ Hok2 H2) eq_refl).
Qed.

Lemma unsubscribe_silences_witness :
  let r := root [0] in
  let a := (get r "a" initial_state).2 in
  let sub := CallOn r 7 false false 2 (λ v, v) in
  let inputs0 := [CallGet r "a"] in
  let inputs1 := [Notify 0 (JObject []) "" (Some 1%Z); Notify 1 (JNumber 5) "/a" (Some 2%Z);
                  Notify 1 (JObject []) "/b" (Some 2%Z);
                  Notify 2 (JNumber 6) "/b/c" (Some 3%Z)] in
  let inputs2 := [Notify 1 (JNumber 8) "/a" (Some 9%Z); Notify 0 (JNumber 2) "" (Some 9%Z);
                  Notify 2 (JNumber 6) "/b/c" (Some 13%Z);
                  CallPut a (JNumber 3) 20%Z None; Settle 0 true; Resume 0 [];
                  Settle 1 true; Resume 0 [0]; Resume 0 []] in
  let c0 := run inputs0 initial in
  let u := returned sub (state c0) in
  let c1 := run inputs1 (step sub c0) in
  let c2 := run inputs2 (step (CallUnsubscribe u) c1) in
  subscribes sub 7
  ∧ Forall (λ inp, 7 ∉ input_callbacks inp) (inputs0 ++ inputs1 ++ inputs2)
  ∧ ∃ later, log (state c2) = log (state c1) ++ later ∧ calls 7 later = [].
Proof.
  intros r a sub inputs0 inputs1 inputs2 c0 u c1 c2.
  assert (Hsub : subscribes sub 7) by reflexivity.
  assert (Hok : Forall (λ inp, 7 ∉ input_callbacks inp) (inputs0 ++ inputs1 ++ inputs2)).
  { subst inputs0 inputs1 inputs2. simpl.
    repeat (constructor; [simpl; by intros ?%elem_of_nil|]). constructor. }
  split; [exact Hsub|]. split; [exact Hok|].
  exact (proj1 (unsubscribe_silences sub 7 inputs0 inputs1 inputs2 Hsub Hok)).
Defined.

(** The same history without the call of the unsubscribe function: the
    notifications and the write that follow call [k] four more times. *)
Lemma calls_go_on_without_unsubscribe :
  let r := root [0] in
  let a := (get r "a" initial_state).2 in
  let sub := CallOn r 7 false false 2 (λ v, v) in
  let inputs1 := [Notify 0 (JObject []) "" (Some 1%Z); Notify 1 (JNumber 5) "/a" (Some 2%Z);
                  Notify 1 (JObject []) "/b" (Some 2%Z);
                  Notify 2 (JNumber 6) "/b/c" (Some 3%Z)] in
  let inputs2 := [Notify 1 (JNumber 8) "/a" (Some 9%Z); Notify 0 (JNumber 2) "" (Some 9%Z);
                  Notify 2 (JNumber 6) "/b/c" (Some 13%Z);
                  CallPut a (JNumber 3) 20%Z None; Settle 0 true; Resume 0 [];
                  Settle 1 true; Resume 0 [0]; Resume 0 []] in
  let c1 := run inputs1 (step sub (run [CallGet r "a"] initial)) in
  length (calls 7 (log (state c1))) = 2
  ∧ length (calls 7 (log (state (run inputs2 c1)))) = 6
  ∧ length (calls 7 (log (state (run inputs2
               (step (CallUnsubscribe (returned sub (state (run [CallGet r "a"] initial))))
                  c1))))) = 2.
Proof. vm_compute. done. Qed.

(** * Further properties: resolving paths *)

Section FreshPaths.

Lemma join_split s : Path.join (Path.split s) = s.
Proof.
  induction s as [|c s IH]; [done|]. cbn [Path.split].
  destruct (Ascii.eqb c Path.slash) eqn:Hc.
  - apply Ascii.eqb_eq in Hc as ->. pose proof (split_nonempty s) as Hne.
    destruct (Path.split s) as [|seg segs] eqn:Hs; [done|].
    change (Path.join ("" :: seg :: segs)) with ("" +:+ String Path.slash (Path.join (seg :: segs))).
    by rewrite IH.
  - pose proof (split_nonempty s) as Hne.
    destruct (Path.split s) as [|seg segs] eqn:Hs; [done|].
    destruct segs as [|seg' segs].
    + simpl in *. by rewrite IH.
    + change (Path.join (String c seg :: seg' :: segs))
        with (String c (seg +:+ String Path.slash (Path.join (seg' :: segs)))).
      f_equal. exact IH.
Qed.

Lemma string_app_assoc (s1 s2 s3 : string) : (s1 +:+ s2) +:+ s3 = s1 +:+ (s2 +:+ s3).
Proof.
  induction s1 as [|c s1 IH]; [done|].
  change (String c ((s1 +:+ s2) +:+ s3) = String c (s1 +:+ (s2 +:+ s3))). by rewrite IH.
Qed.

Lemma child_id_join i seg seg' rest :
  Path.child_id (Path.child_id i seg) (Path.join (seg' :: rest))
  = Path.child_id i (Path.join (seg :: seg' :: rest)).
Proof.
  unfold Path.child_id.
  change (Path.join (seg :: seg' :: rest))
    with (seg +:+ String Path.slash (Path.join (seg' :: rest))).
  rewrite string_app_assoc. done.
Qed.

(** A miss in the cache of [this]: the new object is empty, and it is
    entered in the cache. *)
Lemma get_child_miss this seg st :
  heap_wf st → live this st → children (cell this st) !! seg = None →
  let node := mkNode (next_addr st) (Path.child_id (id this) seg) (adapters this) (Some this) in
  (get_child this seg st).2 = node
  ∧ cell node (get_child this seg st).1 = empty_cell
  ∧ next_addr (get_child this seg st).1 = S (next_addr st)
  ∧ heap st !! next_addr st = None.
Proof.
  intros Hwf [c0 Hc0] Hmiss node. unfold get_child. rewrite Hmiss. cbn [new_child fst snd].
  pose proof (wf_bound _ Hwf _ _ Hc0) as Hlt.
  assert (Hnone : heap st !! next_addr st = None).
  { destruct (heap st !! next_addr st) as [c|] eqn:Hc; [|done].
    pose proof (wf_bound _ Hwf _ _ Hc). lia. }
  split; [done|]. split; [|done].
  unfold cell. simpl. rewrite lookup_alter_ne by lia. by rewrite lookup_insert_eq.
Qed.

Lemma get_segments_fresh segs : ∀ this st,
  segs ≠ [] → heap_wf st → live this st →
  children (cell this st) !! hd EmptyString segs = None →
  let res := get_segments this segs st in
  id res.2 = Path.child_id (id this) (Path.join segs)
  ∧ adapters res.2 = adapters this
  ∧ (∃ between, ancestors res.2 = between ++ this :: ancestors this
                ∧ S (length between) = length segs)
  ∧ addr res.2 = next_addr st + length segs - 1
  ∧ cell res.2 res.1 = empty_cell
  ∧ next_addr res.1 = next_addr st + length segs.
Proof.
  induction segs as [|seg rest IH]; intros this st Hne Hwf Hlive Hmiss; [done|].
  cbn [hd] in Hmiss.
  destruct (get_child_miss this seg st Hwf Hlive Hmiss) as (Hnode & Hcell & Hnext & Hnone).
  destruct (get_child this seg st) as [st1 node] eqn:Hget.
  destruct (get_child_cached this seg st st1 node Hwf Hlive Hget) as (_ & Hwf1 & Hl1 & _).
  cbn [fst snd] in *. rewrite get_segments_cons, Hget. subst node.
  set (node := mkNode (next_addr st) (Path.child_id (id this) seg) (adapters this) (Some this))
    in *.
  destruct rest as [|seg' rest'].
  - cbn [get_segments fst snd id adapters addr length].
    split; [done|]. split; [done|]. split; [by exists []|].
    split; [simpl; lia|]. split; [exact Hcell|lia].
  - specialize (IH node st1 ltac:(done) Hwf1 Hl1).
    cbn [hd] in IH. rewrite Hcell in IH. specialize (IH (lookup_empty _)).
    cbv zeta in IH. destruct IH as (Hid & Hads & (between & Hanc & Hlen) & Haddr & Hc & Hn).
    cbv zeta. split; [|split; [|split; [|split; [|split]]]].
    + rewrite Hid. apply child_id_join.
    + by rewrite Hads.
    + exists (between ++ [node]). split.
      * by rewrite Hanc, <- app_assoc.
      * rewrite length_app. cbn [length] in *. lia.
    + rewrite Haddr, Hnext. cbn [length]. lia.
    + done.
    + rewrite Hn, Hnext. cbn [length]. lia.
Qed.

(** X1. Where the first segment of the key is not in the cache of [this],
    [get] creates one object per segment.  The handle it returns has the id
    of [this] followed by [/] and the key, the adapters of [this], and [this]
    as ancestor, one level up per segment; it is a new object, with no child,
    no subscription and counter 0. *)
Theorem get_creates_path this key st :
  heap_wf st → live this st →
  children (cell this st) !! hd EmptyString (Path.split key) = None →
  let st' := (get this key st).1 in
  let n := (get this key st).2 in
  id n = Path.child_id (id this) key
  ∧ adapters n = adapters this
  ∧ (∃ between, ancestors n = between ++ this :: ancestors this
                ∧ S (length between) = length (Path.split key))
  ∧ heap st !! addr n = None
  ∧ cell n st' = empty_cell
  ∧ next_addr st' = next_addr st + length (Path.split key).
Proof.
  intros Hwf Hlive Hmiss st' n.
  destruct (get_segments_fresh (Path.split key) this st (split_nonempty key) Hwf Hlive Hmiss)
    as (Hid & Hads & Hanc & Haddr & Hcell & Hnext).
  rewrite join_split in Hid.
  split; [done|]. split; [done|]. split; [done|]. split; [|done].
  destruct (heap st !! addr n) as [c|] eqn:Hc; [|done].
  pose proof (wf_bound _ Hwf _ _ Hc) as Hlt. pose proof (split_nonempty key) as Hne.
  subst n. unfold get in Hlt. rewrite Haddr in Hlt.
  destruct (Path.split key); [done|]. cbn [length] in Hlt. lia.
Qed.

Lemma get_creates_path_witness :
  let r := root [0; 1] in
  let n := (get r "apps/canvas" initial_state).2 in
  id n = "/apps/canvas" ∧ adapters n = [0; 1] ∧ cell n (get r "apps/canvas" initial_state).1 = empty_cell.
Proof.
  intros r n.
  pose proof (get_creates_path r "apps/canvas" initial_state initial_wf (root_live [0; 1]) eq_refl)
    as (Hid & Hads & _ & _ & Hcell & _).
  split; [exact Hid|]. split; [exact Hads|exact Hcell].
Defined.

End FreshPaths.

(** * The store under the subscribing calls *)

Ltac store_prims :=
  first [ apply cache_frame_refl | apply cache_frame_trans
        | apply cache_frame_get_child
        | intros; apply cache_frame_set_cell; done
        | intros; apply cache_frame_same_heap; done ].

Section StoreFrame.

Lemma cache_frame_on this callback returnIfUndefined recursion typeGuard st :
  cache_frame st (on this callback returnIfUndefined recursion typeGuard st).1.
Proof. apply frame_on; store_prims. Qed.

Lemma cache_frame_map this callback recursion typeGuard st :
  cache_frame st (map this callback recursion typeGuard st).1.
Proof. apply frame_map; store_prims. Qed.

Lemma cache_frame_run_unsubscribe u st : cache_frame st (run_unsubscribe u st).
Proof. apply frame_run_unsubscribe; store_prims. Qed.

Lemma cache_frame_sets path value updatedAt expiresAt adapters st :
  cache_frame st (map_s (adapter_set path value updatedAt expiresAt) adapters st).1.
Proof. apply frame_map_s; store_prims. Qed.

Lemma cache_frame_notifyChange this value updatedAt st :
  cache_frame st (notifyChange this value updatedAt st).1.
Proof.
  unfold notifyChange, bind, gets. apply frame_for_each; [store_prims..|].
  intros sid s. unfold notify_subscriber, bind, gets.
  destruct (table_get sid _) as [entry|]; [|store_prims].
  destruct (_ && _); [store_prims|]. apply cache_frame_invoke.
Qed.

End StoreFrame.

Section CacheOnly.

Lemma cache_only_refl st : cache_only st st.
Proof. by repeat split. Qed.

Lemma cache_only_trans st1 st2 st3 : cache_only st1 st2 → cache_only st2 st3 → cache_only st1 st3.
Proof.
  intros (A1 & A2 & A3 & A4 & A5 & A6 & A7 & A8 & A9 & A10 & A11)
         (B1 & B2 & B3 & B4 & B5 & B6 & B7 & B8 & B9 & B10 & B11).
  repeat split; try congruence.
  - destruct (A11 x) as (<- & _ & _). apply B11.
  - destruct (A11 x) as (_ & <- & _). apply B11.
  - destruct (A11 x) as (_ & _ & <-). apply B11.
Qed.

Lemma cache_only_get_child this seg st : heap_wf st → cache_only st (get_child this seg st).1.
Proof.
  intros Hwf. unfold get_child.
  destruct (children (cell this st) !! seg) as [node|]; [apply cache_only_refl|].
  cbn [new_child fst]. repeat split; try done.
  all: assert (Hnone : heap st !! next_addr st = None)
    by (destruct (heap st !! next_addr st) as [c|] eqn:Hc; [|done];
        pose proof (wf_bound _ Hwf _ _ Hc); lia).
  all: unfold cell; simpl.
  all: destruct (decide (addr x = addr this)) as [Hx|Hx];
    [rewrite Hx, lookup_alter_eq|rewrite lookup_alter_ne by done].
  all: destruct (decide (addr this = next_addr st)) as [Ht|Ht];
    destruct (decide (addr x = next_addr st)) as [Hn|Hn];
    rewrite ?Ht, ?Hn, ?lookup_insert_eq, ?Hnone; try done.
  all: try (rewrite lookup_insert_ne by congruence).
  all: try (by destruct (heap st !! addr this)).
  all: try done.
  all: try congruence.
Qed.

Lemma cache_only_get_segments segs : ∀ this st,
  heap_wf st → live this st →
  cache_only st (get_segments this segs st).1
  ∧ heap_wf (get_segments this segs st).1
  ∧ cache_le st (get_segments this segs st).1.
Proof.
  induction segs as [|seg rest IH]; intros this st Hwf Hlive.
  - split; [apply cache_only_refl|]. split; [done|apply cache_le_refl].
  - rewrite get_segments_cons.
    pose proof (cache_only_get_child this seg st Hwf) as Hco.
    destruct (get_child this seg st) as [st1 node] eqn:Hget.
    destruct (get_child_cached this seg st st1 node Hwf Hlive Hget) as (_ & Hwf1 & Hl1 & Hle).
    destruct (IH node st1 Hwf1 Hl1) as (Hco2 & Hwf2 & Hle2).
    split; [by eapply cache_only_trans|]. split; [done|by eapply cache_le_trans].
Qed.

(** X2. [get] is a lookup that fills caches: it calls no callback and no
    adapter, leaves every subscription table, counter, listener, promise and
    environment as it was, keeps every cached handle in place, and keeps the
    store well formed. *)
Theorem get_only_fills_caches this key st :
  heap_wf st → live this st →
  cache_only st (get this key st).1
  ∧ cache_le st (get this key st).1
  ∧ heap_wf (get this key st).1
  ∧ live (get this key st).2 (get this key st).1.
Proof.
  intros Hwf Hlive.
  destruct (cache_only_get_segments (Path.split key) this st Hwf Hlive) as (Hco & Hwf' & Hle).
  split; [done|]. split; [done|]. split; [done|].
  destruct (get this key st) as [st1 n] eqn:Hget.
  by destruct (get_segments_cached _ _ _ _ _ Hwf Hlive Hget) as (_ & _ & Hl & _).
Qed.

Lemma get_only_fills_caches_witness :
  let r := root [0] in
  let st := (on r (UserCallback 7 false) false 1 (λ v, v) initial_state).1 in
  cache_only st (get r "a/b" st).1.
Proof.
  intros r st.
  assert (Hwf : heap_wf st) by apply (cache_frame_on r _ _ _ _ _ initial_wf).
  assert (Hlive : live r st) by apply (cache_frame_on r _ _ _ _ _ initial_wf), root_live.
  exact (proj1 (get_only_fills_caches r "a/b" st Hwf Hlive)).
Defined.

End CacheOnly.

(** * Further properties: the directory marker *)

Section AdapterWrites.

Lemma sets_spec path value t e ads : ∀ st,
  let res := map_s (adapter_set path value t e) ads st in
  res.2 = seq (next_promise st) (length ads)
  ∧ log res.1 = log st ++ set_events path value t e ads (next_promise st)
  ∧ next_promise res.1 = next_promise st + length ads
  ∧ log_only st res.1.
Proof.
  induction ads as [|a ads IH]; intros st.
  { cbn. rewrite app_nil_r. split; [done|]. split; [done|]. split; [lia|]. by repeat split. }
  cbn [map_s]. specialize (IH (adapter_set path value t e a st).1).
  destruct (adapter_set path value t e a st) as [s1 p] eqn:Hs.
  unfold adapter_set in Hs. injection Hs as <- <-. cbv zeta in IH. cbn [fst] in IH.
  destruct (map_s _ ads _) as [s2 ps]. cbn [fst snd] in *.
  destruct IH as (Hps & Hlog & Hnext & Hlo). cbn in Hps, Hlog, Hnext.
  split; [by rewrite Hps|]. split; [|split].
  - rewrite Hlog, <- app_assoc. done.
  - rewrite Hnext. cbn [length]. lia.
  - destruct Hlo as (A1 & A2 & A3 & A4 & A5 & A6 & A7 & A8 & A9 & A10).
    by repeat split.
Qed.

Lemma log_only_cell x st st' : log_only st st' → cell x st' = cell x st.
Proof. intros (Hh & _). unfold cell. by rewrite Hh. Qed.

Lemma log_only_on_env e st st' : log_only st st' → on_env e st' = on_env e st.
Proof. intros (_ & _ & _ & _ & _ & Ho & _). unfold on_env. by rewrite Ho. Qed.

End AdapterWrites.

Section DirectoryMarker.

(** The subscribers of [on] that look into directories are passed over when
    the value is the directory marker. *)
Lemma notifyChange_skipped this value updatedAt st :
  isDirectory value = true →
  (∀ sid s, table_get sid (on_subscriptions (cell this st)) = Some s → 0 < recursion s) →
  notifyChange this value updatedAt st = (st, Normal tt).
Proof.
  intros Hdir Hrec. unfold notifyChange, bind, gets.
  generalize ((on_subscriptions (cell this st)).*1). intros keys.
  induction keys as [|sid keys IH]; [done|].
  cbn [for_each]. unfold bind at 1.
  assert (Hone : notify_subscriber this value updatedAt sid st = (st, Normal tt)).
  { unfold notify_subscriber, bind, gets.
    destruct (table_get sid _) as [s|] eqn:Hs; [|done].
    apply Hrec in Hs. rewrite Hdir, andb_true_r.
    by rewrite (proj2 (Nat.ltb_lt 0 (recursion s)) Hs). }
  by rewrite Hone.
Qed.

(** X3. Writing the directory marker to a node whose [on] subscribers all
    look into directories (a recursion budget above 0, as by default) hands
    the marker to each adapter and does nothing else: no subscriber is
    called, no subscription is opened, the child cache and every table are
    as they were, and the call cannot fail before the adapters answer. *)
Theorem put_directory_marker_is_silent this value t expiresAt st :
  isDirectory value = true →
  (∀ sid s, table_get sid (on_subscriptions (cell this st)) = Some s → 0 < recursion s) →
  let res := put value this t expiresAt st in
  res.2 = AwaitLocal this value t (seq (next_promise st) (length (adapters this))) []
  ∧ log res.1 = log st ++ set_events (id this) value t expiresAt (adapters this) (next_promise st)
  ∧ log_only st res.1.
Proof.
  intros Hdir Hrec res. subst res.
  assert (Hobj : isNonEmptyObject value = false).
  { destruct value as [| | | | | |[|f fs]]; done. }
  rewrite put_unfold, Hobj, putValue_unfold. cbv zeta. rewrite Hdir. cbn [negb].
  destruct (sets_spec (id this) value t expiresAt (adapters this) st)
    as (Hps & Hlog & _ & Hlo).
  destruct (map_s _ (adapters this) st) as [st1 promises]. cbn [fst snd] in *.
  rewrite notifyChange_skipped; [by rewrite Hps|done|].
  intros sid s. rewrite (log_only_cell this st st1 Hlo). apply Hrec.
Qed.

Lemma put_directory_marker_is_silent_witness :
  let r := root [0; 1] in
  let st := (on r (UserCallback 7 false) false 1 (λ v, v) initial_state).1 in
  (put DIRECTORY_VALUE r 5%Z None st).2 = AwaitLocal r DIRECTORY_VALUE 5%Z [0; 1] []
  ∧ log (put DIRECTORY_VALUE r 5%Z None st).1
    = [AdapterSet 0 "" DIRECTORY_VALUE 5%Z None 0; AdapterSet 1 "" DIRECTORY_VALUE 5%Z None 1].
Proof.
  intros r st.
  assert (Hrec : ∀ sid s, table_get sid (on_subscriptions (cell r st)) = Some s → 0 < recursion s).
  { intros sid s. vm_compute. destruct sid; [|done]. intros [= <-]. simpl. lia. }
  destruct (put_directory_marker_is_silent r DIRECTORY_VALUE 5%Z None st eq_refl Hrec)
    as (Htask & Hlog & _).
  split; [exact Htask|exact Hlog].
Defined.

End DirectoryMarker.

(** * Further properties: a write heard by a subscriber *)

Section Subscribing.

(** The listeners a round of [adapter.get] or [adapter.list] registers: one
    per adapter, under consecutive identifiers. *)
Lemma registers_more (mk : nat → Listener) ads : ∀ st st' ls,
  map_s (λ a, register (mk a)) ads st = (st', ls) →
  ls = seq (next_listener st) (length ads)
  ∧ next_listener st' = next_listener st + length ads
  ∧ next_addr st' = next_addr st ∧ settled st' = settled st
  ∧ next_promise st' = next_promise st
  ∧ open_envs st' = open_envs st ∧ once_envs st' = once_envs st
  ∧ (∀ i a, ads !! i = Some a → listeners st' !! (next_listener st + i) = Some (mk a))
  ∧ (∀ l, l < next_listener st ∨ next_listener st + length ads ≤ l →
          listeners st' !! l = listeners st !! l).
Proof.
  induction ads as [|a ads IH]; intros st st' ls; cbn [map_s].
  { intros [= <- <-]. cbn [length seq]. repeat split; try done; lia. }
  destruct (register (mk a) st) as [st1 l] eqn:Hreg.
  destruct (map_s _ ads st1) as [st2 ls'] eqn:Hrest. intros [= <- <-].
  destruct (IH st1 st2 ls' Hrest) as (Hls & Hn & Ha & Hs & Hp & Ho & Hc & Hin & Hout).
  unfold register in Hreg. injection Hreg as <- <-. cbn in *.
  split; [by rewrite Hls|]. split; [lia|]. do 5 (split; [done|]). split.
  - intros [|i] a' Hi; cbn in Hi.
    + injection Hi as <-. rewrite Nat.add_0_r, Hout by lia. apply lookup_insert_eq.
    + replace (next_listener st + S i) with (S (next_listener st + i)) by lia.
      by apply Hin.
  - intros l Hl. rewrite Hout by lia. apply lookup_insert_ne. lia.
Qed.

(** The state [on] leaves. *)
Lemma on_store this c riu r tg st :
  let res := on this c riu r tg st in
  let uid := counter (cell this st) in
  let cb := OnLocalCallback (next_env st) this c riu r tg in
  res.2 = UnOn this uid (next_env st) r
  ∧ heap res.1 = alter (with_on_subscriptions (table_set uid (mkSubscription cb r))) (addr this)
                   (alter (with_counter (S uid)) (addr this) (heap st))
  ∧ on_envs res.1 = <[next_env st := mkOnEnv None None
                        (seq (next_listener st) (length (adapters this)))]> (on_envs st)
  ∧ next_listener res.1 = next_listener st + length (adapters this)
  ∧ (∀ i a, adapters this !! i = Some a →
       listeners res.1 !! (next_listener st + i) = Some (mkListener a false (id this) cb))
  ∧ (∀ l, l < next_listener st ∨ next_listener st + length (adapters this) ≤ l →
       listeners res.1 !! l = listeners st !! l)
  ∧ next_addr res.1 = next_addr st ∧ settled res.1 = settled st
  ∧ next_promise res.1 = next_promise st
  ∧ open_envs res.1 = open_envs st ∧ once_envs res.1 = once_envs st
  ∧ map_envs res.1 = map_envs st ∧ log res.1 = log st ∧ next_env res.1 = S (next_env st).
Proof.
  unfold on, next_counter, fresh_env. cbv zeta.
  set (e := next_env st).
  set (st2 := set_on_envs _ (set_next_env _ st)).
  assert (Hcell : cell this st2 = cell this st) by done.
  rewrite Hcell. set (uid := counter (cell this st)).
  set (st4 := set_cell this (with_on_subscriptions _) _).
  destruct (map_s (adapter_get (id this) _) (adapters this) st4) as [st5 unsubs] eqn:Hms.
  destruct (registers_spec (λ a, mkListener a false (id this)
              (OnLocalCallback e this c riu r tg)) (adapters this) st4 st5 unsubs Hms)
    as (Hh & Ho & Hm & Hn & Hl & _).
  destruct (registers_more (λ a, mkListener a false (id this)
              (OnLocalCallback e this c riu r tg)) (adapters this) st4 st5 unsubs Hms)
    as (Hls & Hnl & Ha & Hs & Hp & Hoe & Hce & Hin & Hout).
  cbn [fst snd] in *.
  split; [done|]. split; [simpl; by rewrite Hh|]. split.
  { unfold set_adapterUnsubscribes, on_env. simpl. rewrite Ho. subst st4 st2. simpl.
    by rewrite lookup_insert_eq, insert_insert_eq, Hls. }
  split; [simpl; by rewrite Hnl|]. split; [intros i a Hi; simpl; by apply Hin|].
  split; [intros l Hl'; simpl; by apply Hout|].
  simpl. by rewrite Ha, Hs, Hp, Hoe, Hce, Hm, Hl, Hn.
Qed.

(** The state [map] leaves. *)
Lemma map_store this c r tg st :
  let res := map this c r tg st in
  let sid := counter (cell this st) in
  let e := next_env st in
  let subs := seq (next_listener st) (length (adapters this)) in
  res.2 = UnMap r (mkMapHandle this sid e)
  ∧ heap res.1 = alter (with_map_subscriptions
                          (table_set sid (mkSubscription (MapTypedCallback c tg) r)))
                   (addr this) (alter (with_counter (S sid)) (addr this) (heap st))
  ∧ map_envs res.1 = <[e := mkMapEnv ∅ subs []]> (map_envs st)
  ∧ next_listener res.1 = next_listener st + length (adapters this)
  ∧ (∀ i a, adapters this !! i = Some a →
       listeners res.1 !! (next_listener st + i)
       = Some (mkListener a true (id this) (MapListCallback e this sid c r tg)))
  ∧ (∀ l, l < next_listener st ∨ next_listener st + length (adapters this) ≤ l →
       listeners res.1 !! l = listeners st !! l)
  ∧ next_addr res.1 = next_addr st ∧ settled res.1 = settled st
  ∧ next_promise res.1 = next_promise st
  ∧ open_envs res.1 = open_envs st ∧ once_envs res.1 = once_envs st
  ∧ on_envs res.1 = on_envs st ∧ log res.1 = log st ∧ next_env res.1 = S (next_env st).
Proof.
  unfold map, map_handle, next_counter, fresh_env. cbv zeta.
  set (sid := counter (cell this st)). set (e := next_env st).
  set (st4 := set_map_envs _ (set_next_env _ (set_cell this (with_map_subscriptions _)
                (set_cell this (with_counter _) st)))).
  destruct (map_s (adapter_list (id this) _) (adapters this) st4) as [st5 subs] eqn:Hms.
  destruct (registers_spec (λ a, mkListener a true (id this) (MapListCallback e this sid c r tg))
              (adapters this) st4 st5 subs Hms) as (Hh & Ho & Hm & Hn & Hl & _).
  destruct (registers_more (λ a, mkListener a true (id this) (MapListCallback e this sid c r tg))
              (adapters this) st4 st5 subs Hms)
    as (Hls & Hnl & Ha & Hs & Hp & Hoe & Hce & Hin & Hout).
  cbn [fst snd] in *.
  split; [done|]. split; [simpl; by rewrite Hh|]. split.
  { simpl. rewrite Hm. subst st4. simpl. by rewrite insert_insert_eq, Hls. }
  split; [simpl; by rewrite Hnl|]. split; [intros i a Hi; simpl; by apply Hin|].
  split; [intros l Hl'; simpl; by apply Hout|].
  simpl. by rewrite Ha, Hs, Hp, Hoe, Hce, Ho, Hl, Hn.
Qed.

End Subscribing.

Section RoundTrip.

(** A write to a node with one subscriber of [on]. *)
Lemma on_then_put this k throws riu r tg v t expiresAt st :
  live this st → on_subscriptions (cell this st) = [] →
  isNonEmptyObject v = false → isDirectory v = false → is_undefined v = false →
  let st1 := (on this (UserCallback k throws) riu r tg st).1 in
  let res := put v this t expiresAt st1 in
  log res.1 = log st ++ set_events (id this) v t expiresAt (adapters this) (next_promise st)
              ++ [Call k (tg v) (id this) (Some t) UnNoop]
  ∧ res.2 = (if throws then Rejected
             else AwaitLocal this v t (seq (next_promise st) (length (adapters this))) [])
  ∧ latestValue (on_env (next_env st) res.1) = Some (v, t).
Proof.
  intros [c0 Hc0] Hsubs Hobj Hdir Hund st1 res.
  destruct (on_store this (UserCallback k throws) riu r tg st)
    as (_ & Hheap & Honv & _ & _ & _ & _ & _ & Hnp & _ & _ & _ & Hlog & _).
  fold st1 in Hheap, Honv, Hnp, Hlog.
  set (uid := counter (cell this st)) in *.
  set (e := next_env st) in *.
  set (cb := OnLocalCallback e this (UserCallback k throws) riu r tg) in *.
  subst res. rewrite put_unfold, Hobj, putValue_unfold. cbv zeta. rewrite Hdir. cbn [negb].
  set (st0 := set_cell this (with_children (λ _, ∅)) st1).
  destruct (sets_spec (id this) v t expiresAt (adapters this) st0) as (Hps & Hl0 & _ & Hlo).
  destruct (map_s _ (adapters this) st0) as [stS promises]. cbn [fst snd] in *.
  assert (Hcell : on_subscriptions (cell this stS) = [(uid, mkSubscription cb r)]).
  { rewrite (log_only_cell this st0 stS Hlo). unfold cell. subst st0. simpl.
    rewrite lookup_alter_eq, Hheap, !lookup_alter_eq, Hc0. simpl.
    rewrite (cell_lookup _ _ _ Hc0) in Hsubs. by rewrite Hsubs. }
  assert (Henv : on_env e stS = mkOnEnv None None (seq (next_listener st) (length (adapters this)))).
  { rewrite (log_only_on_env e st0 stS Hlo). unfold on_env. subst st0. simpl.
    by rewrite Honv, lookup_insert_eq. }
  assert (Hnotify : notifyChange this v (Some t) stS
            = (emit (Call k (tg v) (id this) (Some t) UnNoop)
                 (set_latestValue e (Some (v, t)) stS),
               if throws then Thrown else Normal tt)).
  { unfold notifyChange, bind, gets. rewrite Hcell. cbn [fmap list_fmap fst for_each].
    unfold bind at 1. unfold notify_subscriber at 1. unfold bind at 1. unfold gets at 1.
    rewrite Hcell. cbn [table_get]. rewrite decide_True by done. cbn [recursion callback].
    rewrite Hdir, andb_false_r. subst cb. rewrite invoke_OnLocalCallback. cbv zeta.
    rewrite Henv. cbn [latestValue]. unfold dropped. cbn [olderThanLatest].
    rewrite Hund. rewrite !andb_false_r. cbn [orb].
    unfold open_once. rewrite Hdir. cbn [andb negb orb].
    unfold record_latest. rewrite Hund. cbn [negb].
    rewrite invoke_UserCallback. by destruct throws. }
  rewrite Hnotify.
  assert (Hlat : latestValue (on_env e (emit (Call k (tg v) (id this) (Some t) UnNoop)
                   (set_latestValue e (Some (v, t)) stS))) = Some (v, t)).
  { unfold on_env, set_latestValue. simpl. by rewrite lookup_insert_eq. }
  assert (Hlg : log (emit (Call k (tg v) (id this) (Some t) UnNoop)
                   (set_latestValue e (Some (v, t)) stS))
                = log st ++ set_events (id this) v t expiresAt (adapters this) (next_promise st)
                  ++ [Call k (tg v) (id this) (Some t) UnNoop]).
  { simpl. rewrite Hl0. subst st0. simpl. by rewrite Hlog, Hnp, app_assoc. }
  destruct throws; cbn [fst snd].
  - split; [exact Hlg|]. split; [done|exact Hlat].
  - split; [exact Hlg|]. split; [|exact Hlat]. rewrite Hps. subst st0. simpl. by rewrite Hnp.
Qed.

Lemma cache_le_on this callback riu r tg st :
  cache_le st (on this callback riu r tg st).1.
Proof.
  destruct (on_store this callback riu r tg st) as (_ & Hheap & _).
  assert (Hlook : ∀ a, ∃ f, (∀ c, children (f c) = children c)
                   ∧ heap (on this callback riu r tg st).1 !! a = f <$> heap st !! a).
  { intros a. rewrite Hheap. destruct (decide (a = addr this)) as [->|Hne].
    - eexists (λ c, with_on_subscriptions _ (with_counter _ c)). split; [done|].
      rewrite !lookup_alter_eq. by destruct (heap st !! addr this).
    - exists (λ c, c). split; [done|]. rewrite !lookup_alter_ne by done.
      by destruct (heap st !! a). }
  split.
  - intros x seg n. unfold cell. destruct (Hlook (addr x)) as (f & Hf & ->).
    destruct (heap st !! addr x); simpl; [by rewrite Hf|done].
  - intros x [c Hx]. unfold live. destruct (Hlook (addr x)) as (f & Hf & ->).
    by rewrite Hx.
Qed.

(** X4. A subscriber of [on] hears a write made through the same path.
    After [node.get(key).on(callback)], a call of [node.get(key).put(value)]
    with a value that is no object with keys, not the directory marker and
    not undefined finds the same handle, hands the value to every adapter,
    and then calls the callback, once, with the guarded value, the id of the
    node and the timestamp of the write, before any adapter has answered.
    The fourth argument is the function that does nothing.  If the callback
    throws the call of [put] is rejected. *)
Theorem written_value_reaches_subscriber node key k throws riu r tg v t expiresAt st st1 n :
  heap_wf st → live node st → get node key st = (st1, n) →
  on_subscriptions (cell n st1) = [] →
  isNonEmptyObject v = false → isDirectory v = false → is_undefined v = false →
  let st2 := (on n (UserCallback k throws) riu r tg st1).1 in
  let res := put v n t expiresAt st2 in
  get node key st2 = (st2, n)
  ∧ log res.1 = log st ++ set_events (id n) v t expiresAt (adapters n) (next_promise st)
                ++ [Call k (tg v) (id n) (Some t) UnNoop]
  ∧ res.2 = (if throws then Rejected
             else AwaitLocal n v t (seq (next_promise st) (length (adapters n))) []).
Proof.
  intros Hwf Hlive Hget Hsubs Hobj Hdir Hund st2 res.
  destruct (get_segments_cached _ _ _ _ _ Hwf Hlive Hget) as (Hres & Hwf1 & Hl1 & _).
  destruct (cache_only_get_segments (Path.split key) node st Hwf Hlive)
    as ((Hlog & _ & _ & _ & Hnp & _) & _ & _).
  unfold get in Hget. rewrite Hget in Hlog, Hnp. cbn [fst] in Hlog, Hnp.
  destruct (on_then_put n k throws riu r tg v t expiresAt st1 Hl1 Hsubs Hobj Hdir Hund)
    as (Hl & Ht & _).
  split; [|split].
  - apply get_segments_resolved. eapply resolves_mono; [apply cache_le_on|exact Hres].
  - subst res st2. by rewrite Hl, Hlog, Hnp.
  - subst res st2. by rewrite Ht, Hnp.
Qed.

Lemma written_value_reaches_subscriber_witness :
  let r := root [0; 1] in
  let st1 := (get r "user/name" initial_state).1 in
  let n := (get r "user/name" initial_state).2 in
  let st2 := (on n (UserCallback 7 false) false 1 (λ v, v) st1).1 in
  get r "user/name" st2 = (st2, n)
  ∧ log (put (JString "Iris") n 5%Z None st2).1
    = [AdapterSet 0 "/user/name" (JString "Iris") 5%Z None 0;
       AdapterSet 1 "/user/name" (JString "Iris") 5%Z None 1;
       Call 7 (JString "Iris") "/user/name" (Some 5%Z) UnNoop].
Proof.
  intros r st1 n st2.
  assert (Hget : get r "user/name" initial_state = (st1, n)) by apply surjective_pairing.
  destruct (written_value_reaches_subscriber r "user/name" 7 false false 1 (λ v, v)
              (JString "Iris") 5%Z None initial_state st1 n initial_wf (root_live [0; 1])
              Hget eq_refl eq_refl eq_refl eq_refl) as (Hsame & Hlog & _).
  split; [exact Hsame|exact Hlog].
Defined.

End RoundTrip.

(** * Further properties: handles after a write *)

Section Orphans.

Lemma resolves_live segs : ∀ this st n,
  heap_wf st → live this st → resolves st this segs n → live n st.
Proof.
  induction segs as [|seg rest IH]; intros this st n Hwf Hlive Hres.
  - simpl in Hres. by subst.
  - destruct Hres as (c & Hc & Hres). apply (IH c); [done| |done].
    destruct Hlive as [c0 Hc0]. rewrite (cell_lookup _ _ _ Hc0) in Hc.
    by eapply wf_children.
Qed.

Lemma heap_wf_clear this st :
  heap_wf st →
  heap_wf (set_cell this (with_children (λ _, ∅)) st)
  ∧ ∀ x, live x st → live x (set_cell this (with_children (λ _, ∅)) st).
Proof.
  intros Hwf.
  assert (Hlook : ∀ a, heap (set_cell this (with_children (λ _, ∅)) st) !! a
                       = if decide (a = addr this)
                         then with_children (λ _, ∅) <$> heap st !! a else heap st !! a).
  { intros a. simpl. destruct (decide (a = addr this)) as [->|Hne].
    - by rewrite lookup_alter_eq.
    - by rewrite lookup_alter_ne. }
  assert (Hlive : ∀ x, live x st → live x (set_cell this (with_children (λ _, ∅)) st)).
  { intros x [c Hx]. unfold live. rewrite Hlook, Hx. by destruct (decide _). }
  split; [split|done].
  - intros a c. rewrite Hlook. destruct (decide _).
    + destruct (heap st !! a) as [c0|] eqn:Ha; [|done]. intros _.
      exact (wf_bound _ Hwf _ _ Ha).
    + apply (wf_bound _ Hwf).
  - intros a c seg m. rewrite Hlook. destruct (decide _).
    + destruct (heap st !! a) as [c0|] eqn:Ha; [|done]. simpl. intros [= <-].
      simpl. by rewrite lookup_empty.
    + intros Ha Hm. apply Hlive. exact (wf_children _ Hwf _ _ _ _ Ha Hm).
Qed.

(** The store after a write of a value that is neither an object with keys
    nor the directory marker. *)
Lemma put_leaf_store this v t expiresAt st :
  heap_wf st → isNonEmptyObject v = false → isDirectory v = false →
  Forall (λ entry, on_created (callback entry.2)) (on_subscriptions (cell this st)) →
  let st1 := (put v this t expiresAt st).1 in
  heap_wf st1 ∧ children (cell this st1) = ∅
  ∧ (∀ x, live x st → live x st1)
  ∧ ∀ x, on_subscriptions (cell x st1) = on_subscriptions (cell x st).
Proof.
  intros Hwf Hobj Hdir Hsubs st1.
  set (st0 := set_cell this (with_children (λ _, ∅)) st).
  set (stS := (map_s (adapter_set (id this) v t expiresAt) (adapters this) st0).1).
  assert (Hst1 : st1 = (notifyChange this v (Some t) stS).1).
  { subst st1 stS st0. rewrite put_unfold, Hobj, putValue_unfold. cbv zeta.
    rewrite Hdir. cbn [negb].
    destruct (map_s _ (adapters this) _) as [sa promises]. cbn [fst].
    by destruct (notifyChange this v (Some t) sa) as [sb [[]|]]. }
  destruct (heap_wf_clear this st Hwf) as [Hwf0 Hlive0]. fold st0 in Hwf0, Hlive0.
  destruct (cache_frame_sets (id this) v t expiresAt (adapters this) st0 Hwf0)
    as [HwfS [_ HliveS]]. fold stS in HwfS, HliveS.
  destruct (cache_frame_notifyChange this v (Some t) stS HwfS) as [Hwf1 [_ Hlive1]].
  rewrite <- Hst1 in Hwf1, Hlive1.
  pose proof (heap_sets (id this) v t expiresAt (adapters this) st0) as Hsets.
  fold stS in Hsets.
  assert (Hcell0 : ∀ x, on_subscriptions (cell x st0) = on_subscriptions (cell x st)).
  { intros x. subst st0. unfold cell. simpl.
    destruct (decide (addr x = addr this)) as [->|Hne].
    - rewrite lookup_alter_eq. by destruct (heap st !! addr this).
    - by rewrite lookup_alter_ne. }
  assert (Hch0 : children (cell this st0) = ∅).
  { subst st0. unfold cell. simpl. rewrite lookup_alter_eq.
    by destruct (heap st !! addr this). }
  assert (HcellS : ∀ x, cell x stS = cell x st0).
  { intros x. unfold cell. by rewrite Hsets. }
  assert (Hnotify : children_frame stS (notifyChange this v (Some t) stS).1).
  { unfold notifyChange, bind, gets.
    apply (inv_for_each (children_frame stS)); [|done].
    intros sid Hsid s Hs. eapply children_frame_trans; [exact Hs|].
    unfold notify_subscriber, bind, gets.
    destruct (table_get sid _) as [entry|] eqn:Hentry; [|done].
    destruct (_ && _); [done|].
    apply children_frame_on_created.
    assert (Hin : (sid, entry) ∈ on_subscriptions (cell this st)).
    { rewrite <- Hcell0, <- HcellS. apply table_get_elem in Hentry.
      by rewrite (proj2 (Hs this)) in Hentry. }
    rewrite Forall_forall in Hsubs. by apply (Hsubs (sid, entry)). }
  rewrite <- Hst1 in Hnotify.
  split; [done|]. split; [|split].
  - by rewrite (proj1 (Hnotify this)), HcellS.
  - intros x Hx. by apply Hlive1, HliveS, Hlive0.
  - intros x. by rewrite (proj2 (Hnotify x)), HcellS.
Qed.

(** A write to a node without subscribers of [on] is handed to the adapters
    and calls nothing. *)
Lemma put_unheard this w u e' st :
  isNonEmptyObject w = false → on_subscriptions (cell this st) = [] →
  let res := put w this u e' st in
  log res.1 = log st ++ set_events (id this) w u e' (adapters this) (next_promise st)
  ∧ res.2 = AwaitLocal this w u (seq (next_promise st) (length (adapters this))) [].
Proof.
  intros Hobj Hnil res. subst res. rewrite put_unfold, Hobj, putValue_unfold. cbv zeta.
  set (st0 := if negb (isDirectory w) then _ else st).
  assert (H0 : on_subscriptions (cell this st0) = [] ∧ log st0 = log st
               ∧ next_promise st0 = next_promise st).
  { subst st0. destruct (negb (isDirectory w)); [|done]. split; [|done].
    unfold cell in *. simpl. rewrite lookup_alter_eq.
    by destruct (heap st !! addr this). }
  destruct H0 as (Hnil0 & Hlog0 & Hnp0).
  destruct (sets_spec (id this) w u e' (adapters this) st0) as (Hps & Hlog & _ & Hlo).
  destruct (map_s _ (adapters this) st0) as [stS promises]. cbn [fst snd] in *.
  unfold notifyChange, bind, gets. rewrite (log_only_cell this st0 stS Hlo), Hnil0.
  cbn [fmap list_fmap for_each ret fst snd]. by rewrite Hlog, Hps, Hlog0, Hnp0.
Qed.

(** X5. A write of a plain value drops the handles of the children.  When
    [get(key)] led from a node to a child handle and a value that is neither
    an object with keys nor the directory marker is written to the node, the
    next [get(key)] on the node does not return that handle: it creates a
    new object, with empty subscription tables.  The subscriptions made on
    the old handle stay in its own tables, and a write through the new
    handle goes to the adapters and calls no subscriber. *)
Theorem leaf_write_forgets_child_handles this key c v t expiresAt st :
  heap_wf st → live this st → resolves st this (Path.split key) c →
  isNonEmptyObject v = false → isDirectory v = false →
  Forall (λ entry, on_created (callback entry.2)) (on_subscriptions (cell this st)) →
  let st1 := (put v this t expiresAt st).1 in
  let st2 := (get this key st1).1 in
  let c' := (get this key st1).2 in
  addr c' ≠ addr c
  ∧ heap st1 !! addr c' = None
  ∧ cell c' st2 = empty_cell
  ∧ on_subscriptions (cell c st2) = on_subscriptions (cell c st)
  ∧ ∀ w u e', isNonEmptyObject w = false →
      let res := put w c' u e' st2 in
      log res.1 = log st2 ++ set_events (id c') w u e' (adapters c') (next_promise st2)
      ∧ res.2 = AwaitLocal c' w u (seq (next_promise st2) (length (adapters c'))) [].
Proof.
  intros Hwf Hlive Hres Hobj Hdir Hsubs st1 st2 c'.
  destruct (put_leaf_store this v t expiresAt st Hwf Hobj Hdir Hsubs)
    as (Hwf1 & Hch & Hlive1 & Hon1). fold st1 in Hwf1, Hch, Hlive1, Hon1.
  pose proof (resolves_live _ _ _ _ Hwf Hlive Hres) as Hc.
  assert (Hmiss : children (cell this st1) !! hd EmptyString (Path.split key) = None)
    by (rewrite Hch; apply lookup_empty).
  destruct (get_segments_fresh (Path.split key) this st1 (split_nonempty key) Hwf1
              (Hlive1 _ Hlive) Hmiss) as (_ & _ & _ & Haddr & Hcell & _).
  fold (get this key st1) in Haddr, Hcell. fold c' in Haddr, Hcell. fold st2 in Hcell.
  destruct (cache_only_get_segments (Path.split key) this st1 Hwf1 (Hlive1 _ Hlive))
    as ((_ & _ & _ & _ & _ & _ & _ & _ & _ & _ & Hcells) & _ & _).
  fold (get this key st1) in Hcells. fold st2 in Hcells.
  assert (Hlen : 0 < length (Path.split key)).
  { pose proof (split_nonempty key). destruct (Path.split key); [done|simpl; lia]. }
  assert (Hbound : addr c < next_addr st1).
  { destruct (Hlive1 _ Hc) as [cc Hcc]. exact (wf_bound _ Hwf1 _ _ Hcc). }
  split; [lia|]. split; [|split; [done|split]].
  - destruct (heap st1 !! addr c') as [cc|] eqn:Hcc; [|done].
    pose proof (wf_bound _ Hwf1 _ _ Hcc). lia.
  - by rewrite (proj1 (Hcells c)), Hon1.
  - intros w u e' Hw. apply put_unheard; [done|]. by rewrite Hcell.
Qed.

Lemma leaf_write_forgets_child_handles_witness :
  let r := root [0] in
  let st0 := (get r "a" initial_state).1 in
  let c := (get r "a" initial_state).2 in
  let st := (on c (UserCallback 7 false) false 1 (λ v, v) st0).1 in
  let st1 := (put (JNumber 5) r 20%Z None st).1 in
  let c' := (get r "a" st1).2 in
  addr c' ≠ addr c
  ∧ on_subscriptions (cell c (get r "a" st1).1) = on_subscriptions (cell c st)
  ∧ log (put (JNumber 6) c' 30%Z None (get r "a" st1).1).1
    = log (get r "a" st1).1 ++ [AdapterSet 0 "/a" (JNumber 6) 30%Z None 1].
Proof.
  intros r st0 c st st1 c'.
  assert (Hget : get r "a" initial_state = (st0, c)) by apply surjective_pairing.
  destruct (get_segments_cached _ _ _ _ _ initial_wf (root_live [0]) Hget)
    as (Hres & Hwf0 & Hlc & Hle).
  assert (Hwf : heap_wf st) by apply (cache_frame_on c _ _ _ _ _ Hwf0).
  assert (Hlive : live r st).
  { apply (cache_frame_on c _ _ _ _ _ Hwf0). apply Hle, root_live. }
  assert (Hres' : resolves st r (Path.split "a") c).
  { eapply resolves_mono; [|exact Hres]. apply (cache_frame_on c _ _ _ _ _ Hwf0). }
  assert (Hsubs : Forall (λ entry, on_created (callback entry.2)) (on_subscriptions (cell r st)))
    by (vm_compute; constructor).
  destruct (leaf_write_forgets_child_handles r "a" c (JNumber 5) 20%Z None st
              Hwf Hlive Hres' eq_refl eq_refl Hsubs) as (Hne & _ & _ & Hon & Hput).
  split; [exact Hne|]. split; [exact Hon|].
  exact (proj1 (Hput (JNumber 6) 30%Z None eq_refl)).
Defined.

End Orphans.

(** * Further properties: a child write heard by the parent *)

Section ChildWrites.

(** X6. A subscriber of [map] on the parent hears a write to a child, once
    the parent's own [put] has been fulfilled: the callback is called with
    the guarded value, the id of the child and the timestamp of the write,
    unless the value is the directory marker and the subscription looks into
    directories; if it throws, the child's [put] is rejected.  By then the
    child is in the parent's cache.  The function passed as fourth argument
    deletes the entry from the parent's table and nothing else: the
    listeners that [map] registered with the adapters stay. *)
Theorem child_write_reaches_map_subscriber p this k throws r tg v t st :
  parent this = Some p → live p st → map_subscriptions (cell p st) = [] →
  let st1 := (map p (UserCallback k throws) r tg st).1 in
  let sid := counter (cell p st) in
  let un := UnPut (Some p) sid in
  let res := put_after_parent this v t st1 in
  (if negb (isDirectory v) || (r =? 0)
   then log res.1 = log st ++ [Call k (tg v) (id this) (Some t) un]
        ∧ res.2 = (if throws then Rejected else Fulfilled)
   else log res.1 = log st ∧ res.2 = Fulfilled)
  ∧ is_Some (children (cell p res.1) !! Path.pop (Path.split (id this)))
  ∧ map_subscriptions (cell p (run_unsubscribe un res.1)) = []
  ∧ listeners (run_unsubscribe un res.1) = listeners res.1
  ∧ ∀ i a, adapters p !! i = Some a →
      listeners (run_unsubscribe un res.1) !! (next_listener st + i)
      = Some (mkListener a true (id p)
                (MapListCallback (next_env st) p sid (UserCallback k throws) r tg)).
Proof.
  intros Hp [c0 Hc0] Hnil st1 sid un res.
  destruct (map_store p (UserCallback k throws) r tg st)
    as (_ & Hheap & _ & _ & Hin & _ & _ & _ & _ & _ & _ & _ & Hlog & _).
  fold st1 sid in Hheap, Hin, Hlog.
  set (s := mkSubscription (MapTypedCallback (UserCallback k throws) tg) r) in *.
  set (childName := Path.pop (Path.split (id this))).
  set (st1' := match children (cell p st1) !! childName with
               | Some _ => st1
               | None => set_cell p (with_children (λ m, <[childName := this]> m)) st1
               end).
  rewrite (cell_lookup _ _ _ Hc0) in Hnil.
  assert (Hcell1 : heap st1 !! addr p
                   = Some (with_map_subscriptions (table_set sid s) (with_counter (S sid) c0))).
  { by rewrite Hheap, !lookup_alter_eq, Hc0. }
  assert (H1' : map_subscriptions (cell p st1') = [(sid, s)]
                ∧ is_Some (children (cell p st1') !! childName)
                ∧ log st1' = log st ∧ listeners st1' = listeners st1).
  { subst st1'. destruct (children (cell p st1) !! childName) as [n|] eqn:Hn.
    - rewrite Hn. split; [|done]. rewrite (cell_lookup _ _ _ Hcell1). simpl. by rewrite Hnil.
    - split; [|split; [|done]].
      + unfold cell. simpl. rewrite lookup_alter_eq, Hcell1. simpl. by rewrite Hnil.
      + unfold cell. simpl. rewrite lookup_alter_eq, Hcell1. simpl.
        rewrite lookup_insert_eq. done. }
  destruct H1' as (Hsubs & Hcached & Hlog' & Hlis').
  assert (Hloop : for_each (notify_map_subscriber this v t) (map_subscriptions (cell p st1')).*1 st1'
            = if negb (isDirectory v) || (r =? 0)
              then (emit (Call k (tg v) (id this) (Some t) un) st1',
                    if throws then Thrown else Normal tt)
              else (st1', Normal tt)).
  { rewrite Hsubs. cbn [fmap list_fmap fst for_each]. unfold bind at 1.
    unfold notify_map_subscriber. rewrite Hp. unfold bind at 1. unfold gets at 1.
    rewrite Hsubs. cbn [table_get]. rewrite decide_True by done. cbn [recursion callback s].
    destruct (negb (isDirectory v) || (r =? 0)); [|done].
    rewrite invoke_MapTypedCallback, invoke_UserCallback. by destruct throws. }
  assert (Hres : res = match for_each (notify_map_subscriber this v t)
                               (map_subscriptions (cell p st1')).*1 st1' with
                       | (st2, Normal _) => (st2, Fulfilled)
                       | (st2, Thrown) => (st2, Rejected)
                       end).
  { subst res. unfold put_after_parent. by rewrite Hp. }
  rewrite Hloop in Hres.
  assert (Hcell_res : cell p res.1 = cell p st1' ∧ listeners res.1 = listeners st1').
  { rewrite Hres. destruct (negb (isDirectory v) || (r =? 0)); [|done]. by destruct throws. }
  destruct Hcell_res as [Hcr Hlr].
  split; [|split; [|split; [|split]]].
  - rewrite Hres. destruct (negb (isDirectory v) || (r =? 0)).
    + destruct throws; simpl; by rewrite Hlog'.
    + done.
  - by rewrite Hcr.
  - assert (Hsome : is_Some (heap res.1 !! addr p)).
    { assert (Hs : is_Some (heap st1' !! addr p)).
      { subst st1'. destruct (children (cell p st1) !! childName); [by rewrite Hcell1|].
        simpl. by rewrite lookup_alter_eq, Hcell1. }
      rewrite Hres. destruct (negb (isDirectory v) || (r =? 0)); [|done]. by destruct throws. }
    destruct Hsome as [cr Hcr'].
    unfold cell at 1. subst un. cbn [run_unsubscribe]. simpl. rewrite lookup_alter_eq, Hcr'.
    simpl. rewrite (cell_lookup _ _ _ Hcr') in Hcr. rewrite Hcr, Hsubs.
    unfold table_delete. rewrite filter_cons. simpl. by rewrite decide_False by auto.
  - done.
  - intros i a Hi. subst un. cbn [run_unsubscribe]. simpl. rewrite Hlr, Hlis'. by apply Hin.
Qed.

Lemma child_write_reaches_map_subscriber_witness :
  let r := root [0] in
  let st := (get r "items/a" initial_state).1 in
  let p := (get r "items" st).2 in
  let this := (get r "items/a" initial_state).2 in
  let st1 := (map p (UserCallback 7 false) 0 (λ v, v) st).1 in
  log (put_after_parent this (JString "x") 5%Z st1).1
  = [Call 7 (JString "x") "/items/a" (Some 5%Z) (UnPut (Some p) 0)].
Proof.
  intros r st p this st1.
  assert (Hp : parent this = Some p) by reflexivity.
  assert (Hlive : live p st) by (by eexists).
  exact (proj1 (proj1 (child_write_reaches_map_subscriber p this 7 false 0 (λ v, v)
                         (JString "x") 5%Z st Hp Hlive eq_refl))).
Defined.

End ChildWrites.

(** * Steps that only go forward

    A second way through the engine, for relations that the arbitrary
    updates of the first one would break: the primitives are the updates the
    code makes, with the values it makes them with. *)

Section Forward.

Variable R : State → State → Prop.
Hypothesis R_refl : ∀ st, R st st.
Hypothesis R_trans : ∀ st1 st2 st3, R st1 st2 → R st2 st3 → R st1 st3.
Hypothesis R_enter_on : ∀ this s st,
  R st (set_cell this (with_on_subscriptions (table_set (counter (cell this st)) s))
          (set_cell this (with_counter (S (counter (cell this st)))) st)).
Hypothesis R_enter_map : ∀ this s st,
  R st (set_cell this (with_map_subscriptions (table_set (counter (cell this st)) s))
          (set_cell this (with_counter (S (counter (cell this st)))) st)).
Hypothesis R_on_delete : ∀ n sid st,
  R st (set_cell n (with_on_subscriptions (table_delete sid)) st).
Hypothesis R_map_delete : ∀ n sid st,
  R st (set_cell n (with_map_subscriptions (table_delete sid)) st).
Hypothesis R_get_child : ∀ this seg st, R st (get_child this seg st).1.
Hypothesis R_on_envs : ∀ f st, R st (set_on_envs f st).
Hypothesis R_once_envs : ∀ f st, R st (set_once_envs f st).
Hypothesis R_fresh_env : ∀ st, R st (fresh_env st).1.
Hypothesis R_register : ∀ l st, R st (register l st).1.
Hypothesis R_unlisten : ∀ l st, R st (adapter_unsubscribe l st).
Hypothesis R_emit : ∀ ev st, R st (emit ev st).
Hypothesis R_map_env_new : ∀ v st,
  R st (set_map_envs (λ m, <[next_env st := v]> m) (fresh_env st).1).
Hypothesis R_adapterSubs : ∀ e subs st,
  R st (set_map_envs (λ m, <[e := mkMapEnv (latestMap (map_env e st)) subs
                                   (openUnsubs (map_env e st))]> m) st).
Hypothesis R_latestMap : ∀ e path v u st,
  olderThanLatest (latestMap (map_env e st) !! path) (Some u) = false →
  R st (set_latestMap e path (v, u) st).
Hypothesis R_openUnsubs : ∀ e name h st, R st (set_openUnsubs e name h st).
Hypothesis R_open_env_new : ∀ v st,
  R st (set_open_envs (λ m, <[next_env st := v]> m) (fresh_env st).1).
Hypothesis R_aggregate : ∀ e name v lt st,
  R st (set_open_envs
          (λ m, <[e := mkOpenEnv (property_set name v (aggregated (open_env e st))) lt]> m) st).
Hypothesis R_adapter_set : ∀ path value updatedAt expiresAt a st,
  R st (adapter_set path value updatedAt expiresAt a st).1.
Hypothesis R_children : ∀ n f st, R st (set_cell n (with_children f) st).
Hypothesis R_settled : ∀ f st, R st (set_settled f st).

Lemma forward_registers (mk : nat → Listener) ads st :
  R st (map_s (λ a, register (mk a)) ads st).1.
Proof. apply (frame_map_s R R_refl R_trans). intros a s. apply R_register. Qed.

Lemma forward_map_handle this callback recursion typeGuard st :
  R st (map_handle this callback recursion typeGuard st).1.
Proof.
  unfold map_handle, next_counter, fresh_env. cbv zeta.
  set (sid := counter (cell this st)).
  set (st2 := set_cell this (with_map_subscriptions _) (set_cell this (with_counter _) st)).
  assert (H2 : R st st2) by apply R_enter_map.
  set (e := next_env st2).
  set (st4 := set_map_envs _ (set_next_env _ st2)).
  assert (H4 : R st2 st4) by apply R_map_env_new.
  pose proof (forward_registers
    (λ a, mkListener a true (id this) (MapListCallback e this sid callback recursion typeGuard))
    (adapters this) st4) as H5.
  change (R st4 (map_s (adapter_list (id this)
                   (MapListCallback e this sid callback recursion typeGuard))
                   (adapters this) st4).1) in H5.
  destruct (map_s (adapter_list (id this) _) (adapters this) st4) as [st5 subs] eqn:Hms.
  destruct (registers_spec (λ a, mkListener a true (id this)
              (MapListCallback e this sid callback recursion typeGuard))
              (adapters this) st4 st5 subs Hms) as (_ & _ & Hm & _).
  cbn [fst snd] in *.
  eapply R_trans; [exact H2|]. eapply R_trans; [exact H4|]. eapply R_trans; [exact H5|].
  assert (He : map_env e st5 = mkMapEnv ∅ [] []).
  { unfold map_env. rewrite Hm. subst st4. simpl. by rewrite lookup_insert_eq. }
  pose proof (R_adapterSubs e subs st5) as H6. by rewrite He in H6.
Qed.

Lemma forward_open_handle this callback recursion typeGuard st :
  R st (open_handle this callback recursion typeGuard st).1.
Proof.
  unfold open_handle, fresh_env. cbv zeta.
  eapply R_trans; [apply (R_open_env_new (mkOpenEnv [] None) st)|].
  apply forward_map_handle.
Qed.

Lemma forward_unlisten_all ls : ∀ st, R st (foldl (λ s l, adapter_unsubscribe l s) st ls).
Proof. apply (frame_foldl R R_refl R_trans). intros l s. apply R_unlisten. Qed.

Lemma forward_unsubscribe_map recursion : ∀ h st, R st (unsubscribe_map recursion h st).
Proof.
  induction recursion as [|r IH]; intros h st; cbn [unsubscribe_map];
    set (st1 := set_cell (mh_node h) _ st);
    set (st2 := foldl _ st1 (adapterSubs _));
    assert (H1 : R st st1) by apply R_map_delete;
    assert (H2 : R st1 st2) by apply forward_unlisten_all.
  - by eapply R_trans.
  - eapply R_trans; [exact H1|]. eapply R_trans; [exact H2|].
    apply (frame_foldl R R_refl R_trans). intros entry s. apply IH.
Qed.

Lemma forward_unsubscribe_on this uniqueId e recursion st :
  R st (unsubscribe_on this uniqueId e recursion st).
Proof.
  unfold unsubscribe_on. set (st1 := set_cell this _ st).
  set (st2 := foldl _ st1 _).
  assert (H1 : R st st1) by apply R_on_delete.
  assert (H2 : R st1 st2) by apply forward_unlisten_all.
  destruct (openUnsubscribe (on_env e st2)); [|by eapply R_trans].
  eapply R_trans; [exact H1|]. eapply R_trans; [exact H2|]. apply forward_unsubscribe_map.
Qed.

Lemma forward_run_unsubscribe u st : R st (run_unsubscribe u st).
Proof.
  destruct u as [|l|this uid e r|r h|[p|] sid]; simpl; try apply R_refl.
  - apply R_unlisten.
  - apply forward_unsubscribe_on.
  - apply forward_unsubscribe_map.
  - apply R_map_delete.
Qed.

Lemma forward_map this callback recursion typeGuard st :
  R st (map this callback recursion typeGuard st).1.
Proof.
  unfold map. pose proof (forward_map_handle this callback recursion typeGuard st).
  by destruct (map_handle this callback recursion typeGuard st).
Qed.

Lemma forward_open this callback recursion typeGuard st :
  R st (open this callback recursion typeGuard st).1.
Proof.
  unfold open. pose proof (forward_open_handle this callback recursion typeGuard st).
  by destruct (open_handle this callback recursion typeGuard st).
Qed.

Lemma forward_open_once e this callback recursion typeGuard value st :
  R st (open_once e this callback recursion typeGuard value st).
Proof.
  unfold open_once. destruct (_ && _ && _); [|apply R_refl].
  pose proof (forward_open_handle this callback (recursion - 1) typeGuard st) as Hf.
  destruct (open_handle this callback (recursion - 1) typeGuard st) as [st1 h].
  eapply R_trans; [exact Hf|]. apply R_on_envs.
Qed.

Lemma forward_record_latest e value updatedAt st : R st (record_latest e value updatedAt st).
Proof.
  unfold record_latest. destruct updatedAt; [|apply R_refl].
  destruct (negb _); [apply R_on_envs|apply R_refl].
Qed.

Lemma forward_get this key st : R st (get this key st).1.
Proof. apply (frame_get R R_refl R_trans R_get_child). Qed.

Lemma forward_invoke cb : ∀ value path updatedAt unsubscribe st,
  R st (invoke cb value path updatedAt unsubscribe st).1.
Proof.
  induction cb as [k throws|e' this callback riu recursion typeGuard IH
                  |e' this callback typeGuard IH|callback typeGuard IH
                  |e' this sid callback recursion typeGuard IH|e' callback IH|e']
    using Callback_nested_ind; intros value path updatedAt unsubscribe st.
  - rewrite invoke_UserCallback. apply R_emit.
  - rewrite invoke_OnLocalCallback. cbv zeta.
    destruct (dropped _ _ _ _); [apply R_refl|].
    destruct (negb _ && _ && _); [by apply IH|].
    assert (H2 : R st (open_once e' this callback recursion typeGuard value
                         (record_latest e' value updatedAt st))).
    { eapply R_trans; [apply forward_record_latest|apply forward_open_once]. }
    destruct (negb _ || _); [|done]. eapply R_trans; [exact H2|apply IH].
  - rewrite invoke_OpenCallback. cbv zeta.
    eapply R_trans; [|apply IH]. apply R_aggregate.
  - rewrite invoke_MapTypedCallback. by apply IH.
  - rewrite invoke_MapListCallback. cbv zeta.
    destruct (olderThanLatest _ _) eqn:Hold; [apply R_refl|].
    set (st1 := match updatedAt with Some u => _ | None => st end).
    assert (H1 : R st st1).
    { subst st1. destruct updatedAt; [by apply R_latestMap|apply R_refl]. }
    destruct (_ && _ && _); [|eapply R_trans; [exact H1|apply IH]].
    destruct (property_get _ _); [done|].
    pose proof (forward_get this (Path.pop (Path.split path)) st1) as Hg.
    destruct (get this _ st1) as [st2 child].
    pose proof (forward_open_handle child callback (recursion - 1) (λ v, v) st2) as Ho.
    destruct (open_handle child callback (recursion - 1) _ st2) as [st3 h]. simpl in *.
    eapply R_trans; [exact H1|]. eapply R_trans; [exact Hg|].
    eapply R_trans; [exact Ho|]. apply R_openUnsubs.
  - rewrite invoke_OnceCallback. destruct (resolved e' st); [apply R_refl|]. cbv zeta.
    set (st1 := emit _ _).
    assert (H1 : R st st1).
    { subst st1. eapply R_trans; [apply R_once_envs|apply R_emit]. }
    specialize (IH value path updatedAt UnNoop st1).
    destruct (invoke callback value path updatedAt UnNoop st1) as [st2 [[]|]];
      simpl in *; [|by eapply R_trans].
    eapply R_trans; [exact H1|]. eapply R_trans; [exact IH|]. apply forward_run_unsubscribe.
  - rewrite invoke_OnceCallback. destruct (resolved e' st); [apply R_refl|]. cbv zeta. simpl.
    eapply R_trans; [apply R_once_envs|]. eapply R_trans; [apply R_emit|].
    apply forward_run_unsubscribe.
Qed.

Lemma forward_on this callback returnIfUndefined recursion typeGuard st :
  R st (on this callback returnIfUndefined recursion typeGuard st).1.
Proof.
  unfold on, next_counter, fresh_env. cbv zeta.
  set (e := next_env st). set (st1 := set_next_env _ st).
  assert (H1 : R st st1) by apply R_fresh_env.
  set (st2 := set_on_envs _ st1).
  assert (H2 : R st1 st2) by apply R_on_envs.
  set (st4 := set_cell this (with_on_subscriptions _) _).
  assert (H4 : R st2 st4) by apply R_enter_on.
  pose proof (forward_registers
    (λ a, mkListener a false (id this)
            (OnLocalCallback e this callback returnIfUndefined recursion typeGuard))
    (adapters this) st4) as H5.
  change (R st4 (map_s (adapter_get (id this)
                   (OnLocalCallback e this callback returnIfUndefined recursion typeGuard))
                   (adapters this) st4).1) in H5.
  destruct (map_s (adapter_get (id this) _) (adapters this) st4) as [st5 unsubs].
  cbn [fst snd] in *.
  eapply R_trans; [exact H1|]. eapply R_trans; [exact H2|].
  eapply R_trans; [exact H4|]. eapply R_trans; [exact H5|]. apply R_on_envs.
Qed.

Lemma forward_once this callback returnIfUndefined recursion typeGuard st :
  R st (once this callback returnIfUndefined recursion typeGuard st).1.
Proof.
  unfold once. pose proof (R_fresh_env st) as H1. destruct (fresh_env st) as [st1 e].
  set (st2 := set_once_envs _ st1).
  assert (H2 : R st1 st2) by apply R_once_envs.
  pose proof (forward_on this (OnceCallback e callback) returnIfUndefined recursion
                typeGuard st2) as H3.
  destruct (on this _ returnIfUndefined recursion typeGuard st2) as [st3 u]. simpl in *.
  eapply R_trans; [exact H1|]. by eapply R_trans.
Qed.

Lemma forward_step inp c : R (state c) (state (step inp c)).
Proof.
  apply (inv_step (R (state c)) (λ _ _, True) (λ _, True)); [..|done|apply R_refl].
  - intros cb value path updatedAt unsubscribe st _ Hst.
    eapply R_trans; [exact Hst|apply forward_invoke].
  - done.
  - done.
  - done.
  - intros this key st Hst. eapply R_trans; [exact Hst|apply forward_get].
  - intros path value updatedAt expiresAt a st Hst.
    eapply R_trans; [exact Hst|apply R_adapter_set].
  - intros n f st Hst. eapply R_trans; [exact Hst|apply R_children].
  - intros f st Hst. eapply R_trans; [exact Hst|apply R_settled].
  - intros this k throws riu recursion typeGuard st _ Hst.
    eapply R_trans; [exact Hst|apply forward_on].
  - intros this callback riu recursion typeGuard st _ Hst.
    eapply R_trans; [exact Hst|apply forward_once].
  - intros this k throws recursion typeGuard st _ Hst.
    eapply R_trans; [exact Hst|apply forward_map].
  - intros this k throws recursion typeGuard st _ Hst.
    eapply R_trans; [exact Hst|apply forward_open].
  - intros u st _ Hst. eapply R_trans; [exact Hst|apply forward_run_unsubscribe].
Qed.

Lemma forward_run inputs : ∀ c, R (state c) (state (run inputs c)).
Proof.
  induction inputs as [|inp inputs IH]; intros c; [apply R_refl|].
  eapply R_trans; [apply (forward_step inp c)|apply (IH (step inp c))].
Qed.

End Forward.

(** * Further properties: identifiers *)

Section Identifiers.

Lemma ids_kept_refl st : ids_kept st st.
Proof. by intros H. Qed.

Lemma ids_kept_trans st1 st2 st3 : ids_kept st1 st2 → ids_kept st2 st3 → ids_kept st1 st3.
Proof. intros H12 H23 H. by apply H23, H12. Qed.

Lemma ids_kept_same st st' :
  heap st' = heap st → listeners st' = listeners st → next_listener st' = next_listener st →
  ids_kept st st'.
Proof. intros Hh Hl Hn [Hk Hls]. split; [by rewrite Hh|by rewrite Hl, Hn]. Qed.

Lemma ids_kept_set_cell n f st :
  (∀ c, heap st !! addr n = Some c → (∀ sid, is_key sid c → sid < counter c) →
        ∀ sid, is_key sid (f c) → sid < counter (f c)) →
  ids_kept st (set_cell n f st).
Proof.
  intros Hf [Hk Hl]. split; [|done]. intros a c sid Ha Hkey. simpl in Ha.
  destruct (decide (a = addr n)) as [->|Hne].
  - rewrite lookup_alter_eq in Ha. destruct (heap st !! addr n) as [c0|] eqn:H0; [|done].
    simpl in Ha. injection Ha as <-. apply (Hf c0 eq_refl); [|done].
    intros sid'. apply (Hk _ _ _ H0).
  - rewrite lookup_alter_ne in Ha by done. by eapply Hk.
Qed.

Lemma ids_kept_enter (this : Node) (s : Subscription) (st : State)
    (enter : (list (nat * Subscription) → list (nat * Subscription)) → NodeCell → NodeCell) :
  (∀ g c sid, is_key sid (enter g c) →
     is_key sid c ∨ (∃ t, is_Some (table_get sid (g t)) ∧ ¬ is_Some (table_get sid t))) →
  (∀ g c, counter (enter g c) = counter c) →
  ids_kept st (set_cell this (enter (table_set (counter (cell this st)) s))
                 (set_cell this (with_counter (S (counter (cell this st)))) st)).
Proof.
  intros Hkeys Hcount [Hk Hl]. split; [|done]. intros a c sid Ha Hkey. simpl in Ha.
  destruct (decide (a = addr this)) as [->|Hne].
  - rewrite !lookup_alter_eq in Ha. destruct (heap st !! addr this) as [c0|] eqn:H0; [|done].
    simpl in Ha. injection Ha as <-. rewrite Hcount. simpl.
    rewrite (cell_lookup _ _ _ H0) in Hkey |- *.
    apply Hkeys in Hkey as [Hold|(t & Hnew & Hnot)].
    + assert (is_key sid c0) as Hc0 by (destruct Hold as [?|?]; [by left|by right]).
      pose proof (Hk _ _ _ H0 Hc0). lia.
    + rewrite table_get_set in Hnew. destruct (decide (sid = counter c0)) as [->|]; [lia|done].
  - rewrite !lookup_alter_ne in Ha by done. by eapply Hk.
Qed.

Lemma ids_kept_enter_on this s st :
  ids_kept st (set_cell this (with_on_subscriptions (table_set (counter (cell this st)) s))
                 (set_cell this (with_counter (S (counter (cell this st)))) st)).
Proof.
  apply (ids_kept_enter this s st with_on_subscriptions); [|done].
  intros g c sid [Hon|Hmap]; simpl in *; [|left; by right].
  destruct (table_get sid (on_subscriptions c)) eqn:Hc; [left; left; by rewrite Hc|].
  right. exists (on_subscriptions c). split; [done|]. rewrite Hc. by intros [? ?].
Qed.

Lemma ids_kept_enter_map this s st :
  ids_kept st (set_cell this (with_map_subscriptions (table_set (counter (cell this st)) s))
                 (set_cell this (with_counter (S (counter (cell this st)))) st)).
Proof.
  apply (ids_kept_enter this s st with_map_subscriptions); [|done].
  intros g c sid [Hon|Hmap]; simpl in *; [left; by left|].
  destruct (table_get sid (map_subscriptions c)) eqn:Hc; [left; right; by rewrite Hc|].
  right. exists (map_subscriptions c). split; [done|]. rewrite Hc. by intros [? ?].
Qed.

Lemma ids_kept_on_delete n sid st :
  ids_kept st (set_cell n (with_on_subscriptions (table_delete sid)) st).
Proof.
  apply ids_kept_set_cell. intros c _ Hc sid' [Hon|Hmap]; simpl in *.
  - apply Hc. left. rewrite table_get_delete in Hon. by destruct (decide (sid' = sid)).
  - apply Hc. by right.
Qed.

Lemma ids_kept_map_delete n sid st :
  ids_kept st (set_cell n (with_map_subscriptions (table_delete sid)) st).
Proof.
  apply ids_kept_set_cell. intros c _ Hc sid' [Hon|Hmap]; simpl in *.
  - apply Hc. by left.
  - apply Hc. right. rewrite table_get_delete in Hmap. by destruct (decide (sid' = sid)).
Qed.

Lemma ids_kept_children n f st : ids_kept st (set_cell n (with_children f) st).
Proof. apply ids_kept_set_cell. intros c _ Hc sid' Hkey. by apply Hc. Qed.

Lemma not_key_empty sid : ¬ is_key sid empty_cell.
Proof. by intros [[? ?]|[? ?]]. Qed.

Lemma ids_kept_get_child this seg st : ids_kept st (get_child this seg st).1.
Proof.
  unfold get_child. destruct (children (cell this st) !! seg); [apply ids_kept_refl|].
  cbn [new_child fst]. intros [Hk Hl]. split; [|done].
  intros a c sid Ha Hkey. simpl in Ha.
  destruct (decide (a = addr this)) as [->|Hne].
  - rewrite lookup_alter_eq in Ha.
    destruct (decide (addr this = next_addr st)) as [Heq|Hne].
    + rewrite Heq, lookup_insert_eq in Ha. simpl in Ha. injection Ha as <-.
      by destruct (not_key_empty sid).
    + rewrite lookup_insert_ne in Ha by done.
      destruct (heap st !! addr this) as [c0|] eqn:H0; [|done]. simpl in Ha.
      injection Ha as <-. by apply (Hk _ _ _ H0).
  - rewrite lookup_alter_ne in Ha by done.
    destruct (decide (a = next_addr st)) as [->|Hne'].
    + rewrite lookup_insert_eq in Ha. injection Ha as <-. by destruct (not_key_empty sid).
    + rewrite lookup_insert_ne in Ha by done. by eapply Hk.
Qed.

Lemma ids_kept_register l st : ids_kept st (register l st).1.
Proof.
  intros [Hk Hl]. split; [done|]. intros l'. simpl.
  destruct (decide (l' = next_listener st)) as [->|Hne]; [lia|].
  rewrite lookup_insert_ne by done. intros Hs. apply Hl in Hs. lia.
Qed.

Lemma ids_kept_unlisten l st : ids_kept st (adapter_unsubscribe l st).
Proof.
  intros [Hk Hl]. split; [done|]. intros l'. simpl.
  destruct (decide (l' = l)) as [->|Hne].
  - rewrite lookup_delete_eq. by intros [? ?].
  - rewrite lookup_delete_ne by done. apply Hl.
Qed.

(** No step reuses an identifier. *)
Lemma ids_kept_run inputs c : ids_kept (state c) (state (run inputs c)).
Proof.
  apply forward_run;
    first [ apply ids_kept_refl | apply ids_kept_trans | apply ids_kept_enter_on
          | apply ids_kept_enter_map | apply ids_kept_on_delete | apply ids_kept_map_delete
          | apply ids_kept_get_child | apply ids_kept_register | apply ids_kept_unlisten
          | apply ids_kept_children
          | intros; apply ids_kept_same; done ].
Qed.

Lemma ids_fresh_initial : ids_fresh initial_state.
Proof.
  split.
  - intros a c sid Ha. simpl in Ha. apply lookup_singleton_Some in Ha as [_ <-].
    intros Hkey. by destruct (not_key_empty sid).
  - intros l. simpl. rewrite lookup_empty. by intros [? ?].
Qed.

Lemma ids_fresh_reachable inputs : ids_fresh (state (run inputs initial)).
Proof. apply (ids_kept_run inputs initial), ids_fresh_initial. Qed.

End Identifiers.

Section Undo.

Lemma table_delete_set k s t :
  table_get k t = None → table_delete k (table_set k s t) = t.
Proof.
  unfold table_delete. induction t as [|[k0 s0] rest IH]; simpl.
  - intros _. rewrite filter_cons. simpl. rewrite decide_False by auto. done.
  - destruct (decide (k0 = k)) as [->|Hne]; [done|]. intros Hrest.
    rewrite filter_cons. simpl. rewrite decide_True by done. by rewrite IH.
Qed.

Lemma unlisten_all_fields ls : ∀ st,
  heap (foldl (λ s l, adapter_unsubscribe l s) st ls) = heap st
  ∧ log (foldl (λ s l, adapter_unsubscribe l s) st ls) = log st
  ∧ on_envs (foldl (λ s l, adapter_unsubscribe l s) st ls) = on_envs st
  ∧ map_envs (foldl (λ s l, adapter_unsubscribe l s) st ls) = map_envs st.
Proof.
  induction ls as [|l ls IH]; intros st; [done|]. simpl.
  destruct (IH (adapter_unsubscribe l st)) as (-> & -> & -> & ->). done.
Qed.

Lemma unlisten_all_lookup ls : ∀ st l,
  listeners (foldl (λ s l, adapter_unsubscribe l s) st ls) !! l
  = if decide (l ∈ ls) then None else listeners st !! l.
Proof.
  induction ls as [|l0 ls IH]; intros st l.
  - cbn [foldl]. destruct (decide (l ∈ [])) as [Hin|]; [by apply not_elem_of_nil in Hin|done].
  - cbn [foldl]. rewrite IH. unfold adapter_unsubscribe. cbn [listeners set_listeners].
    destruct (decide (l ∈ ls)) as [Hin|Hout].
    + rewrite decide_True; [done|by right].
    + destruct (decide (l = l0)) as [->|Hne].
      * rewrite decide_True by left. apply lookup_delete_eq.
      * rewrite lookup_delete_ne by done. rewrite decide_False; [done|].
        intros [?|?]%elem_of_cons; done.
Qed.

(** Deleting the listeners a subscribing call has registered. *)
Lemma listeners_undone st st1 n :
  ids_fresh st →
  (∀ l, l < next_listener st ∨ next_listener st + n ≤ l → listeners st1 !! l = listeners st !! l) →
  ∀ sa, listeners sa = listeners st1 →
  listeners (foldl (λ s l, adapter_unsubscribe l s) sa (seq (next_listener st) n))
  = listeners st.
Proof.
  intros [_ Hl] Hout sa Hsa. apply map_eq. intros l. rewrite unlisten_all_lookup, Hsa.
  destruct (decide (l ∈ seq (next_listener st) n)) as [Hin|Hnot].
  - apply elem_of_seq in Hin. destruct (listeners st !! l) eqn:Hs; [|done].
    pose proof (Hl l (mk_is_Some _ _ Hs)). lia.
  - apply Hout. rewrite elem_of_seq in Hnot. lia.
Qed.

Lemma fresh_key this st :
  ids_fresh st →
  ∀ c0, heap st !! addr this = Some c0 →
  table_get (counter (cell this st)) (on_subscriptions c0) = None
  ∧ table_get (counter (cell this st)) (map_subscriptions c0) = None.
Proof.
  intros [Hk _] c0 H0. rewrite (cell_lookup _ _ _ H0).
  split.
  - destruct (table_get _ (on_subscriptions c0)) eqn:Hg; [|done].
    assert (is_key (counter c0) c0) as Hkey by (left; by rewrite Hg).
    pose proof (Hk _ _ _ H0 Hkey). lia.
  - destruct (table_get _ (map_subscriptions c0)) eqn:Hg; [|done].
    assert (is_key (counter c0) c0) as Hkey by (right; by rewrite Hg).
    pose proof (Hk _ _ _ H0 Hkey). lia.
Qed.

Lemma on_undone this c riu r tg st :
  ids_fresh st →
  let res := on this c riu r tg st in
  let st' := run_unsubscribe res.2 res.1 in
  listeners st' = listeners st ∧ log st' = log st
  ∧ ∀ x, on_subscriptions (cell x st') = on_subscriptions (cell x st)
         ∧ map_subscriptions (cell x st') = map_subscriptions (cell x st)
         ∧ children (cell x st') = children (cell x st).
Proof.
  intros Hids res st'.
  destruct (on_store this c riu r tg st)
    as (Hu & Hheap & Honv & _ & _ & Hout & _ & _ & _ & _ & _ & _ & Hlog & _).
  fold res in Hu, Hheap, Honv, Hout, Hlog.
  set (uid := counter (cell this st)) in *. set (e := next_env st) in *.
  set (ls := seq (next_listener st) (length (adapters this))) in *.
  set (stA := set_cell this (with_on_subscriptions (table_delete uid)) res.1).
  assert (HenvA : ∀ sa, on_envs sa = on_envs res.1 → on_env e sa = mkOnEnv None None ls).
  { intros sa Hsa. unfold on_env. by rewrite Hsa, Honv, lookup_insert_eq. }
  destruct (unlisten_all_fields ls stA) as (HhB & HlB & HoB & _).
  assert (Hst' : st' = foldl (λ s l, adapter_unsubscribe l s) stA ls).
  { subst st'. rewrite Hu. cbn [run_unsubscribe]. unfold unsubscribe_on. fold stA.
    rewrite (HenvA stA eq_refl). cbn [adapterUnsubscribes].
    by rewrite (HenvA _ HoB). }
  rewrite Hst'. split; [|split].
  - by apply (listeners_undone st res.1 (length (adapters this)) Hids Hout).
  - by rewrite HlB.
  - intros x. unfold cell. rewrite HhB. subst stA. simpl. rewrite Hheap.
    destruct (decide (addr x = addr this)) as [->|Hne];
      [|by rewrite !lookup_alter_ne by done].
    rewrite !lookup_alter_eq. destruct (heap st !! addr this) as [c0|] eqn:H0; [|done].
    simpl. destruct (fresh_key this st Hids c0 H0) as [Hfresh _]. fold uid in Hfresh.
    by rewrite table_delete_set.
Qed.

Lemma map_undone this c r tg st :
  ids_fresh st →
  let res := map this c r tg st in
  let st' := run_unsubscribe res.2 res.1 in
  listeners st' = listeners st ∧ log st' = log st
  ∧ ∀ x, on_subscriptions (cell x st') = on_subscriptions (cell x st)
         ∧ map_subscriptions (cell x st') = map_subscriptions (cell x st)
         ∧ children (cell x st') = children (cell x st).
Proof.
  intros Hids res st'.
  destruct (map_store this c r tg st)
    as (Hu & Hheap & Hmenv & _ & _ & Hout & _ & _ & _ & _ & _ & _ & Hlog & _).
  fold res in Hu, Hheap, Hmenv, Hout, Hlog.
  set (sid := counter (cell this st)) in *. set (e := next_env st) in *.
  set (ls := seq (next_listener st) (length (adapters this))) in *.
  set (stA := set_cell this (with_map_subscriptions (table_delete sid)) res.1).
  assert (HenvA : ∀ sa, map_envs sa = map_envs res.1 → map_env e sa = mkMapEnv ∅ ls []).
  { intros sa Hsa. unfold map_env. by rewrite Hsa, Hmenv, lookup_insert_eq. }
  destruct (unlisten_all_fields ls stA) as (HhB & HlB & _ & HmB).
  assert (Hst' : st' = foldl (λ s l, adapter_unsubscribe l s) stA ls).
  { subst st'. rewrite Hu. cbn [run_unsubscribe].
    destruct r as [|r]; cbn [unsubscribe_map mh_node mh_id mh_env]; fold stA;
      rewrite (HenvA stA eq_refl); cbn [adapterSubs]; [done|].
    by rewrite (HenvA _ HmB). }
  rewrite Hst'. split; [|split].
  - by apply (listeners_undone st res.1 (length (adapters this)) Hids Hout).
  - by rewrite HlB.
  - intros x. unfold cell. rewrite HhB. subst stA. simpl. rewrite Hheap.
    destruct (decide (addr x = addr this)) as [->|Hne];
      [|by rewrite !lookup_alter_ne by done].
    rewrite !lookup_alter_eq. destruct (heap st !! addr this) as [c0|] eqn:H0; [|done].
    simpl. destruct (fresh_key this st Hids c0 H0) as [_ Hfresh]. fold sid in Hfresh.
    by rewrite table_delete_set.
Qed.

(** X7. Unsubscribing at once undoes the subscription.  In every state the
    engine can reach, a call of [on] or [map] followed by a call of the
    function it returned leaves the subscription tables and the child cache
    of every node, the listeners registered with the adapters and the log as
    they were before the subscribing call: nothing of the subscription stays
    behind, and no other subscription is disturbed. *)
Theorem unsubscribe_undoes_subscribe sub k inputs :
  subscribes sub k →
  let c := run inputs initial in
  let st' := run_unsubscribe (returned sub (state c)) (state (step sub c)) in
  listeners st' = listeners (state c) ∧ log st' = log (state c)
  ∧ ∀ x, on_subscriptions (cell x st') = on_subscriptions (cell x (state c))
         ∧ map_subscriptions (cell x st') = map_subscriptions (cell x (state c))
         ∧ children (cell x st') = children (cell x (state c)).
Proof.
  intros Hsub c st'. pose proof (ids_fresh_reachable inputs) as Hids. fold c in Hids.
  destruct sub as [| |this k' throws riu r tg| |this k' throws r tg| | | | |]; try done.
  - apply (on_undone this (UserCallback k' throws) riu r tg (state c) Hids).
  - apply (map_undone this (UserCallback k' throws) r tg (state c) Hids).
Qed.

Lemma unsubscribe_undoes_subscribe_witness :
  let r := root [0; 1] in
  let c := run [CallOn r 3 false false 1 (λ v, v); CallPut r (JNumber 1) 5%Z None] initial in
  let sub := CallMap r 7 false 1 (λ v, v) in
  listeners (run_unsubscribe (returned sub (state c)) (state (step sub c)))
  = listeners (state c).
Proof.
  intros r c sub.
  exact (proj1 (unsubscribe_undoes_subscribe sub 7
                  [CallOn r 3 false false 1 (λ v, v); CallPut r (JNumber 1) 5%Z None] eq_refl)).
Defined.

End Undo.

(** * Further properties: what [map] and [open] record *)

Section Environments.

Lemma property_get_set {A} name key (v : A) l :
  property_get name (property_set key v l)
  = if decide (name = key) then Some v else property_get name l.
Proof.
  induction l as [|[k w] rest IH]; simpl.
  - destruct (decide (key = name)), (decide (name = key)); done || congruence.
  - destruct (decide (k = key)) as [->|Hne]; simpl.
    + destruct (decide (key = name)), (decide (name = key)); done || congruence.
    + destruct (decide (k = name)) as [->|Hne'].
      * by rewrite decide_False.
      * exact IH.
Qed.

Lemma map_env_insert e e' env st :
  map_env e (set_map_envs (λ m, <[e' := env]> m) st) =
  if decide (e' = e) then env else map_env e st.
Proof.
  unfold map_env. simpl. destruct (decide (e' = e)) as [->|Hne].
  - by rewrite lookup_insert_eq.
  - by rewrite lookup_insert_ne.
Qed.

Lemma open_env_insert e e' env st :
  open_env e (set_open_envs (λ m, <[e' := env]> m) st) =
  if decide (e' = e) then env else open_env e st.
Proof.
  unfold open_env. simpl. destruct (decide (e' = e)) as [->|Hne].
  - by rewrite lookup_insert_eq.
  - by rewrite lookup_insert_ne.
Qed.

Lemma env_grows_refl st : env_grows st st.
Proof.
  split; [done|]. intros e _. split; [|done]. intros path v t Hv. exists v, t. split; [done|lia].
Qed.

Lemma env_grows_trans st1 st2 st3 : env_grows st1 st2 → env_grows st2 st3 → env_grows st1 st3.
Proof.
  intros [Hn1 H1] [Hn2 H2]. split; [lia|]. intros e He.
  destruct (H1 e He) as (Hl1 & Hu1 & Ha1). destruct (H2 e ltac:(lia)) as (Hl2 & Hu2 & Ha2).
  split; [|split].
  - intros path v t Hv. destruct (Hl1 path v t Hv) as (v' & t' & Hv' & Ht').
    destruct (Hl2 path v' t' Hv') as (v'' & t'' & Hv'' & Ht''). exists v'', t''.
    split; [done|lia].
  - intros name Hs. by apply Hu2, Hu1.
  - intros name Hs. by apply Ha2, Ha1.
Qed.

(** The environments as they were at another state with the same
    [map] and [open] environments. *)
Lemma env_grows_within st st' :
  next_env st ≤ next_env st' →
  (∀ e, e < next_env st → map_env e st' = map_env e st ∧ open_env e st' = open_env e st) →
  env_grows st st'.
Proof.
  intros Hn Hsame. split; [done|]. intros e He. destruct (Hsame e He) as [-> ->].
  split; [|done]. intros path v t Hv. exists v, t. split; [done|lia].
Qed.

Lemma env_grows_same st st' :
  map_envs st' = map_envs st → open_envs st' = open_envs st → next_env st ≤ next_env st' →
  env_grows st st'.
Proof.
  intros Hm Ho Hn. apply env_grows_within; [done|]. intros e _.
  unfold map_env, open_env. by rewrite Hm, Ho.
Qed.

Lemma env_grows_map_env_new v st :
  env_grows st (set_map_envs (λ m, <[next_env st := v]> m) (fresh_env st).1).
Proof.
  apply env_grows_within; [simpl; lia|]. intros e He. split; [|done].
  rewrite map_env_insert. by rewrite decide_False by lia.
Qed.

Lemma env_grows_open_env_new v st :
  env_grows st (set_open_envs (λ m, <[next_env st := v]> m) (fresh_env st).1).
Proof.
  apply env_grows_within; [simpl; lia|]. intros e He. split; [done|].
  rewrite open_env_insert. by rewrite decide_False by lia.
Qed.

Lemma env_grows_adapterSubs e subs st :
  env_grows st (set_map_envs (λ m, <[e := mkMapEnv (latestMap (map_env e st)) subs
                                          (openUnsubs (map_env e st))]> m) st).
Proof.
  split; [done|]. intros e' _. rewrite map_env_insert.
  split; [|split; [|done]].
  - intros path v t Hv. exists v, t. split; [|lia]. by destruct (decide (e = e')) as [->|].
  - intros name Hs. by destruct (decide (e = e')) as [->|].
Qed.

Lemma env_grows_latestMap e path v u st :
  olderThanLatest (latestMap (map_env e st) !! path) (Some u) = false →
  env_grows st (set_latestMap e path (v, u) st).
Proof.
  intros Hold. split; [done|]. intros e' _. unfold set_latestMap. rewrite map_env_insert.
  split; [|split; [|done]].
  - intros path' v' t' Hv'. destruct (decide (e = e')) as [->|]; [|exists v', t'; split; [done|lia]].
    cbn [latestMap]. destruct (decide (path' = path)) as [->|Hne].
    + rewrite lookup_insert_eq. exists v, u. split; [done|].
      rewrite Hv' in Hold. simpl in Hold. apply Z.leb_gt in Hold. lia.
    + rewrite lookup_insert_ne by done. exists v', t'. split; [done|lia].
  - intros name Hs. by destruct (decide (e = e')) as [->|].
Qed.

Lemma env_grows_openUnsubs e name h st : env_grows st (set_openUnsubs e name h st).
Proof.
  split; [done|]. intros e' _. unfold set_openUnsubs. rewrite map_env_insert.
  split; [|split; [|done]].
  - intros path v t Hv. exists v, t. split; [|lia]. by destruct (decide (e = e')) as [->|].
  - intros name' Hs. destruct (decide (e = e')) as [->|]; [|done].
    cbn [openUnsubs]. rewrite property_get_set. by destruct (decide (name' = name)).
Qed.

Lemma env_grows_aggregate e name v lt st :
  env_grows st (set_open_envs
    (λ m, <[e := mkOpenEnv (property_set name v (aggregated (open_env e st))) lt]> m) st).
Proof.
  split; [done|]. intros e' _. rewrite open_env_insert.
  split; [|split; [done|]].
  - intros path v' t Hv. exists v', t. split; [done|lia].
  - intros name' Hs. destruct (decide (e = e')) as [->|]; [|done].
    cbn [aggregated]. rewrite property_get_set. by destruct (decide (name' = name)).
Qed.

Lemma env_grows_get_child this seg st : env_grows st (get_child this seg st).1.
Proof.
  unfold get_child. destruct (children (cell this st) !! seg); by apply env_grows_same.
Qed.

End Environments.

Ltac env_prims :=
  first [ apply env_grows_refl | apply env_grows_trans | apply env_grows_map_env_new
        | apply env_grows_open_env_new | apply env_grows_adapterSubs
        | apply env_grows_latestMap | apply env_grows_openUnsubs | apply env_grows_aggregate
        | apply env_grows_get_child
        | intros; apply env_grows_same; simpl; solve [done | lia] ].

Section Recorded.

Lemma env_grows_invoke cb value path updatedAt unsubscribe st :
  env_grows st (invoke cb value path updatedAt unsubscribe st).1.
Proof. apply forward_invoke; env_prims. Qed.

Lemma env_grows_get this key st : env_grows st (get this key st).1.
Proof. apply forward_get; env_prims. Qed.

Lemma env_grows_open_handle this callback recursion typeGuard st :
  env_grows st (open_handle this callback recursion typeGuard st).1.
Proof. apply forward_open_handle; env_prims. Qed.

(** Nothing a closure of [map] or [open] has recorded is lost in a run. *)
Lemma env_grows_run inputs c : env_grows (state c) (state (run inputs c)).
Proof. apply forward_run; env_prims. Qed.



(** X8. [map] keeps the last write per child path.  Once [cb] of [map] has
    accepted a notification for a path with timestamp [t], then whatever
    happens next, the subscription holds for that path a timestamp [tl] with
    [t <= tl], and a notification for the same path with a timestamp of at
    most [tl] is dropped: nothing changes and the callback is not called.
    With a caller's callback, what is held right after the acceptance is the
    guarded value with [t]. *)
Theorem map_drops_stale e this sid callback recursion typeGuard
    value path t unsubscribe st pending inputs :
  let cb := MapListCallback e this sid callback recursion typeGuard in
  e < next_env st →
  olderThanLatest (latestMap (map_env e st) !! path) (Some t) = false →
  let st1 := (invoke cb value path (Some t) unsubscribe st).1 in
  let st2 := state (run inputs (mkConfig st1 pending)) in
  (∀ k throws, callback = UserCallback k throws →
     latestMap (map_env e st1) !! path = Some (typeGuard value, t))
  ∧ ∃ lv tl, latestMap (map_env e st2) !! path = Some (lv, tl) ∧ (t ≤ tl)%Z
      ∧ ∀ value' u unsubscribe', (u ≤ tl)%Z →
          invoke cb value' path (Some u) unsubscribe' st2 = (st2, Normal tt).
Proof.
  intros cb Hlt Hold st1 st2.
  set (sa := set_latestMap e path (typeGuard value, t) st).
  assert (Ha : latestMap (map_env e sa) !! path = Some (typeGuard value, t)).
  { subst sa. unfold set_latestMap. rewrite map_env_insert, decide_True by done.
    cbn [latestMap]. apply lookup_insert_eq. }
  assert (Hna : e < next_env sa) by done.
  assert (Hst1 : st1 =
    (if (0 <? recursion) && truthy (typeGuard value) && isDirectory (typeGuard value)
     then match property_get (Path.pop (Path.split path)) (openUnsubs (map_env e sa)) with
          | Some _ => (sa, Normal tt)
          | None =>
              let '(s2, child) := get this (Path.pop (Path.split path)) sa in
              let '(s3, h) := open_handle child callback (recursion - 1) (λ v, v) s2 in
              (set_openUnsubs e (Path.pop (Path.split path)) h s3, Normal tt)
          end
     else invoke callback (typeGuard value) path (Some t)
            (UnMap recursion (mkMapHandle this sid e)) sa).1).
  { subst st1 cb. rewrite invoke_MapListCallback. cbv zeta. by rewrite Hold. }
  split.
  - intros k throws ->. rewrite Hst1. destruct (_ && _ && _).
    + destruct (property_get _ _); [done|].
      destruct (quiet_get this (Path.pop (Path.split path)) sa) as (_ & Hm & Hn & _).
      destruct (get this _ sa) as [s2 child]. cbn [fst] in Hm, Hn.
      destruct (open_handle_spec child (UserCallback k throws) (recursion - 1) (λ v, v) s2)
        as (subs & _ & _ & _ & Hm3 & _).
      destruct (open_handle child _ (recursion - 1) _ s2) as [s3 h]. cbn [fst] in *.
      unfold set_openUnsubs. rewrite map_env_insert, decide_True by done. cbn [latestMap].
      assert (Hsame : map_env e s3 = map_env e sa); [|by rewrite Hsame].
      unfold map_env. rewrite Hm3, lookup_insert_ne by lia. by rewrite Hm.
    + rewrite invoke_UserCallback. done.
  - assert (H1 : env_grows sa st1).
    { rewrite Hst1. destruct (_ && _ && _).
      - destruct (property_get _ _); [apply env_grows_refl|].
        pose proof (env_grows_get this (Path.pop (Path.split path)) sa) as Hg.
        destruct (get this _ sa) as [s2 child].
        pose proof (env_grows_open_handle child callback (recursion - 1) (λ v, v) s2) as Ho.
        destruct (open_handle child callback (recursion - 1) _ s2) as [s3 h]. cbn [fst] in *.
        eapply env_grows_trans; [exact Hg|]. eapply env_grows_trans; [exact Ho|].
        apply env_grows_openUnsubs.
      - apply env_grows_invoke. }
    pose proof (env_grows_run inputs (mkConfig st1 pending)) as H2. cbn [state] in H2.
    fold st2 in H2.
    destruct (env_grows_trans _ _ _ H1 H2) as [_ Hall].
    destruct (Hall e Hna) as (Hl & _ & _).
    destruct (Hl path _ _ Ha) as (lv & tl & Hlv & Htl).
    exists lv, tl. split; [done|]. split; [done|].
    intros value' u unsubscribe' Hu. subst cb. rewrite invoke_MapListCallback. cbv zeta.
    rewrite Hlv. cbn [olderThanLatest]. by rewrite (proj2 (Z.leb_le u tl) Hu).
Qed.

Lemma map_drops_stale_witness :
  let r := root [0] in
  let st := (map r (UserCallback 7 false) 0 (λ v, v) initial_state).1 in
  let cb := MapListCallback 0 r 0 (UserCallback 7 false) 0 (λ v, v) in
  let st1 := (invoke cb (JNumber 1) "/a" (Some 10%Z) (UnAdapter 0) st).1 in
  let st2 := state (run [Notify 0 (JNumber 2) "/b" (Some 20%Z)] (mkConfig st1 [])) in
  0 < next_env st
  ∧ ∃ lv tl, latestMap (map_env 0 st2) !! "/a" = Some (lv, tl) ∧ (10 ≤ tl)%Z
      ∧ ∀ value' u unsubscribe', (u ≤ tl)%Z →
          invoke cb value' "/a" (Some u) unsubscribe' st2 = (st2, Normal tt).
Proof.
  intros r st cb st1 st2.
  assert (H1 : 0 < next_env st) by (vm_compute; lia).
  assert (H2 : olderThanLatest (latestMap (map_env 0 st) !! "/a") (Some 10%Z) = false)
    by reflexivity.
  split; [exact H1|].
  exact (proj2 (map_drops_stale 0 r 0 (UserCallback 7 false) 0 (λ v, v) (JNumber 1) "/a"
                  10%Z (UnAdapter 0) st [] [Notify 0 (JNumber 2) "/b" (Some 20%Z)] H1 H2)).
Defined.





End Recorded.

(** * Further properties: the first notification *)

Section FirstNotification.

(** X11. What a new subscriber of [on] hears from an adapter.  [on]
    registers a listener with each adapter of the node; when one of them
    notifies for the first time,
    - an undefined value is passed on as it is if [returnIfUndefined] is
      set, and is ignored otherwise;
    - a value that is not the directory marker is passed on through the type
      guard, and recorded with its timestamp if it has one;
    - the directory marker starts a nested [open] subscription and is not
      passed on if the recursion budget is above 0, and is passed on like
      any value if the budget is 0.
    The callback gets the path and timestamp of the notification, and as
    fourth argument the unsubscribe function of that adapter. *)
Theorem first_notification_of_on this k throws riu r tg st i a v path t pending :
  adapters this !! i = Some a →
  let st1 := (on this (UserCallback k throws) riu r tg st).1 in
  let l := next_listener st + i in
  let e := next_env st in
  let st2 := state (step (Notify l v path t) (mkConfig st1 pending)) in
  (is_undefined v = true → riu = false → st2 = st1)
  ∧ (is_undefined v = true → riu = true →
       log st2 = log st ++ [Call k JUndefined path t (UnAdapter l)]
       ∧ latestValue (on_env e st2) = None)
  ∧ (is_undefined v = false → isDirectory v = false →
       log st2 = log st ++ [Call k (tg v) path t (UnAdapter l)]
       ∧ latestValue (on_env e st2) = (λ u, (v, u)) <$> t)
  ∧ (isDirectory v = true → 0 < r →
       log st2 = log st ∧ is_Some (openUnsubscribe (on_env e st2)))
  ∧ (isDirectory v = true → r = 0 →
       log st2 = log st ++ [Call k (tg v) path t (UnAdapter l)]).
Proof.
  intros Hi st1 l e st2.
  destruct (on_store this (UserCallback k throws) riu r tg st)
    as (_ & _ & Honv & _ & Hin & _ & _ & _ & _ & _ & _ & _ & Hlog & _).
  fold st1 e in Honv, Hin, Hlog. specialize (Hin i a Hi). fold l in Hin.
  set (cb := OnLocalCallback e this (UserCallback k throws) riu r tg) in *.
  assert (Hst2 : st2 = (invoke cb v path t (UnAdapter l) st1).1).
  { subst st2. cbn [step state]. by rewrite Hin. }
  assert (Henv : on_env e st1 = mkOnEnv None None (seq (next_listener st) (length (adapters this)))).
  { unfold on_env. by rewrite Honv, lookup_insert_eq. }
  assert (Hinv : invoke cb v path t (UnAdapter l) st1 =
    if negb riu && is_undefined v then (st1, Normal tt)
    else if riu && is_undefined v
    then invoke (UserCallback k throws) v path t (UnAdapter l) st1
    else
      let sb := open_once e this (UserCallback k throws) r tg v (record_latest e v t st1) in
      if negb (isDirectory v) || (r =? 0)
      then invoke (UserCallback k throws) (tg v) path t (UnAdapter l) sb
      else (sb, Normal tt)).
  { subst cb. rewrite invoke_OnLocalCallback. cbv zeta. rewrite Henv. cbn [latestValue].
    unfold dropped. cbn [olderThanLatest orb]. by destruct (negb riu && is_undefined v). }
  rewrite Hst2, Hinv. clear Hinv Hst2.
  split; [|split; [|split; [|split]]].
  - intros -> ->. done.
  - intros Hu ->. rewrite Hu. cbn [negb andb]. rewrite invoke_UserCallback. cbn [fst].
    destruct v; try done. split; [simpl; by rewrite Hlog|].
    unfold on_env. simpl. by rewrite Honv, lookup_insert_eq.
  - intros Hu Hd. rewrite Hu, !andb_false_r. cbv zeta. rewrite Hd. cbn [negb orb].
    unfold open_once. rewrite Hd. cbn [andb]. rewrite invoke_UserCallback. cbn [fst].
    split; [simpl; unfold record_latest; destruct t; rewrite ?Hu; simpl; by rewrite Hlog|].
    unfold record_latest. rewrite Hu. cbn [negb].
    destruct t as [u|]; cbn [fmap option_fmap option_map].
    + unfold on_env, set_latestValue. simpl. by rewrite lookup_insert_eq.
    + unfold on_env. simpl. by rewrite Honv, lookup_insert_eq.
  - intros Hd Hr. assert (Hu : is_undefined v = false) by (by destruct v).
    rewrite Hu, !andb_false_r. cbv zeta. rewrite Hd. cbn [negb orb].
    rewrite (proj2 (Nat.eqb_neq r 0)) by lia. cbn [fst].
    unfold open_once. rewrite Hd, (proj2 (Nat.ltb_lt 0 r) Hr). cbn [andb].
    assert (Hrec : openUnsubscribe (on_env e (record_latest e v t st1)) = None
                   ∧ log (record_latest e v t st1) = log st).
    { unfold record_latest. destruct t as [u|]; rewrite ?Hu; cbn [negb].
      - split; [|done]. unfold on_env, set_latestValue. simpl.
        rewrite lookup_insert_eq. simpl. by rewrite Henv.
      - by rewrite Henv. }
    destruct Hrec as [Hnone Hlog']. rewrite Hnone. cbn [bool_decide negb].
    rewrite bool_decide_false by (by intros [? ?]). cbn [negb].
    pose proof (same_log_open_handle this (UserCallback k throws) (r - 1) tg
                  (record_latest e v t st1)) as Hlo.
    destruct (open_handle this _ (r - 1) tg _) as [s3 h]. unfold same_log in Hlo.
    cbn [fst] in Hlo. split; [simpl; congruence|].
    unfold set_openUnsubscribe. rewrite on_env_insert, decide_True by done. done.
  - intros Hd ->. assert (Hu : is_undefined v = false) by (by destruct v).
    rewrite Hu, !andb_false_r. cbv zeta. rewrite orb_true_r.
    unfold open_once. rewrite Hd. cbn [andb Nat.ltb Nat.leb].
    rewrite invoke_UserCallback. cbn [fst]. simpl.
    unfold record_latest. destruct t; rewrite ?Hu; simpl; by rewrite Hlog.
Qed.

Lemma first_notification_of_on_witness :
  let r := root [0; 1] in
  let st1 := (on r (UserCallback 7 false) false 1 (λ v, v) initial_state).1 in
  state (step (Notify 1 JUndefined "" None) (mkConfig st1 [])) = st1
  ∧ log (state (step (Notify 1 (JNumber 3) "" (Some 5%Z)) (mkConfig st1 [])))
    = [Call 7 (JNumber 3) "" (Some 5%Z) (UnAdapter 1)].
Proof.
  intros r st1.
  assert (Hi : adapters r !! 1 = Some 1) by reflexivity.
  split.
  - exact (proj1 (first_notification_of_on r 7 false false 1 (λ v, v) initial_state 1 1
                    JUndefined "" None [] Hi) eq_refl eq_refl).
  - exact (proj1 (proj1 (proj2 (proj2 (first_notification_of_on r 7 false false 1 (λ v, v)
                    initial_state 1 1 (JNumber 3) "" (Some 5%Z) [] Hi))) eq_refl eq_refl)).
Defined.

End FirstNotification.

(** * Further properties: [open] on the parent, and the order of subscriptions *)

Section ChildWritesOpen.




End ChildWritesOpen.

Section SubscriptionOrder.

Lemma table_set_fresh k s t : table_get k t = None → table_set k s t = t ++ [(k, s)].
Proof.
  induction t as [|[k0 s0] rest IH]; simpl; [done|].
  destruct (decide (k0 = k)) as [->|Hne]; [done|]. intros Hrest. by rewrite IH.
Qed.

Lemma table_get_key sid s t : (sid, s) ∈ t → is_Some (table_get sid t).
Proof.
  induction t as [|[k0 s0] rest IH]; [by intros ?%elem_of_nil|].
  intros [Heq|Hin]%elem_of_cons; simpl.
  - injection Heq as <- <-. by rewrite decide_True.
  - destruct (decide (k0 = sid)); [done|by apply IH].
Qed.

(** X13. A new subscription goes last and disturbs no other.  In every
    state the engine can reach, [on] on an allocated node adds its entry at
    the end of the node's [on_subscriptions], under a key above all the keys
    in use, and leaves the entries before it, and the table of [map], as
    they are; [map] does the same with [map_subscriptions].  ([notifyChange]
    and the loop of [put] go through the tables from the first entry to the
    last.) *)
Theorem subscription_goes_last inputs this k throws riu r tg :
  let st := state (run inputs initial) in
  live this st →
  let uid := counter (cell this st) in
  let st1 := (on this (UserCallback k throws) riu r tg st).1 in
  let st2 := (map this (UserCallback k throws) r tg st).1 in
  on_subscriptions (cell this st1)
  = on_subscriptions (cell this st)
    ++ [(uid, mkSubscription
                (OnLocalCallback (next_env st) this (UserCallback k throws) riu r tg) r)]
  ∧ map_subscriptions (cell this st1) = map_subscriptions (cell this st)
  ∧ map_subscriptions (cell this st2)
    = map_subscriptions (cell this st)
      ++ [(uid, mkSubscription (MapTypedCallback (UserCallback k throws) tg) r)]
  ∧ on_subscriptions (cell this st2) = on_subscriptions (cell this st)
  ∧ Forall (λ entry, entry.1 < uid) (on_subscriptions (cell this st))
  ∧ Forall (λ entry, entry.1 < uid) (map_subscriptions (cell this st)).
Proof.
  intros st [c0 Hc0] uid st1 st2.
  pose proof (ids_fresh_reachable inputs) as Hids. fold st in Hids.
  destruct (fresh_key this st Hids c0 Hc0) as [Hon Hmap]. fold uid in Hon, Hmap.
  destruct (on_store this (UserCallback k throws) riu r tg st) as (_ & Hheap1 & _).
  destruct (map_store this (UserCallback k throws) r tg st) as (_ & Hheap2 & _).
  fold st1 uid in Hheap1. fold st2 uid in Hheap2.
  assert (Hcell1 : heap st1 !! addr this = Some
            (with_on_subscriptions
               (table_set uid (mkSubscription
                  (OnLocalCallback (next_env st) this (UserCallback k throws) riu r tg) r))
               (with_counter (S uid) c0))).
  { by rewrite Hheap1, !lookup_alter_eq, Hc0. }
  assert (Hcell2 : heap st2 !! addr this = Some
            (with_map_subscriptions
               (table_set uid (mkSubscription (MapTypedCallback (UserCallback k throws) tg) r))
               (with_counter (S uid) c0))).
  { by rewrite Hheap2, !lookup_alter_eq, Hc0. }
  rewrite (cell_lookup _ _ _ Hcell1), (cell_lookup _ _ _ Hcell2), (cell_lookup _ _ _ Hc0).
  cbn [on_subscriptions map_subscriptions with_on_subscriptions with_map_subscriptions
       with_counter].
  split; [by apply table_set_fresh|]. split; [done|].
  split; [by apply table_set_fresh|]. split; [done|].
  destruct Hids as [Hk _]. split; apply Forall_forall; intros [sid s] Hin; cbn [fst].
  - subst uid. rewrite (cell_lookup _ _ _ Hc0). apply (Hk _ _ _ Hc0). left.
    by eapply table_get_key.
  - subst uid. rewrite (cell_lookup _ _ _ Hc0). apply (Hk _ _ _ Hc0). right.
    by eapply table_get_key.
Qed.

Lemma subscription_goes_last_witness :
  let r := root [0] in
  let st := state (run [CallOn r 3 false false 1 (λ v, v)] initial) in
  on_subscriptions (cell r (on r (UserCallback 7 false) false 1 (λ v, v) st).1)
  = on_subscriptions (cell r st)
    ++ [(1, mkSubscription (OnLocalCallback 1 r (UserCallback 7 false) false 1 (λ v, v)) 1)].
Proof.
  intros r st.
  assert (Hlive : live r st) by (by eexists).
  exact (proj1 (subscription_goes_last [CallOn r 3 false false 1 (λ v, v)] r 7 false
                  false 1 (λ v, v) Hlive)).
Defined.

End SubscriptionOrder.
